(** * Super-Downloader-Bot: task registry, rate window, TTL cache and
      progress tracking

    A shallow embedding of the coordination core of [bot.py]:

    - [BotState] (the in-memory registry of active downloads, the per-user
      index, the TTL cache and the sliding rate window),
    - [ProgressTracker] (the debounced status-message editor),
    - [YTDLPProgressHook] (the adapter called by the download engine),
    - the decorators in front of the message handlers and the callback of
      the cancel button ([Gate], [Callbacks]),

    and of the helpers they rely on: the text helpers of
    [languages/utils.py] and [format_file_size] of [config.py] ([Utils],
    [Config]), and the language tables of [languages/__init__.py]
    ([Languages]).

    Conventions of the embedding.

    - Clock readings ([time.time()], a float of seconds) are integers of type
      [Z] counting ticks of a fixed, arbitrarily fine resolution; windows,
      TTLs and the update interval are given in the same ticks.  The code
      only subtracts and compares readings.  Every function that reads the
      clock takes the reading as an explicit argument [current_time].
    - A Python number, an [int] or a finite [float], is the rational it
      denotes, of type [Q].  Where the code multiplies or divides floats
      and the rounding of the result can be seen (the progress computed
      by the hook, the cells of a progress bar), the operation is a member
      of the interface [FloatArith] and stands for the rounded result; a
      number that is only handed to a formatter is written exactly.
    - [async with self._lock] serialises the bodies; each method is one
      atomic state transformer [BotState -> BotState * result].
    - A [defaultdict] is a [gmap] read with the total lookup [!!!], whose
      default is the empty set or the empty list.
    - Calls on the chat client are recorded as a trace of [Effect]s; the
      client's answer to an edit is an argument of the call.
    - A Python [str] whose characters matter (the text helpers) is the list
      of its code points, [list N]; keys, language codes and message texts
      that are only compared or passed on are [string]s.
    - What lies outside the modelled code is a parameter: the f-string that
      prints a number with a given number of decimals ([format_f]),
      [str.format] ([str_format]), the language files, the configuration
      and the database lookup [db.get_user].
    - A decorated handler is a function of the sender, the clock reading
      and the state, and one message is handled in one step. *)

From Stdlib Require Import ZArith NArith QArith Qround Qabs List Lia Lqa Ascii
  Sorting.Sorted.
From stdpp Require Import gmap strings pretty list fin_maps fin_sets.

#[local] Open Scope Z_scope.
#[local] Set Warnings "-clear-no-such-hyp".

(** ** Data model ([config.py], [bot.py]) *)

(** [class DownloadStatus(Enum)] *)
Inductive DownloadStatus : Type :=
  | PENDING | EXTRACTING | DOWNLOADING | MERGING
  | UPLOADING | COMPLETED | FAILED | CANCELLED.

#[global] Instance DownloadStatus_eq_dec : EqDecision DownloadStatus.
Proof. solve_decision. Defined.

(** [@dataclass class DownloadTask].  The fields [video_info],
    [selected_format], [file_path], [started_at] and [completed_at] hold
    objects the registry never inspects and are left out. *)
Record DownloadTask : Type := mkDownloadTask {
  task_id : string;
  user_id : Z;
  chat_id : Z;
  message_id : Z;
  url : string;
  status : DownloadStatus;
  progress : Q;
  downloaded_bytes : Z;
  total_bytes : Z;
  speed : Q;
  eta : Z;
  error_message : string;
  cancelled : bool
}.

(** [task.cancelled = True] *)
Definition set_cancelled (t : DownloadTask) : DownloadTask :=
  {| task_id := task_id t; user_id := user_id t; chat_id := chat_id t;
     message_id := message_id t; url := url t; status := status t;
     progress := progress t; downloaded_bytes := downloaded_bytes t;
     total_bytes := total_bytes t; speed := speed t; eta := eta t;
     error_message := error_message t; cancelled := true |}.

(** [DownloadTask(task_id, user_id, chat_id, message_id, url)]: the other
    fields take the defaults of the dataclass. *)
Definition new_task (tid : string) (uid chat message : Z) (u : string)
    : DownloadTask :=
  {| task_id := tid; user_id := uid; chat_id := chat; message_id := message;
     url := u; status := PENDING; progress := 0; downloaded_bytes := 0;
     total_bytes := 0; speed := 0; eta := 0; error_message := "";
     cancelled := false |}.

(** ** [class BotState] *)

Section BotState.
Context {Any : Type}.

(** The attributes set by [BotState.__init__].  [_lock], [_user_data] and
    [_start_time] play no part in the operations below. *)
Record BotState : Type := mkBotState {
  _downloads : gmap string DownloadTask;
  _user_downloads : gmap Z (gset string);
  _cache : gmap string (Any * Z);
  _rate_limits : gmap Z (list Z);
  _total_downloads : Z;
  _successful_downloads : Z;
  _failed_downloads : Z
}.

(** [BotState()] *)
Definition BotState_init : BotState :=
  {| _downloads := ∅; _user_downloads := ∅; _cache := ∅; _rate_limits := ∅;
     _total_downloads := 0; _successful_downloads := 0;
     _failed_downloads := 0 |}.

Definition with_downloads (st : BotState) (d : gmap string DownloadTask)
    : BotState :=
  {| _downloads := d; _user_downloads := _user_downloads st;
     _cache := _cache st; _rate_limits := _rate_limits st;
     _total_downloads := _total_downloads st;
     _successful_downloads := _successful_downloads st;
     _failed_downloads := _failed_downloads st |}.

Definition with_user_downloads (st : BotState) (u : gmap Z (gset string))
    : BotState :=
  {| _downloads := _downloads st; _user_downloads := u;
     _cache := _cache st; _rate_limits := _rate_limits st;
     _total_downloads := _total_downloads st;
     _successful_downloads := _successful_downloads st;
     _failed_downloads := _failed_downloads st |}.

Definition with_cache (st : BotState) (c : gmap string (Any * Z))
    : BotState :=
  {| _downloads := _downloads st; _user_downloads := _user_downloads st;
     _cache := c; _rate_limits := _rate_limits st;
     _total_downloads := _total_downloads st;
     _successful_downloads := _successful_downloads st;
     _failed_downloads := _failed_downloads st |}.

Definition with_rate_limits (st : BotState) (r : gmap Z (list Z))
    : BotState :=
  {| _downloads := _downloads st; _user_downloads := _user_downloads st;
     _cache := _cache st; _rate_limits := r;
     _total_downloads := _total_downloads st;
     _successful_downloads := _successful_downloads st;
     _failed_downloads := _failed_downloads st |}.

(** *** The task registry *)

(** [add_download]: [self._downloads[task.task_id] = task] then
    [self._user_downloads[task.user_id].add(task.task_id)].  There is no
    test for an ID that is already present and no [raise]. *)
Definition add_download (st : BotState) (task : DownloadTask) : BotState :=
  let st1 := with_downloads st (<[task_id task := task]> (_downloads st)) in
  with_user_downloads st1
    (<[user_id task := (_user_downloads st1 !!! user_id task) ∪ {[task_id task]}]>
       (_user_downloads st1)).

(** [get_download] *)
Definition get_download (st : BotState) (tid : string) : option DownloadTask :=
  _downloads st !! tid.

(** [remove_download]: a no-op when the ID is absent; otherwise the ID is
    discarded from the index of the stored task's owner and the entry is
    deleted. *)
Definition remove_download (st : BotState) (tid : string) : BotState :=
  match _downloads st !! tid with
  | Some task =>
      let st1 := with_user_downloads st
        (<[user_id task := (_user_downloads st !!! user_id task) ∖ {[tid]}]>
           (_user_downloads st)) in
      with_downloads st1 (delete tid (_downloads st1))
  | None => st
  end.

(** [self._user_downloads.get(user_id, set())] *)
Definition user_task_ids (st : BotState) (uid : Z) : gset string :=
  default ∅ (_user_downloads st !! uid).

(** [get_user_download_count] *)
Definition get_user_download_count (st : BotState) (uid : Z) : nat :=
  size (user_task_ids st uid).

(** [get_user_downloads]: the comprehension
    [[self._downloads[tid] for tid in task_ids if tid in self._downloads]];
    the iteration order of the set is [elements].  Python fixes that order
    only as long as the set is not changed, so the result is compared
    with a list taken before a change of the set up to permutation. *)
Definition get_user_downloads (st : BotState) (uid : Z) : list DownloadTask :=
  omap (λ tid, _downloads st !! tid) (elements (user_task_ids st uid)).

(** The [for task_id in task_ids] loop of [cancel_user_downloads], threading
    the map and the counter. *)
Fixpoint cancel_loop (task_ids : list string) (d : gmap string DownloadTask)
    (n : nat) : gmap string DownloadTask * nat :=
  match task_ids with
  | [] => (d, n)
  | tid :: rest =>
      match d !! tid with
      | Some task => cancel_loop rest (<[tid := set_cancelled task]> d) (S n)
      | None => cancel_loop rest d n
      end
  end.

(** [cancel_user_downloads] *)
Definition cancel_user_downloads (st : BotState) (uid : Z) : BotState * nat :=
  let task_ids := elements (user_task_ids st uid) in
  let '(d, n) := cancel_loop task_ids (_downloads st) 0%nat in
  (with_downloads st d, n).

(** The live tasks whose owner is [uid]. *)
Definition owned_tasks (st : BotState) (uid : Z) : gmap string DownloadTask :=
  filter (λ kv, user_id kv.2 = uid) (_downloads st).

(** [get_global_download_count] *)
Definition get_global_download_count (st : BotState) : nat :=
  size (_downloads st).

(** *** The TTL cache *)

(** [get_cached]: a hit when [time.time() - timestamp < ttl]; an expired
    entry is deleted and [None] is returned. *)
Definition get_cached (st : BotState) (key : string) (ttl current_time : Z)
    : BotState * option Any :=
  match _cache st !! key with
  | Some (value, timestamp) =>
      if decide (current_time - timestamp < ttl) then (st, Some value)
      else (with_cache st (delete key (_cache st)), None)
  | None => (st, None)
  end.

(** [set_cached] *)
Definition set_cached (st : BotState) (key : string) (value : Any)
    (current_time : Z) : BotState :=
  with_cache st (<[key := (value, current_time)]> (_cache st)).

(** *** The sliding rate window *)

(** [check_rate_limit].  The list kept for the user is first replaced by
    its entries with [ts > cutoff_time]; the count is taken from the stored
    list, and the reading is appended only on the allowing branch. *)
Definition check_rate_limit (st : BotState)
    (uid limit window current_time : Z) : BotState * (bool * Z) :=
  let cutoff_time := current_time - window in
  let st1 := with_rate_limits st
    (<[uid := filter (λ ts, cutoff_time < ts) (_rate_limits st !!! uid)]>
       (_rate_limits st)) in
  let current_count := Z.of_nat (length (_rate_limits st1 !!! uid)) in
  let remaining := limit - current_count in
  if decide (current_count < limit) then
    (with_rate_limits st1
       (<[uid := (_rate_limits st1 !!! uid) ++ [current_time]]>
          (_rate_limits st1)),
     (true, remaining - 1))
  else (st1, (false, 0)).

(** [increment_stats] *)
Definition increment_stats (st : BotState) (success : bool) : BotState :=
  {| _downloads := _downloads st; _user_downloads := _user_downloads st;
     _cache := _cache st; _rate_limits := _rate_limits st;
     _total_downloads := _total_downloads st + 1;
     _successful_downloads :=
       if success then _successful_downloads st + 1
       else _successful_downloads st;
     _failed_downloads :=
       if success then _failed_downloads st else _failed_downloads st + 1 |}.

End BotState.

Arguments BotState : clear implicits.

(** The effect of one [check_rate_limit] on the list kept for the user: the
    new list and [is_allowed]. *)
Definition window_step (l : list Z) (limit window now : Z) : list Z * bool :=
  let kept := filter (λ ts, now - window < ts) l in
  if decide (Z.of_nat (length kept) < limit) then (kept ++ [now], true)
  else (kept, false).

(** Number of entries above a threshold. *)
Definition count_above (c : Z) (l : list Z) : nat :=
  length (filter (λ t, c < t) l).

(** ** Sequences of calls *)

(** One call [check_rate_limit(user_id, limit, window)] made when the clock
    reads [rc_time]. *)
Record RateCall : Type := mkRateCall {
  rc_user : Z;
  rc_limit : Z;
  rc_window : Z;
  rc_time : Z
}.

(** The calls in the order they are made, each paired with the [is_allowed]
    component it returned. *)
Fixpoint run_rate_calls {Any : Type} (st : BotState Any)
    (calls : list RateCall) : list (RateCall * bool) :=
  match calls with
  | [] => []
  | c :: rest =>
      let r := check_rate_limit st (rc_user c) (rc_limit c) (rc_window c)
                 (rc_time c) in
      (c, r.2.1) :: run_rate_calls r.1 rest
  end.

(** Clock readings of the calls of user [uid], in call order. *)
Definition call_times (uid : Z) (calls : list RateCall) : list Z :=
  rc_time <$> filter (λ c, rc_user c = uid) calls.

(** Clock readings of the calls of user [uid] that returned
    [is_allowed = True]. *)
Definition allowed_times (uid : Z) (log : list (RateCall * bool)) : list Z :=
  (λ e, rc_time e.1) <$> filter (λ e, e.2 = true ∧ rc_user e.1 = uid) log.

(** Number of readings in the span [a <= t < a + window]. *)
Definition count_in_span (a window : Z) (l : list Z) : nat :=
  length (filter (λ t, a ≤ t < a + window) l).

(** Number of allowed calls of [uid] whose reading lies in the span
    [a <= t < a + window]. *)
Definition allowed_in_span (uid a window : Z) (log : list (RateCall * bool))
    : nat :=
  count_in_span a window (allowed_times uid log).

(** Operations on the task registry. *)
Inductive RegistryOp : Type :=
  | OpAdd (task : DownloadTask)
  | OpRemove (tid : string)
  | OpCancel (uid : Z).

Definition run_registry_op {Any : Type} (st : BotState Any) (op : RegistryOp)
    : BotState Any :=
  match op with
  | OpAdd task => add_download st task
  | OpRemove tid => remove_download st tid
  | OpCancel uid => (cancel_user_downloads st uid).1
  end.

Definition run_registry_ops {Any : Type} (st : BotState Any)
    (ops : list RegistryOp) : BotState Any :=
  foldl run_registry_op st ops.

(** The index agrees with ownership: [tid] is listed under [uid] exactly
    when [tid] is a key of the primary map whose task has owner [uid]. *)
Definition registry_consistent {Any : Type} (st : BotState Any) : Prop :=
  ∀ (tid : string) (uid : Z),
    tid ∈ user_task_ids st uid ↔
    ∃ task, _downloads st !! tid = Some task ∧ user_id task = uid.

(** One half of [registry_consistent]: a live task is listed under its
    owner. *)
Definition owner_listed {Any : Type} (st : BotState Any) : Prop :=
  ∀ tid task, _downloads st !! tid = Some task →
              tid ∈ user_task_ids st (user_id task).

(** An [add_download] does not reuse an ID that is live under another
    owner. *)
Definition no_foreign_collision {Any : Type} (st : BotState Any)
    (task : DownloadTask) : Prop :=
  ∀ old, _downloads st !! task_id task = Some old → user_id old = user_id task.

(** Every [OpAdd] of the sequence satisfies [no_foreign_collision] in the
    state it is run in. *)
Fixpoint adds_without_collision {Any : Type} (st : BotState Any)
    (ops : list RegistryOp) : Prop :=
  match ops with
  | [] => True
  | op :: rest =>
      match op with
      | OpAdd task => no_foreign_collision st task
      | _ => True
      end ∧ adds_without_collision (run_registry_op st op) rest
  end.

(** Operations on the TTL cache. *)
Inductive CacheOp (Any : Type) : Type :=
  | OpSet (key : string) (value : Any) (current_time : Z)
  | OpGet (key : string) (ttl current_time : Z).
Arguments OpSet {Any} key value current_time.
Arguments OpGet {Any} key ttl current_time.

Definition run_cache_op {Any : Type} (st : BotState Any) (op : CacheOp Any)
    : BotState Any :=
  match op with
  | OpSet key value now => set_cached st key value now
  | OpGet key ttl now => (get_cached st key ttl now).1
  end.

(** [op] neither sets [key] nor reads it after the entry written at
    [stamp] has expired (an expired read deletes the entry). *)
Definition leaves_entry {Any : Type} (key : string) (stamp : Z)
    (op : CacheOp Any) : Prop :=
  match op with
  | OpSet key' _ _ => key' ≠ key
  | OpGet key' ttl now => key' ≠ key ∨ now - stamp < ttl
  end.

(** ** Localisation helpers ([languages/__init__.py], [languages/utils.py],
       [config.py])

    The string tables and number formatters are an interface of the
    tracker: [get_text key lang_code kwargs], [generate_progress_bar
    progress length lang_code], and the formatters of sizes, speeds and
    durations.  [format_percentage p] stands for the f-string
    [f"{p:.1f}%"]. *)
Class Localization : Type := {
  get_text : string → string → list (string * string) → string;
  generate_progress_bar : Q → Z → string → string;
  to_persian_digits : string → string;
  format_percentage : Q → string;
  format_size_localized : Q → string → string;
  format_file_size : Q → string;
  format_speed : Q → string → string;
  format_duration_text : Q → string → bool → string
}.

(** Truth value of a Python number: zero is false. *)
Definition truthy_num (q : Q) : bool := negb (Qeq_bool q 0).

(** ** Floating-point arithmetic

    A Python [float] is an IEEE 754 binary64.  [float_div x y] and
    [float_mul x y] stand for [x / y] and [x * y] as Python computes them
    when the result is a [float] (the true division of two integers
    included): the double nearest to the exact result.  Which double that
    is, is left to the interface. *)
Class FloatArith : Type := {
  float_div : Q → Q → Q;
  float_mul : Q → Q → Q
}.

(** Arithmetic without rounding, for concrete runs: it agrees with
    binary64 on every run in which the exact result of each operation is
    a double (a quarter of twenty, a quarter times a hundred). *)
Definition exact_arith : FloatArith :=
  {| float_div := Qdiv; float_mul := Qmult |}.

(** ** [class ProgressTracker] *)

Module Tracker.

(** What [client.edit_message_text] answers: it returns, or raises
    [MessageNotModified], [FloodWait] (carrying [e.value]) or another
    exception. *)
Inductive EditResult : Type :=
  | EditOk
  | MessageNotModified
  | FloodWait (value : Z)
  | OtherException.

(** Calls made by the tracker, in the order they are made. *)
Inductive Effect : Type :=
  | EditMessageText (chat_id message_id : Z) (text : string)
  | Sleep (seconds : Z)
  | LoggerWarning
  | LoggerError.

(** The attributes set by [ProgressTracker.__init__] ([client] and [_lock]
    apart). *)
Record ProgressTracker : Type := mkProgressTracker {
  chat_id : Z;
  message_id : Z;
  user_id : Z;
  task_id : string;
  lang_code : string;
  _last_update : Z;
  _update_interval : Z;
  _last_text : string;
  status : DownloadStatus;
  progress : Q;
  downloaded_bytes : Q;
  total_bytes : Q;
  speed : Q;
  eta : Q;
  quality : string;
  filename : string
}.

(** [ProgressTracker(client, chat_id, message_id, user_id, task_id,
    lang_code)], with [PROGRESS_UPDATE_INTERVAL] given in ticks. *)
Definition ProgressTracker_init (chat message user : Z) (task lang : string)
    (PROGRESS_UPDATE_INTERVAL : Z) : ProgressTracker :=
  {| chat_id := chat; message_id := message; user_id := user;
     task_id := task; lang_code := lang;
     _last_update := 0; _update_interval := PROGRESS_UPDATE_INTERVAL;
     _last_text := ""; status := PENDING; progress := 0;
     downloaded_bytes := 0; total_bytes := 0; speed := 0; eta := 0;
     quality := ""; filename := "" |}.

(** The keyword arguments of [update]; [None] is an argument left out. *)
Record UpdateArgs : Type := mkUpdateArgs {
  kw_status : option DownloadStatus;
  kw_progress : option Q;
  kw_downloaded_bytes : option Q;
  kw_total_bytes : option Q;
  kw_speed : option Q;
  kw_eta : option Q;
  kw_force : bool
}.

(** The six [if x is not None: self.x = x] assignments that open [update]. *)
Definition merge_fields (tr : ProgressTracker) (a : UpdateArgs)
    : ProgressTracker :=
  {| chat_id := chat_id tr; message_id := message_id tr;
     user_id := user_id tr; task_id := task_id tr; lang_code := lang_code tr;
     _last_update := _last_update tr;
     _update_interval := _update_interval tr;
     _last_text := _last_text tr;
     status := match kw_status a with Some v => v | None => status tr end;
     progress :=
       match kw_progress a with Some v => v | None => progress tr end;
     downloaded_bytes :=
       match kw_downloaded_bytes a with
       | Some v => v | None => downloaded_bytes tr end;
     total_bytes :=
       match kw_total_bytes a with Some v => v | None => total_bytes tr end;
     speed := match kw_speed a with Some v => v | None => speed tr end;
     eta := match kw_eta a with Some v => v | None => eta tr end;
     quality := quality tr; filename := filename tr |}.

(** [self._last_text = new_text; self._last_update = current_time] *)
Definition mark_sent (tr : ProgressTracker) (new_text : string)
    (current_time : Z) : ProgressTracker :=
  {| chat_id := chat_id tr; message_id := message_id tr;
     user_id := user_id tr; task_id := task_id tr; lang_code := lang_code tr;
     _last_update := current_time;
     _update_interval := _update_interval tr;
     _last_text := new_text;
     status := status tr; progress := progress tr;
     downloaded_bytes := downloaded_bytes tr; total_bytes := total_bytes tr;
     speed := speed tr; eta := eta tr;
     quality := quality tr; filename := filename tr |}.

Section Methods.
Context `{Localization}.

(** [_format_progress_message] *)
Definition _format_progress_message (tr : ProgressTracker) : string :=
  let progress_bar :=
    generate_progress_bar
      (if Qle_bool (progress tr) 100 then (progress tr / 100)%Q else 1%Q)
      20 (lang_code tr) in
  let '(percentage, downloaded, total, speed_text, eta_text) :=
    if decide (lang_code tr = "fa") then
      (to_persian_digits (format_percentage (progress tr)),
       format_size_localized (downloaded_bytes tr) "fa",
       (if truthy_num (total_bytes tr)
        then format_size_localized (total_bytes tr) "fa" else "نامشخص"),
       format_speed (speed tr) "fa",
       (if truthy_num (eta tr)
        then format_duration_text (eta tr) "fa" true else "نامشخص"))
    else
      (format_percentage (progress tr),
       format_file_size (downloaded_bytes tr),
       (if truthy_num (total_bytes tr)
        then format_file_size (total_bytes tr) else "Unknown"),
       format_speed (speed tr) "en",
       (if truthy_num (eta tr)
        then format_duration_text (eta tr) "en" true else "Unknown")) in
  let kwargs :=
    [("progress_bar", progress_bar); ("percentage", percentage);
     ("downloaded", downloaded); ("uploaded", downloaded);
     ("total", total); ("speed", speed_text); ("eta", eta_text);
     ("quality", if decide (quality tr = "") then "N/A" else quality tr)] in
  match status tr with
  | DOWNLOADING => get_text "download.progress" (lang_code tr) kwargs
  | MERGING => get_text "download.merging" (lang_code tr) []
  | UPLOADING => get_text "download.uploading" (lang_code tr) kwargs
  | _ => get_text "common.processing" (lang_code tr) []
  end.

(** [update]: merge, debounce test, text, duplicate test, edit.  The
    markers [_last_text] and [_last_update] are written only when the edit
    returns; [answer] is what the client does if the edit is issued. *)
Definition update (tr : ProgressTracker) (a : UpdateArgs) (current_time : Z)
    (answer : EditResult) : ProgressTracker * list Effect :=
  let tr := merge_fields tr a in
  if negb (kw_force a)
     && bool_decide (current_time - _last_update tr < _update_interval tr)
  then (tr, [])
  else
    let new_text := _format_progress_message tr in
    if decide (new_text = _last_text tr) then (tr, [])
    else
      let edit := EditMessageText (chat_id tr) (message_id tr) new_text in
      match answer with
      | EditOk => (mark_sent tr new_text current_time, [edit])
      | MessageNotModified => (tr, [edit])
      | FloodWait value => (tr, [edit; LoggerWarning; Sleep value])
      | OtherException => (tr, [edit; LoggerError])
      end.

(** [set_status] *)
Definition set_status (tr : ProgressTracker) (new_status : DownloadStatus)
    (force : bool) (current_time : Z) (answer : EditResult)
    : ProgressTracker * list Effect :=
  update tr
    {| kw_status := Some new_status; kw_progress := None;
       kw_downloaded_bytes := None; kw_total_bytes := None;
       kw_speed := None; kw_eta := None; kw_force := force |}
    current_time answer.

(** [complete]: one [edit_message_text] with the given text; any exception
    is logged.  No attribute of the tracker is read besides the message
    coordinates, and none is written. *)
Definition complete (tr : ProgressTracker) (text : string)
    (answer : EditResult) : ProgressTracker * list Effect :=
  (tr,
   EditMessageText (chat_id tr) (message_id tr) text ::
   match answer with
   | EditOk => []
   | _ => [LoggerError]
   end).

(** A call of [update] with the clock reading and the client's answer. *)
Record UpdateCall : Type := mkUpdateCall {
  uc_args : UpdateArgs;
  uc_time : Z;
  uc_answer : EditResult
}.

(** Consecutive [update] calls on one tracker: the final tracker and the
    trace of each call. *)
Fixpoint run_updates (tr : ProgressTracker) (calls : list UpdateCall)
    : ProgressTracker * list (list Effect) :=
  match calls with
  | [] => (tr, [])
  | c :: rest =>
      let r := update tr (uc_args c) (uc_time c) (uc_answer c) in
      let rs := run_updates r.1 rest in
      (rs.1, r.2 :: rs.2)
  end.

End Methods.

(** The texts of the edits issued in a trace. *)
Definition edits (trace : list Effect) : list string :=
  omap (λ e, match e with EditMessageText _ _ text => Some text | _ => None end)
       trace.

(** The texts of the edits of a trace that the client accepted. *)
Definition delivered (trace : list Effect) (answer : EditResult)
    : list string :=
  match answer with
  | EditOk => edits trace
  | _ => []
  end.

(** The snapshot: the fields that [update] merges. *)
Definition snapshot (tr : ProgressTracker)
    : DownloadStatus * Q * Q * Q * Q * Q :=
  (status tr, progress tr, downloaded_bytes tr, total_bytes tr, speed tr,
   eta tr).

(** The fields [_format_progress_message] reads. *)
Definition display (tr : ProgressTracker)
    : DownloadStatus * Q * Q * Q * Q * Q * string * string :=
  (snapshot tr, lang_code tr, quality tr).

(** A plain localisation for concrete runs: texts are the key, the language
    and the arguments joined by bars; numbers are printed rounded down. *)
Definition plain_localization : Localization :=
  {| get_text key lang kwargs :=
       key +:+ "|" +:+ lang
       +:+ foldr (λ kv acc, "|" +:+ kv.1 +:+ "=" +:+ kv.2 +:+ acc) "" kwargs;
     generate_progress_bar p len lang := pretty (Qfloor (p * inject_Z len));
     to_persian_digits s := s;
     format_percentage q := pretty (Qfloor q) +:+ "%";
     format_size_localized q lang := pretty (Qfloor q);
     format_file_size q := pretty (Qfloor q) +:+ "B";
     format_speed q lang := pretty (Qfloor q) +:+ "B/s";
     format_duration_text q lang short := pretty (Qfloor q) +:+ "s" |}.

(** [update(progress=p)] *)
Definition progress_only (p : Q) (force : bool) : UpdateArgs :=
  {| kw_status := None; kw_progress := Some p; kw_downloaded_bytes := None;
     kw_total_bytes := None; kw_speed := None; kw_eta := None;
     kw_force := force |}.

(** A tracker in its initial state whose status is already [DOWNLOADING],
    with an interval of 2000 ticks. *)
Definition downloading_tracker : ProgressTracker :=
  merge_fields (ProgressTracker_init 10 100 1 "a" "en" 2000)
    {| kw_status := Some DOWNLOADING; kw_progress := None;
       kw_downloaded_bytes := None; kw_total_bytes := None;
       kw_speed := None; kw_eta := None; kw_force := false |}.

End Tracker.

(** ** [class YTDLPProgressHook] *)

Module Hook.

(** The values found in a progress event [d : Dict[str, Any]]: [None], a
    number, or a string. *)
Inductive PyVal : Type :=
  | PyNone
  | PyNum (q : Q)
  | PyStr (s : string).

(** [d.get(key, default)] *)
Definition py_get (d : gmap string PyVal) (key : string) (dflt : PyVal)
    : PyVal :=
  default dflt (d !! key).

(** Truth value: [None], zero and the empty string are false. *)
Definition truthy (v : PyVal) : bool :=
  match v with
  | PyNone => false
  | PyNum q => truthy_num q
  | PyStr s => negb (String.eqb s "")
  end.

(** [a or b] *)
Definition py_or (a b : PyVal) : PyVal := if truthy a then a else b.

(** [v == s] for a string literal [s] *)
Definition is_str (v : PyVal) (s : string) : bool :=
  match v with
  | PyStr s' => String.eqb s' s
  | _ => false
  end.

Inductive PyError : Type := TypeError.

(** A call returns a value or raises. *)
Inductive Outcome (A : Type) : Type :=
  | Returns (a : A)
  | Raises (e : PyError).
Arguments Returns {A} a.
Arguments Raises {A} e.

(** The keyword arguments of one [self.tracker.update(...)] built by the
    hook; an argument the call site does not pass is [PyNone] (its default)
    and [force] defaults to [False]. *)
Record ScheduledUpdate : Type := mkScheduledUpdate {
  status : DownloadStatus;
  progress : PyVal;
  downloaded_bytes : PyVal;
  total_bytes : PyVal;
  speed : PyVal;
  eta : PyVal;
  force : bool
}.

(** What the hook does besides returning. *)
Inductive HookEffect : Type :=
  | RunCoroutineThreadsafe (call : ScheduledUpdate)
  | LoggerError (detail : PyVal).

(** [total = d.get('total_bytes') or d.get('total_bytes_estimate', 0)] *)
Definition event_total (d : gmap string PyVal) : PyVal :=
  py_or (py_get d "total_bytes" PyNone)
        (py_get d "total_bytes_estimate" (PyNum 0)).

Section WithFloats.
Context `{FloatArith}.

(** [YTDLPProgressHook.__call__].  [total > 0] raises [TypeError] unless
    [total] is a number, and so does [downloaded / total] unless
    [downloaded] is one.  The progress [(downloaded / total) * 100] is
    computed in floats. *)
Definition __call__ (d : gmap string PyVal) : Outcome (list HookEffect) :=
  let st := py_get d "status" PyNone in
  if is_str st "downloading" then
    let downloaded := py_get d "downloaded_bytes" (PyNum 0) in
    let total := event_total d in
    let speed_v := py_or (py_get d "speed" (PyNum 0)) (PyNum 0) in
    let eta_v := py_or (py_get d "eta" (PyNum 0)) (PyNum 0) in
    let schedule (p : PyVal) : Outcome (list HookEffect) :=
      Returns [RunCoroutineThreadsafe
                 {| status := DOWNLOADING; progress := p;
                    downloaded_bytes := downloaded; total_bytes := total;
                    speed := speed_v; eta := eta_v; force := false |}] in
    match total with
    | PyNum t =>
        if Qlt_le_dec 0 t then
          match downloaded with
          | PyNum dl => schedule (PyNum (float_mul (float_div dl t) 100))
          | _ => Raises TypeError
          end
        else schedule (PyNum 0)
    | _ => Raises TypeError
    end
  else if is_str st "finished" then
    Returns [RunCoroutineThreadsafe
               {| status := MERGING; progress := PyNum 100;
                  downloaded_bytes := PyNone; total_bytes := PyNone;
                  speed := PyNone; eta := PyNone; force := true |}]
  else if is_str st "error" then
    Returns [LoggerError (py_get d "error" (PyStr "Unknown error"))]
  else Returns [].

End WithFloats.

(** The tracker updates scheduled by a run of the hook. *)
Definition scheduled (effects : list HookEffect) : list ScheduledUpdate :=
  omap (λ e, match e with RunCoroutineThreadsafe c => Some c | _ => None end)
       effects.

(** A keyword argument as [update] receives it: [None] is "not given". *)
Definition kwarg (v : PyVal) : option (option Q) :=
  match v with
  | PyNone => Some None
  | PyNum q => Some (Some q)
  | PyStr _ => None
  end.

(** The scheduled call as arguments of [Tracker.update], when every
    numeric argument is a number or [None]. *)
Definition to_update_args (c : ScheduledUpdate) : option Tracker.UpdateArgs :=
  p ← kwarg (progress c);
  dl ← kwarg (downloaded_bytes c);
  tot ← kwarg (total_bytes c);
  sp ← kwarg (speed c);
  et ← kwarg (eta c);
  Some {| Tracker.kw_status := Some (status c); Tracker.kw_progress := p;
          Tracker.kw_downloaded_bytes := dl; Tracker.kw_total_bytes := tot;
          Tracker.kw_speed := sp; Tracker.kw_eta := et;
          Tracker.kw_force := force c |}.

End Hook.

(** ** Calls on the whole state *)

(** Any call on [BotState] that changes it: a registry call, a cache call,
    a [check_rate_limit] or an [increment_stats]. *)
Inductive BotOp (Any : Type) : Type :=
  | OpRegistry (op : RegistryOp)
  | OpCache (op : CacheOp Any)
  | OpRateLimit (c : RateCall)
  | OpStats (success : bool).
Arguments OpRegistry {Any} op.
Arguments OpCache {Any} op.
Arguments OpRateLimit {Any} c.
Arguments OpStats {Any} success.

(** The state after the [check_rate_limit] call [c]. *)
Definition run_rate_call {Any : Type} (st : BotState Any) (c : RateCall)
    : BotState Any :=
  (check_rate_limit st (rc_user c) (rc_limit c) (rc_window c) (rc_time c)).1.

Definition run_bot_op {Any : Type} (st : BotState Any) (op : BotOp Any)
    : BotState Any :=
  match op with
  | OpRegistry op => run_registry_op st op
  | OpCache op => run_cache_op st op
  | OpRateLimit c => run_rate_call st c
  | OpStats success => increment_stats st success
  end.

(** The calls of each kind in a sequence, in call order. *)
Definition registry_ops {Any : Type} (ops : list (BotOp Any))
    : list RegistryOp :=
  omap (λ op, match op with OpRegistry o => Some o | _ => None end) ops.

Definition cache_ops {Any : Type} (ops : list (BotOp Any))
    : list (CacheOp Any) :=
  omap (λ op, match op with OpCache o => Some o | _ => None end) ops.

Definition rate_calls {Any : Type} (ops : list (BotOp Any)) : list RateCall :=
  omap (λ op, match op with OpRateLimit c => Some c | _ => None end) ops.

Definition stats_outcomes {Any : Type} (ops : list (BotOp Any)) : list bool :=
  omap (λ op, match op with OpStats b => Some b | _ => None end) ops.

(** Two states with the same registry (primary map and index), and with
    the same counters. *)
Definition same_registry {Any : Type} (st1 st2 : BotState Any) : Prop :=
  _downloads st1 = _downloads st2 ∧ _user_downloads st1 = _user_downloads st2.

Definition same_stats {Any : Type} (st1 st2 : BotState Any) : Prop :=
  _total_downloads st1 = _total_downloads st2
  ∧ _successful_downloads st1 = _successful_downloads st2
  ∧ _failed_downloads st1 = _failed_downloads st2.

(** ** Statistics ([BotState.uptime_formatted], [BotState.get_stats]) *)

(** [datetime.timedelta]: the attributes [days] and [seconds]. *)
Record timedelta : Type := mkTimedelta {
  td_days : Z;
  td_seconds : Z
}.

(** [divmod(a, b)] on integers. *)
Definition divmod (a b : Z) : Z * Z := (a `div` b, a `mod` b).

(** The list [parts] of [uptime_formatted]; an entry [(n, u)] is the text
    [f"{n}{u}"]. *)
Definition uptime_parts (uptime : timedelta) : list (Z * string) :=
  let days := td_days uptime in
  let '(hours, remainder) := divmod (td_seconds uptime) 3600 in
  let '(minutes, seconds) := divmod remainder 60 in
  let parts := [] in
  let parts := if decide (days ≠ 0) then parts ++ [(days, "d")] else parts in
  let parts := if decide (hours ≠ 0) then parts ++ [(hours, "h")] else parts in
  let parts :=
    if decide (minutes ≠ 0) then parts ++ [(minutes, "m")] else parts in
  let parts :=
    if decide (seconds ≠ 0 ∨ parts = []) then parts ++ [(seconds, "s")]
    else parts in
  parts.

(** [uptime_formatted], for the value [uptime] of the property of that
    name: [" ".join(parts)]. *)
Definition uptime_formatted (uptime : timedelta) : string :=
  String.concat " " ((λ p, pretty p.1 +:+ p.2) <$> uptime_parts uptime).

(** The length in seconds of the unit a part is given in, and of a list of
    parts. *)
Definition unit_seconds (u : string) : Z :=
  if decide (u = "d") then 86400
  else if decide (u = "h") then 3600
  else if decide (u = "m") then 60
  else 1.

Definition parts_seconds (parts : list (Z * string)) : Z :=
  foldr (λ p acc, p.1 * unit_seconds p.2 + acc) 0 parts.

(** The number [get_stats] formats as the success rate; [None] is the case
    ["N/A"]. *)
Definition success_rate_number {Any : Type} (st : BotState Any) : option Q :=
  if decide (0 < _total_downloads st)
  then Some (inject_Z (_successful_downloads st)
             / inject_Z (_total_downloads st) * 100)%Q
  else None.

(** The dictionary [get_stats] returns. *)
Record Stats : Type := mkStats {
  stats_uptime : string;
  stats_total_downloads : Z;
  stats_successful_downloads : Z;
  stats_failed_downloads : Z;
  stats_active_downloads : nat;
  stats_cached_items : nat;
  stats_success_rate : string
}.

(** [get_stats], when [self.uptime] is [uptime].  [format_f n x] stands for
    the f-string that prints [x] with [n] decimal places. *)
Definition get_stats {Any : Type} (format_f : nat → Q → string)
    (st : BotState Any) (uptime : timedelta) : Stats :=
  {| stats_uptime := uptime_formatted uptime;
     stats_total_downloads := _total_downloads st;
     stats_successful_downloads := _successful_downloads st;
     stats_failed_downloads := _failed_downloads st;
     stats_active_downloads := size (_downloads st);
     stats_cached_items := size (_cache st);
     stats_success_rate :=
       match success_rate_number st with
       | Some q => format_f 1%nat q +:+ "%"
       | None => "N/A"
       end |}.

(** ** Splitting a string *)

(** [s.split(sep)] for a separator of one character: the pieces between
    the separators, empty pieces included; never the empty list. *)
Fixpoint str_split (sep : ascii) (s : string) : list string :=
  match s with
  | EmptyString => [EmptyString]
  | String c rest =>
      if decide (c = sep) then EmptyString :: str_split sep rest
      else match str_split sep rest with
           | piece :: pieces => String c piece :: pieces
           | [] => [String c EmptyString]
           end
  end.

(** ** The decorators of the message handlers ([bot.py], [config.py]) *)

Module Gate.

(** [class UserData]: the fields the decorators read.  A [ban_reason] of
    [None] is the empty text here: the one place that reads it is
    [ban_reason or "No reason provided"], which treats both alike. *)
Record UserData : Type := mkUserData {
  is_vip : bool;
  is_banned : bool;
  ban_reason : string
}.

(** [class RateLimitConfig]: the fields the decorators read. *)
Record RateLimitConfig : Type := mkRateLimitConfig {
  daily_limit : Z;
  concurrent_limit : Z;
  vip_daily_limit : Z;
  vip_concurrent_limit : Z
}.

(** [class TelegramConfig]: [owner_id] and [admin_ids]. *)
Record TelegramConfig : Type := mkTelegramConfig {
  owner_id : Z;
  admin_ids : gset Z
}.

(** [class BotConfig]: the sections and flags the decorators read.  A
    [maintenance_message] of [None] is the empty text, as in
    [maintenance_message or <empty>]. *)
Record BotConfig : Type := mkBotConfig {
  telegram : TelegramConfig;
  rate_limit : RateLimitConfig;
  maintenance_mode : bool;
  maintenance_message : string
}.

(** [is_admin(user_id, config)] *)
Definition is_admin (user_id : Z) (config : BotConfig) : bool :=
  bool_decide (user_id = owner_id (telegram config))
  || bool_decide (user_id ∈ admin_ids (telegram config)).

(** [is_owner(user_id, config)] *)
Definition is_owner (user_id : Z) (config : BotConfig) : bool :=
  bool_decide (user_id = owner_id (telegram config)).

(** A call [message.reply_text(get_text(key, lang_code, ...))]: the key and
    the keyword arguments of the text; the language is the sender's
    [get_user_language]. *)
Record Reply : Type := mkReply {
  reply_key : string;
  reply_kwargs : list (string * Hook.PyVal)
}.

(** The two replies of [rate_limit_check]. *)
Definition rate_limit_reply (daily_limit : Z) : Reply :=
  mkReply "errors.rate_limit"
    [("limit", Hook.PyNum (inject_Z daily_limit));
     ("reset_time", Hook.PyStr "24h")].

Definition concurrent_limit_reply (active_downloads : nat)
    (concurrent_limit : Z) : Reply :=
  mkReply "errors.concurrent_limit"
    [("current", Hook.PyNum (inject_Z (Z.of_nat active_downloads)));
     ("max", Hook.PyNum (inject_Z concurrent_limit))].

(** What a wrapped handler does with a message: it answers with an error
    text and returns, or the handler proper runs. *)
Inductive Outcome (R : Type) : Type :=
  | Replied (reply : Reply)
  | Ran (result : R).
Arguments Replied {R} reply.
Arguments Ran {R} result.

Section Decorators.
Context {Any R : Type}.
(** The configuration, [db.get_user], and the default [window=86400] of
    [check_rate_limit] in ticks. *)
Context (config : BotConfig) (get_user : Z → option UserData) (day : Z).

(** A handler [async def f(client, message)], as a function of the sender
    [message.from_user.id], the clock reading and the state. *)
Definition Handler : Type :=
  Z → Z → BotState Any → BotState Any * Outcome R.

(** The limits [rate_limit_check] picks for a sender: those of a VIP when
    the database knows the sender as one. *)
Definition limits_of (user_id : Z) : Z * Z :=
  match get_user user_id with
  | Some u =>
      if is_vip u
      then (vip_daily_limit (rate_limit config),
            vip_concurrent_limit (rate_limit config))
      else (daily_limit (rate_limit config),
            concurrent_limit (rate_limit config))
  | None => (daily_limit (rate_limit config),
             concurrent_limit (rate_limit config))
  end.

(** [rate_limit_check] *)
Definition rate_limit_check (func : Handler) : Handler :=
  λ user_id current_time st,
    let '(daily_limit, concurrent_limit) := limits_of user_id in
    let '(st1, (allowed, remaining)) :=
      check_rate_limit st user_id daily_limit day current_time in
    if negb allowed then (st1, Replied (rate_limit_reply daily_limit))
    else
      let active_downloads := get_user_download_count st1 user_id in
      if decide (concurrent_limit ≤ Z.of_nat active_downloads) then
        (st1, Replied (concurrent_limit_reply active_downloads
                         concurrent_limit))
      else func user_id current_time st1.

(** [admin_only] *)
Definition admin_only (func : Handler) : Handler :=
  λ user_id current_time st,
    if negb (is_admin user_id config)
    then (st, Replied (mkReply "errors.not_admin" []))
    else func user_id current_time st.

(** [owner_only] *)
Definition owner_only (func : Handler) : Handler :=
  λ user_id current_time st,
    if negb (is_owner user_id config)
    then (st, Replied (mkReply "errors.not_owner" []))
    else func user_id current_time st.

(** [check_banned] *)
Definition check_banned (func : Handler) : Handler :=
  λ user_id current_time st,
    match get_user user_id with
    | Some u =>
        if is_banned u then
          (st, Replied (mkReply "errors.banned"
                          [("reason",
                            Hook.PyStr (if decide (ban_reason u = EmptyString)
                                        then "No reason provided"
                                        else ban_reason u))]))
        else func user_id current_time st
    | None => func user_id current_time st
    end.

(** [maintenance_check] *)
Definition maintenance_check (func : Handler) : Handler :=
  λ user_id current_time st,
    if maintenance_mode config then
      if is_owner user_id config then func user_id current_time st
      else (st, Replied (mkReply "errors.maintenance"
                           [("message",
                             Hook.PyStr (maintenance_message config))]))
    else func user_id current_time st.

(** The decorators of [url_handler], outermost first. *)
Definition url_handler_gate (url_handler : Handler) : Handler :=
  maintenance_check (check_banned (rate_limit_check url_handler)).

(** Messages of one sender handled one after the other: the final state
    and the outcomes. *)
Fixpoint run_messages (h : Handler) (user_id : Z) (times : list Z)
    (st : BotState Any) : BotState Any * list (Outcome R) :=
  match times with
  | [] => (st, [])
  | t :: rest =>
      let r := h user_id t st in
      let rs := run_messages h user_id rest r.1 in
      (rs.1, r.2 :: rs.2)
  end.

End Decorators.

(** A configuration for concrete runs: three messages a day, one download
    at a time. *)
Definition example_config : BotConfig :=
  {| telegram := {| owner_id := 1; admin_ids := {[ 2 ]} |};
     rate_limit := {| daily_limit := 3; concurrent_limit := 1;
                      vip_daily_limit := 200; vip_concurrent_limit := 10 |};
     maintenance_mode := false; maintenance_message := EmptyString |}.

End Gate.

(** ** The callback of the cancel button ([handle_cancel_callback]) *)

Module Callbacks.

(** What the handler does on the chat client. *)
Inductive Effect : Type :=
  | CallbackAnswer (key : string) (show_alert : bool)
  | MessageEditText (key : string).

Section Handlers.
Context {Any : Type}.


End Handlers.

End Callbacks.

(** ** Runs of the progress tracker *)

Module TrackerRuns.
Import Tracker.

Section Runs.
Context `{Localization}.

(** The clock readings of the calls of a run whose edit was delivered. *)
Fixpoint delivery_times (tr : ProgressTracker) (calls : list UpdateCall)
    : list Z :=
  match calls with
  | [] => []
  | c :: rest =>
      let r := update tr (uc_args c) (uc_time c) (uc_answer c) in
      (if decide (delivered r.2 (uc_answer c) = []) then [] else [uc_time c])
      ++ delivery_times r.1 rest
  end.

End Runs.

(** Consecutive readings are at least [d] apart. *)
Fixpoint spaced (d : Z) (l : list Z) : Prop :=
  match l with
  | a :: (b :: _) as rest => d ≤ b - a ∧ spaced d rest
  | _ => True
  end.

(** The statuses whose message shows the numbers. *)
Definition shows_numbers (s : DownloadStatus) : bool :=
  match s with
  | DOWNLOADING | UPLOADING => true
  | _ => false
  end.

End TrackerRuns.

(** ** Text helpers ([languages/utils.py]) *)

Module Utils.

(** A Python [str] is the sequence of its code points.  Language codes,
    which are only compared with ASCII literals, stay of type [string]. *)
Definition str : Type := list N.

(** An ASCII literal as a [str]. *)
Definition lit (s : string) : str :=
  N_of_ascii <$> String.list_ascii_of_string s.

(** "۰۱۲۳۴۵۶۷۸۹" (U+06F0 to U+06F9) *)
Definition PERSIAN_DIGITS : str :=
  [1776; 1777; 1778; 1779; 1780; 1781; 1782; 1783; 1784; 1785]%N.

(** "٠١٢٣٤٥٦٧٨٩" (U+0660 to U+0669) *)
Definition ARABIC_DIGITS : str :=
  [1632; 1633; 1634; 1635; 1636; 1637; 1638; 1639; 1640; 1641]%N.

(** "0123456789" *)
Definition ENGLISH_DIGITS : str :=
  [48; 49; 50; 51; 52; 53; 54; 55; 56; 57]%N.

(** [s.replace(old, new)] for a pattern [old] of one character: every
    occurrence is replaced, and the replacement is not scanned again. *)
Definition replace (s : str) (old : N) (new : str) : str :=
  s ≫= λ c, if decide (c = old) then new else [c].

(** [enumerate(s)] *)
Definition enumerate {A : Type} (l : list A) : list (nat * A) :=
  zip (seq 0 (length l)) l.

(** [to_persian_digits] *)
Definition to_persian_digits (text : str) : str :=
  let result := text in
  let result :=
    foldl (λ result '(i, digit), replace result digit [PERSIAN_DIGITS !!! i])
          result (enumerate ENGLISH_DIGITS) in
  let result :=
    foldl (λ result '(i, digit), replace result digit [PERSIAN_DIGITS !!! i])
          result (enumerate ARABIC_DIGITS) in
  result.

(** [to_english_digits] *)
Definition to_english_digits (text : str) : str :=
  let result := text in
  let result :=
    foldl (λ result '(i, digit), replace result digit [ENGLISH_DIGITS !!! i])
          result (enumerate PERSIAN_DIGITS) in
  let result :=
    foldl (λ result '(i, digit), replace result digit [ENGLISH_DIGITS !!! i])
          result (enumerate ARABIC_DIGITS) in
  result.

(** The digit of the Persian block for a Western or Arabic-Indic digit,
    and the Western digit for a Persian or Arabic-Indic one; any other
    character is itself. *)
Definition persian_digit_of (c : N) : N :=
  if decide (48 ≤ c ≤ 57)%N then (c + 1728)%N
  else if decide (1632 ≤ c ≤ 1641)%N then (c + 144)%N
  else c.

Definition english_digit_of (c : N) : N :=
  if decide (1776 ≤ c ≤ 1785)%N then (c - 1728)%N
  else if decide (1632 ≤ c ≤ 1641)%N then (c - 1584)%N
  else c.

(** The characters [escape_markdown] escapes:
    _ * [ ] ( ) ~ ` > # + - = | { } . ! *)
Definition special_chars : list N :=
  [95; 42; 91; 93; 40; 41; 126; 96; 62; 35; 43; 45; 61; 124; 123; 125; 46;
   33]%N.

(** [escape_markdown]: each special character in turn is replaced by a
    backslash (code point 92) followed by itself. *)
Definition escape_markdown (text : str) : str :=
  foldl (λ result char, replace result char [92%N; char]) text special_chars.

(** A character behind a backslash when it is special, as it is
    otherwise. *)
Definition escaped (c : N) : str :=
  if decide (c ∈ special_chars) then [92%N; c] else [c].

(** [s[:stop]]: a negative [stop] counts from the end. *)
Definition slice_to {A : Type} (s : list A) (stop : Z) : list A :=
  take (Z.to_nat (if decide (stop < 0) then Z.of_nat (length s) + stop
                  else stop)) s.

(** [truncate_text] *)
Definition truncate_text (text : str) (max_length : Z) (suffix : str) : str :=
  if decide (Z.of_nat (length text) ≤ max_length) then text
  else slice_to text (max_length - Z.of_nat (length suffix)) ++ suffix.

(** [int(x)]: truncation towards zero. *)
Definition py_int (x : Q) : Z := Qnum x ÷ Zpos (Qden x).

(** [s * n]: [n] copies of [s], none when [n] is not positive. *)
Definition str_mul (s : str) (n : Z) : str :=
  mjoin (replicate (Z.to_nat n) s).

(** [min(a, b)] and [max(a, b)]: the first argument unless the second is
    smaller (larger). *)
Definition py_min (a b : Q) : Q := if Qlt_le_dec b a then b else a.
Definition py_max (a b : Q) : Q := if Qlt_le_dec a b then b else a.

(** "بایت", "کیلوبایت", "مگابایت", "گیگابایت", "ترابایت" *)
Definition units_fa : list str :=
  [[1576; 1575; 1740; 1578];
   [1705; 1740; 1604; 1608; 1576; 1575; 1740; 1578];
   [1605; 1711; 1575; 1576; 1575; 1740; 1578];
   [1711; 1740; 1711; 1575; 1576; 1575; 1740; 1578];
   [1578; 1585; 1575; 1576; 1575; 1740; 1578]]%N.

Definition units_en : list str :=
  [lit "B"; lit "KB"; lit "MB"; lit "GB"; lit "TB"].

(** "نامشخص" *)
Definition unknown_fa : str := [1606; 1575; 1605; 1588; 1582; 1589]%N.

(** The loop [while size >= 1024 and unit_index < len(units) - 1] of
    [format_file_size]; it makes at most [len(units)] rounds, which is what
    [fuel] is given. *)
Fixpoint scale_loop (fuel : nat) (n_units : nat) (size : Q)
    (unit_index : nat) : Q * nat :=
  match fuel with
  | O => (size, unit_index)
  | S fuel =>
      if Qlt_le_dec size 1024 then (size, unit_index)
      else if decide (unit_index < n_units - 1)%nat
           then scale_loop fuel n_units (size / 1024) (S unit_index)
           else (size, unit_index)
  end.


Section Formatting.
(** [format_f n x] stands for the f-string that prints [x] with [n]
    decimal places. *)
Context (format_f : nat → Q → str).
Context `{FloatArith}.

(** [generate_progress_bar]: [length * progress] and [progress * 100] are
    products of floats. *)
Definition generate_progress_bar (progress : Q) (length : Z)
    (filled_char empty_char : str) (show_percentage : bool)
    (lang_code : string) : str :=
  let progress := py_max 0 (py_min 1 progress) in
  let filled_length := py_int (float_mul (inject_Z length) progress) in
  let bar := str_mul filled_char filled_length
             ++ str_mul empty_char (length - filled_length) in
  if show_percentage then
    let percentage := format_f 1 (float_mul progress 100) ++ lit "%" in
    let percentage :=
      if decide (lang_code = "fa") then to_persian_digits percentage
      else percentage in
    bar ++ lit " " ++ percentage
  else bar.

(** [format_file_size] *)
Definition format_file_size (size_bytes : Q) (lang_code : string)
    (decimal_places : nat) : str :=
  if Qlt_le_dec size_bytes 0 then
    if decide (lang_code = "fa") then unknown_fa else lit "Unknown"
  else
    let units := if decide (lang_code = "fa") then units_fa else units_en in
    let '(size, unit_index) :=
      scale_loop (length units) (length units) size_bytes 0 in
    let formatted_size := format_f decimal_places size in
    let formatted_size :=
      if decide (lang_code = "fa") then to_persian_digits formatted_size
      else formatted_size in
    formatted_size ++ lit " " ++ (units !!! unit_index).

(** [format_speed] *)
Definition format_speed (bytes_per_second : Q) (lang_code : string) : str :=
  let size := format_file_size (inject_Z (py_int bytes_per_second))
                lang_code 1 in
  let suffix := if decide (lang_code = "fa") then [47; 1579]%N else lit "/s" in
  size ++ suffix.

End Formatting.

End Utils.

(** ** [format_file_size] of [config.py] *)

Module Config.
Import Utils.

Section Formatting.
Context (format_f : nat → Q → str).

(** The loop [for unit in ["B", "KB", "MB", "GB", "TB"]] and the [return]
    after it. *)
Fixpoint format_file_size_loop (units : list str) (size_bytes : Q) : str :=
  match units with
  | [] => format_f 1 size_bytes ++ lit " PB"
  | unit :: rest =>
      if Qlt_le_dec (Qabs size_bytes) 1024
      then format_f 1 size_bytes ++ lit " " ++ unit
      else format_file_size_loop rest (size_bytes / 1024)
  end.

(** [format_file_size] *)
Definition format_file_size (size_bytes : Q) : str :=
  if Qlt_le_dec size_bytes 0 then lit "Unknown"
  else format_file_size_loop units_en size_bytes.

End Formatting.

End Config.

(** ** The language tables ([languages/__init__.py]) *)

Module Languages.

(** A value of a [STRINGS] dictionary: a text, a nested dictionary, or
    anything else. *)
#[warnings="-register-all"] Inductive Node : Type :=
  | NStr (s : string)
  | NDict (d : gmap string Node)
  | NOther.

Definition DEFAULT_LANGUAGE : string := "fa".
Definition FALLBACK_LANGUAGE : string := "en".

(** The module globals [_loaded_languages] and [_user_languages]. *)
Record LangState : Type := mkLangState {
  _loaded_languages : gmap string (gmap string Node);
  _user_languages : gmap Z string
}.

(** The loop [for k in keys] of [_get_nested_value]. *)
Fixpoint walk (value : Node) (keys : list string) : option Node :=
  match keys with
  | [] => Some value
  | k :: rest =>
      match value with
      | NDict d =>
          match d !! k with
          | Some v => walk v rest
          | None => None
          end
      | _ => None
      end
  end.

(** [_get_nested_value] *)
Definition _get_nested_value (dictionary : gmap string Node) (key : string)
    : option string :=
  let keys := str_split "." key in
  match walk (NDict dictionary) keys with
  | Some (NStr s) => Some s
  | _ => None
  end.

(** The dictionary [get_language] settles on: the one asked for, else the
    one of the fallback language, else the one of the default language,
    else the empty one. *)
Definition chosen (loaded : gmap string (gmap string Node))
    (lang_code : string) : gmap string Node :=
  match loaded !! lang_code with
  | Some d => d
  | None =>
      match loaded !! FALLBACK_LANGUAGE with
      | Some d => d
      | None => default ∅ (loaded !! DEFAULT_LANGUAGE)
      end
  end.

Section WithFiles.
(** The language files: the codes found by [_discover_language_files], in
    sorted order, each with what [_load_language_module] returns for it
    ([None] when the module cannot be loaded).  [str_format text kwargs]
    stands for [text.format] applied to the keyword arguments, [None]
    when it raises. *)
Context (files : list (string * option (gmap string Node))).
Context (str_format : string → list (string * string) → option string).

(** [load_all_languages]: a no-op once something is loaded; a file whose
    dictionary is missing or empty is skipped. *)
Definition load_all_languages (st : LangState)
    : LangState * gmap string (gmap string Node) :=
  if decide (_loaded_languages st ≠ ∅) then (st, _loaded_languages st)
  else
    let loaded :=
      foldl (λ loaded '(code, lang_data),
               match lang_data with
               | Some d => if decide (d ≠ ∅) then <[code := d]> loaded
                           else loaded
               | None => loaded
               end)
            (_loaded_languages st) files in
    (mkLangState loaded (_user_languages st), loaded).

(** The test [if not _loaded_languages: load_all_languages()]. *)
Definition ensure_loaded (st : LangState) : LangState :=
  if decide (_loaded_languages st = ∅) then (load_all_languages st).1 else st.

(** [get_language] *)
Definition get_language (st : LangState) (lang_code : string)
    : LangState * gmap string Node :=
  let st := ensure_loaded st in
  match _loaded_languages st !! lang_code with
  | Some d => (st, d)
  | None =>
      match _loaded_languages st !! FALLBACK_LANGUAGE with
      | Some d => (st, d)
      | None => (st, default ∅ (_loaded_languages st !! DEFAULT_LANGUAGE))
      end
  end.

(** [is_language_available] *)
Definition is_language_available (st : LangState) (lang_code : string)
    : LangState * bool :=
  let st := ensure_loaded st in
  (st, bool_decide (lang_code ∈ dom (_loaded_languages st))).

(** [set_user_language] *)
Definition set_user_language (st : LangState) (user_id : Z)
    (lang_code : string) : LangState * bool :=
  let '(st, available) := is_language_available st lang_code in
  if negb available then (st, false)
  else (mkLangState (_loaded_languages st)
          (<[user_id := lang_code]> (_user_languages st)), true).

(** [get_user_language] *)
Definition get_user_language (st : LangState) (user_id : Z) : string :=
  default DEFAULT_LANGUAGE (_user_languages st !! user_id).

(** [remove_user_language] *)
Definition remove_user_language (st : LangState) (user_id : Z) : LangState :=
  mkLangState (_loaded_languages st) (delete user_id (_user_languages st)).

(** [load_user_languages]: [_user_languages.update(data)] *)
Definition load_user_languages (st : LangState) (data : gmap Z string)
    : LangState :=
  mkLangState (_loaded_languages st) (data ∪ _user_languages st).

(** [get_text]; the warnings it logs are left out. *)
Definition get_text (st : LangState) (key : string)
    (lang_code : option string) (user_id : option Z)
    (kwargs : list (string * string)) : LangState * string :=
  let lang_code :=
    match lang_code with
    | Some l => l
    | None =>
        match user_id with
        | Some u => get_user_language st u
        | None => DEFAULT_LANGUAGE
        end
    end in
  let '(st, lang_dict) := get_language st lang_code in
  let '(st, fallback_dict) :=
    if decide (lang_code ≠ FALLBACK_LANGUAGE)
    then let '(st, d) := get_language st FALLBACK_LANGUAGE in (st, Some d)
    else (st, None) in
  let text := _get_nested_value lang_dict key in
  let text :=
    match text, fallback_dict with
    | None, Some d =>
        if decide (d ≠ ∅) then _get_nested_value d key else None
    | _, _ => text
    end in
  match text with
  | None => (st, "[" +:+ key +:+ "]")
  | Some text =>
      if decide (kwargs ≠ []) then
        match str_format text kwargs with
        | Some formatted => (st, formatted)
        | None => (st, text)
        end
      else (st, text)
  end.

(** The text [get_text] finds for a key, before formatting, and what the
    formatting step makes of a text. *)
Definition found (loaded : gmap string (gmap string Node))
    (lang key : string) : option string :=
  match _get_nested_value (chosen loaded lang) key with
  | Some text => Some text
  | None =>
      if decide (lang ≠ FALLBACK_LANGUAGE)
      then _get_nested_value (chosen loaded FALLBACK_LANGUAGE) key
      else None
  end.

Definition render (kwargs : list (string * string)) (text : string)
    : string :=
  if decide (kwargs ≠ []) then default text (str_format text kwargs)
  else text.

End WithFiles.

End Languages.

(** * Properties *)

(** ** The sliding rate window *)

Section RateWindow.
Context {Any : Type}.
Implicit Types (st : BotState Any) (l acc : list Z).

Lemma check_rate_limit_window st uid limit window now :
  _rate_limits (check_rate_limit st uid limit window now).1 !!! uid
    = (window_step (_rate_limits st !!! uid) limit window now).1
  ∧ (check_rate_limit st uid limit window now).2.1
    = (window_step (_rate_limits st !!! uid) limit window now).2.
Proof.
  unfold check_rate_limit, window_step; simpl.
  rewrite !lookup_total_insert_eq.
  destruct (decide _); simpl; by rewrite !lookup_total_insert_eq.
Qed.

Lemma check_rate_limit_other st uid uid' limit window now :
  uid' ≠ uid →
  _rate_limits (check_rate_limit st uid limit window now).1 !! uid'
    = _rate_limits st !! uid'.
Proof.
  intros Hne. unfold check_rate_limit; simpl.
  destruct (decide _); simpl; by rewrite !lookup_insert_ne.
Qed.

Lemma check_rate_limit_frame st uid limit window now :
  let r := check_rate_limit st uid limit window now in
  _downloads r.1 = _downloads st ∧ _user_downloads r.1 = _user_downloads st
  ∧ _cache r.1 = _cache st.
Proof. unfold check_rate_limit; simpl. by destruct (decide _). Qed.

End RateWindow.

Lemma length_filter_mono {A} (P Q : A → Prop)
    `{∀ x, Decision (P x)} `{∀ x, Decision (Q x)} (l : list A) :
  (∀ x, x ∈ l → P x → Q x) →
  (length (filter P l) ≤ length (filter Q l))%nat.
Proof.
  induction l as [|x l IH]; intros HPQ; [done|].
  rewrite !filter_cons.
  assert (length (filter P l) ≤ length (filter Q l))%nat as Hl.
  { apply IH. intros y Hy. apply HPQ. by right. }
  destruct (decide (P x)) as [HP|HP].
  - rewrite decide_True; [simpl; lia|]. apply HPQ; [by left|done].
  - destruct (decide (Q x)); simpl; lia.
Qed.

Lemma count_above_app c l1 l2 :
  count_above c (l1 ++ l2) = (count_above c l1 + count_above c l2)%nat.
Proof. unfold count_above. by rewrite filter_app, length_app. Qed.

Lemma count_above_filter c c' l :
  c' ≤ c → count_above c (filter (λ t, c' < t) l) = count_above c l.
Proof.
  intros Hc. unfold count_above. induction l as [|x l IH]; [done|].
  rewrite !filter_cons.
  destruct (decide (c' < x)), (decide (c < x)); try lia;
    rewrite ?filter_cons, ?decide_True, ?decide_False by done; simpl;
    by rewrite IH.
Qed.

Section RateBound.
Context {Any : Type}.

Lemma window_step_allowed l limit window now :
  (window_step l limit window now).2 = true →
  (count_above (now - window) l < Z.to_nat limit)%nat
  ∧ (window_step l limit window now).1
    = filter (λ ts, now - window < ts) l ++ [now].
Proof.
  unfold window_step, count_above. destruct (decide _); simpl; [|done].
  intros _. split; [lia|done].
Qed.

Lemma window_step_denied l limit window now :
  (window_step l limit window now).2 = false →
  (window_step l limit window now).1 = filter (λ ts, now - window < ts) l.
Proof. unfold window_step. by destruct (decide _). Qed.

Lemma run_rate_calls_bound (uid limit window : Z) (calls : list RateCall) :
  ∀ (st : BotState Any) (acc : list Z),
    (∀ c, c ∈ calls → rc_user c = uid →
          rc_limit c = limit ∧ rc_window c = window) →
    StronglySorted Z.le (call_times uid calls) →
    (∀ t c, t ∈ call_times uid calls → t - window ≤ c →
            (count_above c acc ≤ count_above c (_rate_limits st !!! uid))%nat) →
    (∀ a, (count_in_span a window acc ≤ Z.to_nat limit)%nat) →
    ∀ a, (count_in_span a window
            (acc ++ allowed_times uid (run_rate_calls st calls))
          ≤ Z.to_nat limit)%nat.
Proof.
  induction calls as [|c rest IH]; intros st acc Hpar Hsorted Hinv Hacc a.
  { simpl. unfold allowed_times. simpl. rewrite app_nil_r. apply Hacc. }
  simpl.
  pose proof (check_rate_limit_window st (rc_user c) (rc_limit c)
                (rc_window c) (rc_time c)) as [Hl Hok].
  set (r := check_rate_limit st (rc_user c) (rc_limit c) (rc_window c)
              (rc_time c)) in *.
  assert (∀ c', c' ∈ rest → rc_user c' = uid →
                rc_limit c' = limit ∧ rc_window c' = window) as Hpar'.
  { intros c' Hc'. apply Hpar. by right. }
  destruct (decide (rc_user c = uid)) as [Hu|Hu].
  - destruct (Hpar c) as [HL HW]; [by left|done|].
    rewrite Hu, HL, HW in Hl, Hok.
    unfold call_times in Hsorted, Hinv.
    rewrite filter_cons, decide_True in Hsorted, Hinv by done.
    rewrite fmap_cons in Hsorted, Hinv.
    apply StronglySorted_inv in Hsorted as [Hsorted Hall].
    set (now := rc_time c) in *.
    set (l := _rate_limits st !!! uid) in *.
    assert (∀ c0, now - window ≤ c0 →
                  (count_above c0 acc ≤ count_above c0 l)%nat) as Hnow.
    { intros c0 Hc0. apply (Hinv now); [by left|done]. }
    assert (∀ t, t ∈ rc_time <$> filter (λ c0, rc_user c0 = uid) rest →
                 now ≤ t) as Hlater.
    { intros t Ht. rewrite Forall_forall in Hall. by apply Hall. }
    destruct (r.2.1) eqn:Hallowed.
    + symmetry in Hok. apply window_step_allowed in Hok as [Hcount Hnew].
      rewrite Hnew in Hl.
      unfold allowed_times. rewrite filter_cons, decide_True by done.
      rewrite fmap_cons. simpl.
      rewrite (cons_middle now), app_assoc.
      apply IH; [done|done| |].
      * intros t c0 Ht Hc0. rewrite Hl, !count_above_app.
        rewrite count_above_filter by (specialize (Hlater t Ht); lia).
        specialize (Hnow c0). specialize (Hlater t Ht).
        assert (count_above c0 acc ≤ count_above c0 l)%nat by (apply Hnow; lia).
        lia.
      * intros a'. unfold count_in_span. rewrite filter_app, length_app.
        rewrite filter_cons, filter_nil.
        destruct (decide (a' ≤ now < a' + window)) as [Hin|Hout]; simpl.
        -- assert (count_in_span a' window acc
                   ≤ count_above (now - window) acc)%nat as H1.
           { apply length_filter_mono. intros x _ Hx. lia. }
           unfold count_in_span in H1.
           specialize (Hnow (now - window)).
           assert (count_above (now - window) acc
                   ≤ count_above (now - window) l)%nat by (apply Hnow; lia).
           lia.
        -- specialize (Hacc a'). unfold count_in_span in Hacc. lia.
    + symmetry in Hok. apply window_step_denied in Hok.
      rewrite Hok in Hl.
      unfold allowed_times. rewrite filter_cons, decide_False
        by (simpl; intros [? _]; congruence).
      apply IH; [done|done| |done].
      intros t c0 Ht Hc0. rewrite Hl.
      rewrite count_above_filter by (specialize (Hlater t Ht); lia).
      apply Hnow. specialize (Hlater t Ht). lia.
  - unfold call_times in Hsorted, Hinv.
    rewrite filter_cons, decide_False in Hsorted, Hinv by done.
    unfold allowed_times. rewrite filter_cons, decide_False
      by (simpl; intros [_ ?]; congruence).
    apply IH; [done|done| |done].
    intros t c0 Ht Hc0.
    assert (_rate_limits r.1 !!! uid = _rate_limits st !!! uid) as ->.
    { rewrite !lookup_total_alt. unfold r.
      by rewrite check_rate_limit_other. }
    by apply (Hinv t).
Qed.

End RateBound.


(** Scenario of the specification: with a limit of five, five calls pass
    with 4, 3, 2, 1, 0 remaining and a sixth call in the same window is
    turned down with [(False, 0)], leaving the list as it was. *)
Example check_rate_limit_sixth_call :
  let step (st : BotState unit) (now : Z) :=
    (check_rate_limit st 42 5 86400 now).1 in
  let st5 := foldl step BotState_init [10; 20; 30; 40; 50] in
  (check_rate_limit (step BotState_init 10) 42 5 86400 20).2 = (true, 3)
  ∧ (check_rate_limit st5 42 5 86400 60).2 = (false, 0)
  ∧ _rate_limits (check_rate_limit st5 42 5 86400 60).1 !!! 42
    = [10; 20; 30; 40; 50].
Proof. by vm_compute. Qed.

(** C2, amended.  Fix a user, a limit and a window.  For calls whose clock
    readings never decrease along the sequence (calls of other users may be
    interleaved freely), and from any starting state, every span
    [a <= t < a + window] contains at most [limit] allowed calls of that
    user (none when [limit] is negative). *)
Theorem rate_limit_sliding_window {Any : Type} (st : BotState Any)
    (uid limit window : Z) (calls : list RateCall) (a : Z) :
  Forall (λ c, rc_user c = uid →
               rc_limit c = limit ∧ rc_window c = window) calls →
  StronglySorted Z.le (call_times uid calls) →
  Z.of_nat (allowed_in_span uid a window (run_rate_calls st calls))
    ≤ Z.max 0 limit.
Proof.
  intros Hpar Hsorted.
  pose proof (run_rate_calls_bound uid limit window calls st []) as Hb.
  simpl in Hb. unfold allowed_in_span.
  assert (count_in_span a window (allowed_times uid (run_rate_calls st calls))
          ≤ Z.to_nat limit)%nat; [|lia].
  apply Hb.
  - intros c Hc. rewrite Forall_forall in Hpar. by apply Hpar.
  - done.
  - intros t c _ _. unfold count_above. simpl. lia.
  - intros a'. unfold count_in_span. simpl. lia.
Qed.

Lemma rate_limit_sliding_window_witness :
  let calls := [mkRateCall 7 2 10 100; mkRateCall 7 2 10 105;
                mkRateCall 8 1 10 106; mkRateCall 7 2 10 107;
                mkRateCall 7 2 10 110; mkRateCall 7 2 10 111] in
  run_rate_calls (@BotState_init unit) calls
    = zip calls [true; true; true; false; true; false]
  ∧ Z.of_nat (allowed_in_span 7 100 10
                (run_rate_calls (@BotState_init unit) calls)) ≤ Z.max 0 2.
Proof.
  split; [by vm_compute|].
  apply (rate_limit_sliding_window (@BotState_init unit) 7 2 10).
  - repeat constructor; done.
  - change (StronglySorted Z.le [100; 105; 107; 110; 111]).
    repeat constructor; lia.
Defined.

(** C2 as stated fails in two ways.  (1) Readings in arbitrary order:
    [time.time()] is the wall clock, and when it is set back between calls
    (200, then 101) the entries of the span are gone from the list, so a
    third call of the span [100, 110) passes although the limit is two.
    (2) Spans with both ends: an entry exactly [window] old is dropped by
    [ts > cutoff_time], so with a limit of one and a window of ten the calls
    at 100 and 110 both pass, ten seconds apart. *)
Lemma rate_window_exceeded :
  let set_back := [mkRateCall 7 2 10 100; mkRateCall 7 2 10 105;
                   mkRateCall 7 2 10 200; mkRateCall 7 2 10 101] in
  let on_edge := [mkRateCall 7 1 10 100; mkRateCall 7 1 10 110] in
  let log1 := run_rate_calls (@BotState_init unit) set_back in
  let log2 := run_rate_calls (@BotState_init unit) on_edge in
  (log1 = zip set_back [true; true; true; true]
   ∧ allowed_in_span 7 100 10 log1 = 3%nat)
  ∧ (log2 = zip on_edge [true; true]
     ∧ length (filter (λ t, 100 ≤ t ≤ 100 + 10) (allowed_times 7 log2))
       = 2%nat
     ∧ allowed_in_span 7 100 10 log2 = 1%nat
     ∧ allowed_in_span 7 101 10 log2 = 1%nat).
Proof. by vm_compute. Qed.

(** ** The task registry *)

Section Registry.
Context {Any : Type}.
Implicit Types (st : BotState Any) (d : gmap string DownloadTask).

Lemma user_downloads_total st uid :
  _user_downloads st !!! uid = user_task_ids st uid.
Proof. unfold user_task_ids. by rewrite lookup_total_alt. Qed.

Lemma user_task_ids_insert st (ud : gmap Z (gset string)) u S uid :
  user_task_ids (with_user_downloads st (<[u := S]> ud)) uid
    = if decide (uid = u) then S else default ∅ (ud !! uid).
Proof.
  unfold user_task_ids; simpl. destruct (decide (uid = u)) as [->|Hne].
  - by rewrite lookup_insert_eq.
  - by rewrite lookup_insert_ne.
Qed.

(** *** [add_download] *)

Lemma add_download_downloads st task :
  _downloads (add_download st task) = <[task_id task := task]> (_downloads st).
Proof. done. Qed.

Lemma add_download_index st task uid :
  user_task_ids (add_download st task) uid
    = if decide (uid = user_id task)
      then user_task_ids st (user_id task) ∪ {[task_id task]}
      else user_task_ids st uid.
Proof.
  unfold add_download. rewrite user_task_ids_insert. simpl.
  by rewrite user_downloads_total.
Qed.

(** *** [remove_download] *)

Lemma remove_download_absent st tid :
  _downloads st !! tid = None → remove_download st tid = st.
Proof. intros Hn. unfold remove_download. by rewrite Hn. Qed.

Lemma remove_download_downloads st tid :
  _downloads (remove_download st tid) = delete tid (_downloads st).
Proof.
  unfold remove_download. destruct (_downloads st !! tid) eqn:Hd; simpl.
  - done.
  - by rewrite delete_id.
Qed.

Lemma remove_download_index st tid task uid :
  _downloads st !! tid = Some task →
  user_task_ids (remove_download st tid) uid
    = if decide (uid = user_id task)
      then user_task_ids st (user_id task) ∖ {[tid]}
      else user_task_ids st uid.
Proof.
  intros Hd. unfold remove_download. rewrite Hd.
  change (user_task_ids (with_downloads ?s ?m) uid)
    with (user_task_ids s uid).
  rewrite user_task_ids_insert. by rewrite user_downloads_total.
Qed.

(** *** [cancel_user_downloads] *)

Lemma set_cancelled_idemp t : set_cancelled (set_cancelled t) = set_cancelled t.
Proof. done. Qed.

(** Case analysis on every membership test in the goal. *)
Local Ltac case_membership :=
  repeat destruct (decide _); try done; set_solver.

Lemma cancel_loop_lookup ids : ∀ d n tid,
  (cancel_loop ids d n).1 !! tid
    = (λ t, if decide (tid ∈ ids) then set_cancelled t else t) <$> d !! tid.
Proof.
  induction ids as [|k ids IH]; intros d n tid.
  { simpl. by destruct (d !! tid). }
  cbn [cancel_loop].
  destruct (d !! k) as [task|] eqn:Hk; rewrite IH.
  - destruct (decide (tid = k)) as [->|Hne].
    + rewrite lookup_insert_eq, Hk. simpl.
      case_membership.
    + rewrite lookup_insert_ne by done.
      destruct (d !! tid); simpl; [|done].
      case_membership.
  - destruct (decide (tid = k)) as [->|Hne]; [by rewrite Hk|].
    destruct (d !! tid); simpl; [|done].
    case_membership.
Qed.

Lemma omap_cons_case {A B} (f : A → option B) (x : A) (l : list A) :
  omap f (x :: l)
    = match f x with Some y => y :: omap f l | None => omap f l end.
Proof. done. Qed.

Lemma length_omap_insert d k task task' ids :
  d !! k = Some task →
  length (omap (λ tid, <[k:=task']> d !! tid) ids)
    = length (omap (λ tid, d !! tid) ids).
Proof.
  intros Hk. induction ids as [|j ids IH]; [done|].
  rewrite !omap_cons_case. destruct (decide (j = k)) as [->|Hne].
  - rewrite lookup_insert_eq, Hk. cbn [length]. by rewrite IH.
  - rewrite lookup_insert_ne by done.
    destruct (d !! j); cbn [length]; by rewrite IH.
Qed.

Lemma cancel_loop_count ids : ∀ d n,
  (cancel_loop ids d n).2
    = (n + length (omap (λ tid, d !! tid) ids))%nat.
Proof.
  induction ids as [|k ids IH]; intros d n; [simpl; lia|].
  cbn [cancel_loop]. rewrite omap_cons_case.
  destruct (d !! k) as [task|] eqn:Hk; rewrite IH; [|done].
  rewrite (length_omap_insert d k task) by done. cbn [length]. lia.
Qed.

Lemma omap_fmap_lookup {A B C} (f : A → option B) (g : B → C)
    (h : A → option C) (l : list A) :
  (∀ x, x ∈ l → h x = g <$> f x) → omap h l = g <$> omap f l.
Proof.
  induction l as [|x l IH]; intros Hh; [done|].
  rewrite !omap_cons_case, Hh by set_solver.
  assert (omap h l = g <$> omap f l) as Hl.
  { apply IH. intros y Hy. apply Hh. set_solver. }
  destruct (f x); simpl; by rewrite Hl.
Qed.

(** What [cancel_user_downloads] does in any state, in terms of the index:
    the tasks listed under the user get the flag, the counter is the number
    of listed IDs that are live, and nothing else changes. *)
Lemma cancel_user_downloads_index st uid :
  let r := cancel_user_downloads st uid in
  (∀ tid, _downloads r.1 !! tid
          = (λ t, if decide (tid ∈ user_task_ids st uid)
                  then set_cancelled t else t) <$> _downloads st !! tid)
  ∧ r.2 = length (get_user_downloads st uid)
  ∧ _user_downloads r.1 = _user_downloads st
  ∧ _cache r.1 = _cache st
  ∧ _rate_limits r.1 = _rate_limits st
  ∧ get_user_downloads r.1 uid = set_cancelled <$> get_user_downloads st uid.
Proof.
  unfold cancel_user_downloads.
  pose proof (cancel_loop_lookup (elements (user_task_ids st uid))
                (_downloads st) 0%nat) as Hl.
  pose proof (cancel_loop_count (elements (user_task_ids st uid))
                (_downloads st) 0%nat) as Hc.
  destruct (cancel_loop _ _ _) as [d n]; simpl in *.
  assert (∀ tid, d !! tid
          = (λ t, if decide (tid ∈ user_task_ids st uid)
                  then set_cancelled t else t) <$> _downloads st !! tid) as Hd.
  { intros tid. rewrite Hl. destruct (_downloads st !! tid); simpl; [|done].
    case_membership. }
  repeat split; try done.
  unfold get_user_downloads, user_task_ids; simpl.
  apply omap_fmap_lookup. intros tid Htid. rewrite Hd.
  apply elem_of_elements in Htid.
  destruct (_downloads st !! tid); simpl; [|done].
  case_decide; [done|set_solver].
Qed.

End Registry.

Section RegistryInvariant.
Context {Any : Type}.
Implicit Types (st : BotState Any).

Lemma registry_consistent_init : registry_consistent (@BotState_init Any).
Proof.
  intros tid uid. unfold user_task_ids; simpl. rewrite lookup_empty; simpl.
  split; [set_solver|]. intros (t & Ht & _). by rewrite lookup_empty in Ht.
Qed.

Lemma add_download_consistent st task :
  registry_consistent st → no_foreign_collision st task →
  registry_consistent (add_download st task).
Proof.
  unfold registry_consistent. intros Hc Hfresh tid uid.
  rewrite add_download_index, add_download_downloads.
  destruct (decide (tid = task_id task)) as [->|Hne].
  - rewrite lookup_insert_eq. destruct (decide (uid = user_id task)) as [->|Hu].
    + split; [by eauto|set_solver].
    + rewrite Hc. split.
      * intros (old & Hold & Hown). apply Hfresh in Hold. congruence.
      * intros (t & [= <-] & Hown). congruence.
  - rewrite lookup_insert_ne by done. rewrite <- Hc.
    destruct (decide (uid = user_id task)) as [->|Hu]; set_solver.
Qed.

Lemma remove_download_consistent st tid :
  registry_consistent st → registry_consistent (remove_download st tid).
Proof.
  unfold registry_consistent.
  intros Hc. destruct (_downloads st !! tid) as [task|] eqn:Hd.
  2: by rewrite remove_download_absent.
  intros tid' uid.
  rewrite (remove_download_index _ _ task), remove_download_downloads by done.
  destruct (decide (tid' = tid)) as [->|Hne].
  - rewrite lookup_delete_eq. split; [|by intros (? & [=] & _)].
    destruct (decide (uid = user_id task)) as [->|Hu]; [set_solver|].
    rewrite Hc. intros (t & Ht & Hown). congruence.
  - rewrite lookup_delete_ne by done. rewrite <- Hc.
    destruct (decide (uid = user_id task)) as [->|Hu]; set_solver.
Qed.

Lemma cancel_user_downloads_consistent st uid :
  registry_consistent st →
  registry_consistent (cancel_user_downloads st uid).1.
Proof.
  unfold registry_consistent. intros Hc tid u.
  destruct (cancel_user_downloads_index st uid) as (Hd & _ & Hud & _).
  unfold user_task_ids in *. rewrite Hud, Hd. rewrite (Hc tid u).
  destruct (_downloads st !! tid) as [t|]; simpl.
  - split; intros (t' & [= <-] & Hown); eexists; (split; [done|]);
      by destruct (decide _).
  - split; by intros (? & [=] & _).
Qed.

Lemma run_registry_ops_consistent ops : ∀ st,
  registry_consistent st → adds_without_collision st ops →
  registry_consistent (run_registry_ops st ops).
Proof.
  induction ops as [|op ops IH]; intros st Hc Hops; [done|].
  destruct Hops as [Hop Hops]. apply IH; [|done].
  destruct op as [task|tid|uid]; simpl.
  - by apply add_download_consistent.
  - by apply remove_download_consistent.
  - by apply cancel_user_downloads_consistent.
Qed.

Lemma run_registry_ops_owner_listed ops : ∀ st,
  owner_listed st → owner_listed (run_registry_ops st ops).
Proof.
  induction ops as [|op ops IH]; intros st Hc; [done|].
  apply IH. destruct op as [task|tid|uid]; simpl; intros tid' t'.
  - rewrite add_download_index, add_download_downloads.
    destruct (decide (tid' = task_id task)) as [->|Hne].
    + rewrite lookup_insert_eq. intros [= <-].
      rewrite decide_True by done. set_solver.
    + rewrite lookup_insert_ne by done. intros Ht'. apply Hc in Ht'.
      destruct (decide _) as [Heq|]; [rewrite <- Heq|]; set_solver.
  - destruct (_downloads st !! tid) as [task|] eqn:Hd.
    2: { rewrite remove_download_absent by done. apply Hc. }
    rewrite (remove_download_index _ _ task), remove_download_downloads
      by done.
    destruct (decide (tid' = tid)) as [->|Hne].
    + by rewrite lookup_delete_eq.
    + rewrite lookup_delete_ne by done. intros Ht'. apply Hc in Ht'.
      destruct (decide _) as [Heq|]; [rewrite <- Heq|]; set_solver.
  - destruct (cancel_user_downloads_index st uid) as (Hd & _ & Hud & _).
    unfold user_task_ids in *. rewrite Hud, Hd.
    destruct (_downloads st !! tid') as [t|] eqn:Ht; simpl; [|done].
    intros [= <-]. apply Hc in Ht. by destruct (decide _).
Qed.

End RegistryInvariant.

Section RegistryClaims.
Context {Any : Type}.
Implicit Types (st : BotState Any).

Lemma length_omap_all_some {A B} (f : A → option B) (l : list A) :
  (∀ x, x ∈ l → is_Some (f x)) → length (omap f l) = length l.
Proof.
  induction l as [|x l IH]; intros Hf; [done|].
  rewrite omap_cons_case. destruct (Hf x) as [y ->]; [set_solver|].
  cbn [length]. rewrite IH; [done|]. intros z Hz. apply Hf. set_solver.
Qed.

Lemma consistent_index_dom st uid :
  registry_consistent st → user_task_ids st uid = dom (owned_tasks st uid).
Proof.
  intros Hc. apply set_eq. intros tid. rewrite (Hc tid uid), elem_of_dom.
  unfold owned_tasks. split.
  - intros (t & Ht & Hown). exists t. by apply map_lookup_filter_Some.
  - intros [t Ht]. apply map_lookup_filter_Some in Ht as [Ht Hown]. eauto.
Qed.

Lemma consistent_list_length st uid :
  registry_consistent st →
  length (get_user_downloads st uid) = size (owned_tasks st uid).
Proof.
  intros Hc. unfold get_user_downloads.
  rewrite length_omap_all_some.
  - rewrite <- size_dom, <- consistent_index_dom by done. done.
  - intros tid Htid. apply elem_of_elements, (Hc tid uid) in Htid.
    destruct Htid as (t & -> & _). by eexists.
Qed.

Lemma consistent_list_owned st uid t :
  registry_consistent st →
  t ∈ get_user_downloads st uid ↔
  ∃ tid, _downloads st !! tid = Some t ∧ user_id t = uid.
Proof.
  intros Hc. unfold get_user_downloads. rewrite list_elem_of_omap. split.
  - intros (tid & Htid & Ht). exists tid. split; [done|].
    apply elem_of_elements, (Hc tid uid) in Htid.
    destruct Htid as (t' & Ht' & Hown). congruence.
  - intros (tid & Ht & Hown). exists tid. split; [|done].
    apply elem_of_elements, (Hc tid uid). eauto.
Qed.

Lemma cancel_user_downloads_dom st uid :
  dom (_downloads (cancel_user_downloads st uid).1) = dom (_downloads st).
Proof.
  destruct (cancel_user_downloads_index st uid) as (Hd & _).
  apply set_eq. intros tid. rewrite !elem_of_dom, Hd.
  by rewrite fmap_is_Some.
Qed.

End RegistryClaims.

(** C4 as stated fails in a state whose index is stale.  After "a" was
    added for user 1 and again for user 2, user 1 owns no task, yet
    [cancel_user_downloads 1] returns 1 and sets the flag on the task of
    user 2. *)
Lemma cancel_user_downloads_stale_index :
  let t1 := new_task "a" 1 10 100 "https://x/first" in
  let t2 := new_task "a" 2 20 200 "https://x/second" in
  let st : BotState unit :=
    run_registry_ops BotState_init [OpAdd t1; OpAdd t2] in
  let r := cancel_user_downloads st 1 in
  size (owned_tasks st 1) = 0%nat
  ∧ r.2 = 1%nat
  ∧ _downloads st !! "a" = Some t2
  ∧ user_id t2 = 2
  ∧ _downloads r.1 !! "a" = Some (set_cancelled t2)
  ∧ set_cancelled t2 ≠ t2.
Proof. by vm_compute. Qed.

(** C4, amended.  In a state whose index agrees with ownership,
    [cancel_user_downloads uid] sets [cancelled] on every task owned by
    [uid] and on no other task, returns the number of tasks owned by [uid],
    removes no task and leaves the index alone; [get_user_downloads uid]
    called next returns the same tasks in the same order, each with
    [cancelled = True]. *)
Theorem cancel_user_downloads_spec {Any : Type} (st : BotState Any)
    (uid : Z) :
  registry_consistent st →
  let r := cancel_user_downloads st uid in
  _downloads r.1
    = (λ t, if decide (user_id t = uid) then set_cancelled t else t)
        <$> _downloads st
  ∧ r.2 = size (owned_tasks st uid)
  ∧ dom (_downloads r.1) = dom (_downloads st)
  ∧ _user_downloads r.1 = _user_downloads st
  ∧ get_user_downloads r.1 uid = set_cancelled <$> get_user_downloads st uid
  ∧ (∀ t, t ∈ get_user_downloads st uid ↔
          ∃ tid, _downloads st !! tid = Some t ∧ user_id t = uid)
  ∧ Forall (λ t, cancelled t = true ∧ user_id t = uid)
           (get_user_downloads r.1 uid)
  ∧ (∀ tid t, _downloads st !! tid = Some t → user_id t ≠ uid →
              _downloads r.1 !! tid = Some t)
  ∧ (∀ tid t, _downloads r.1 !! tid = Some t → user_id t = uid →
              cancelled t = true).
Proof.
  intros Hc r.
  destruct (cancel_user_downloads_index st uid)
    as (Hd & Hn & Hud & _ & _ & Hlist).
  fold r in Hd, Hn, Hud, Hlist.
  assert (_downloads r.1
          = (λ t, if decide (user_id t = uid) then set_cancelled t else t)
              <$> _downloads st) as Hmap.
  { apply map_eq. intros tid. rewrite Hd, lookup_fmap.
    destruct (_downloads st !! tid) as [t|] eqn:Ht; simpl; [|done].
    f_equal. pose proof (Hc tid uid) as Hiff.
    destruct (decide (tid ∈ _)) as [Hin|Hout], (decide (user_id t = uid))
      as [Hown|Hother]; try done.
    - apply Hiff in Hin as (t' & Ht' & Hown). congruence.
    - destruct Hout. apply Hiff. eauto. }
  split; [done|].
  split; [by rewrite Hn, consistent_list_length|].
  split; [by rewrite Hmap, dom_fmap_L|].
  split; [done|].
  split; [done|].
  split; [intros t; by apply consistent_list_owned|].
  split.
  { rewrite Hlist. apply Forall_forall. intros t Ht.
    apply list_elem_of_fmap in Ht as (t0 & -> & Ht0).
    apply consistent_list_owned in Ht0 as (tid & _ & Hown); done. }
  split.
  - intros tid t Ht Hown. rewrite Hmap, lookup_fmap, Ht. simpl.
    by rewrite decide_False.
  - intros tid t Ht Hown. rewrite Hmap, lookup_fmap in Ht.
    destruct (_downloads st !! tid) as [t0|]; simpl in Ht; [|done].
    injection Ht as <-. by destruct (decide _).
Qed.

Lemma cancel_user_downloads_spec_witness :
  let st : BotState unit :=
    run_registry_ops BotState_init
      [OpAdd (new_task "a" 1 10 100 "https://x/a");
       OpAdd (new_task "b" 2 20 200 "https://x/b");
       OpAdd (new_task "c" 1 10 101 "https://x/c")] in
  registry_consistent st
  ∧ (cancel_user_downloads st 1).2 = 2%nat
  ∧ get_user_downloads (cancel_user_downloads st 1).1 1
    = set_cancelled <$> get_user_downloads st 1
  ∧ _downloads (cancel_user_downloads st 1).1 !! "b"
    = Some (new_task "b" 2 20 200 "https://x/b").
Proof.
  intros st.
  assert (registry_consistent st) as Hc.
  { apply run_registry_ops_consistent; [apply registry_consistent_init|].
    repeat split; intros old Hold; vm_compute in Hold; by simplify_eq. }
  split; [done|].
  destruct (cancel_user_downloads_spec st 1 Hc)
    as (_ & Hn & _ & _ & Hl & _ & _ & Hother & _).
  split; [by rewrite Hn|]. split; [done|].
  by apply Hother.
Defined.

(** C3 as stated fails: [add_download] has no test for a live ID.  Adding a
    task under the live ID "a" returns normally and the registry holds the
    new task in place of the old one. *)
Lemma add_download_duplicate_replaces :
  let old := new_task "a" 1 10 100 "https://x/first" in
  let dup := new_task "a" 1 10 101 "https://x/second" in
  let st : BotState unit := add_download BotState_init old in
  _downloads st !! "a" = Some old
  ∧ _downloads (add_download st dup) !! "a" = Some dup
  ∧ add_download st dup ≠ st.
Proof.
  intros old dup st. split; [done|]. split; [done|].
  intros Heq. apply (f_equal (λ s, _downloads s !! "a")) in Heq.
  vm_compute in Heq. discriminate.
Qed.

(** C3, amended.  Adding a task whose ID is already live never fails: the
    new task replaces the stored one under that ID, the ID is listed under
    the new task's owner, and every other entry of the primary map, the
    index of every other user, the set of live IDs, the cache and the rate
    windows stay as they were. *)
Theorem add_download_duplicate_overwrites {Any : Type} (st : BotState Any)
    (task old : DownloadTask) :
  _downloads st !! task_id task = Some old →
  let st' := add_download st task in
  _downloads st' !! task_id task = Some task
  ∧ (∀ tid, tid ≠ task_id task → _downloads st' !! tid = _downloads st !! tid)
  ∧ dom (_downloads st') = dom (_downloads st)
  ∧ get_global_download_count st' = get_global_download_count st
  ∧ user_task_ids st' (user_id task)
    = user_task_ids st (user_id task) ∪ {[task_id task]}
  ∧ (∀ uid, uid ≠ user_id task → user_task_ids st' uid = user_task_ids st uid)
  ∧ _cache st' = _cache st
  ∧ _rate_limits st' = _rate_limits st.
Proof.
  intros Hold st'.
  assert (dom (_downloads st') = dom (_downloads st)) as Hdom.
  { subst st'. rewrite add_download_downloads, dom_insert_L.
    apply elem_of_dom_2 in Hold. set_solver. }
  split; [subst st'; by rewrite add_download_downloads, lookup_insert_eq|].
  split.
  { intros tid Hne. subst st'.
    by rewrite add_download_downloads, lookup_insert_ne. }
  split; [done|].
  split.
  { unfold get_global_download_count. by rewrite <- !size_dom, Hdom. }
  split; [subst st'; by rewrite add_download_index, decide_True|].
  split; [|done].
  intros uid Hne. subst st'. by rewrite add_download_index, decide_False.
Qed.

Lemma add_download_duplicate_overwrites_witness :
  let old := new_task "a" 1 10 100 "https://x/first" in
  let dup := new_task "a" 2 20 200 "https://x/second" in
  let st : BotState unit := add_download BotState_init old in
  _downloads st !! task_id dup = Some old
  ∧ _downloads (add_download st dup) !! "a" = Some dup
  ∧ get_global_download_count (add_download st dup) = 1%nat
  ∧ user_task_ids (add_download st dup) 1 = user_task_ids st 1.
Proof.
  intros old dup st.
  assert (_downloads st !! task_id dup = Some old) as Hold by done.
  split; [done|].
  destruct (add_download_duplicate_overwrites st dup old Hold)
    as (Hnew & _ & _ & Hcount & _ & Hother & _).
  split; [done|]. split; [by rewrite Hcount|].
  by apply Hother.
Defined.

(** C10 as stated fails: [add_download] accepts an ID that is live under
    another owner.  After adding "a" for user 1 and then "a" for user 2,
    "a" is still listed under user 1 while the stored task belongs to
    user 2. *)
Lemma registry_index_stale_after_collision :
  let t1 := new_task "a" 1 10 100 "https://x/first" in
  let t2 := new_task "a" 2 20 200 "https://x/second" in
  let st : BotState unit :=
    run_registry_ops BotState_init [OpAdd t1; OpAdd t2] in
  "a" ∈ user_task_ids st 1
  ∧ _downloads st !! "a" = Some t2
  ∧ ¬ registry_consistent st.
Proof.
  intros t1 t2 st.
  assert ("a" ∈ user_task_ids st 1) as Hin.
  { apply (bool_decide_unpack _). by vm_compute. }
  split; [done|]. split; [done|].
  intros Hc. apply (Hc "a" 1) in Hin as (t & Ht & Hown).
  vm_compute in Ht. by simplify_eq.
Qed.

(** C10, amended.  In every state reached from the initial one by
    [add_download], [remove_download] and [cancel_user_downloads], where no
    [add_download] reuses an ID that is live under another owner, a task ID
    is a key of the primary map with owner [uid] exactly when it is listed
    in the index of [uid].  In such a state [add_download] puts the ID in
    the map and in the owner's index, [remove_download] takes a live ID out
    of both and does nothing for an absent one, and
    [cancel_user_downloads] changes neither the keys nor the index. *)
Theorem registry_index_consistency {Any : Type} (ops : list RegistryOp) :
  adds_without_collision (@BotState_init Any) ops →
  let st := run_registry_ops (@BotState_init Any) ops in
  registry_consistent st
  ∧ (∀ task,
       _downloads (add_download st task) !! task_id task = Some task
       ∧ task_id task ∈ user_task_ids (add_download st task) (user_id task))
  ∧ (∀ tid task, _downloads st !! tid = Some task →
       _downloads (remove_download st tid) !! tid = None
       ∧ tid ∉ user_task_ids (remove_download st tid) (user_id task))
  ∧ (∀ tid, _downloads st !! tid = None → remove_download st tid = st)
  ∧ (∀ uid,
       dom (_downloads (cancel_user_downloads st uid).1) = dom (_downloads st)
       ∧ _user_downloads (cancel_user_downloads st uid).1
         = _user_downloads st).
Proof.
  intros Hops st. split.
  { apply run_registry_ops_consistent; [|done].
    apply registry_consistent_init. }
  split.
  { intros task. rewrite add_download_downloads, lookup_insert_eq.
    rewrite add_download_index, decide_True by done. set_solver. }
  split.
  { intros tid task Ht.
    rewrite remove_download_downloads, lookup_delete_eq.
    rewrite (remove_download_index _ _ task), decide_True by done.
    set_solver. }
  split; [intros tid; apply remove_download_absent|].
  intros uid. split; [apply cancel_user_downloads_dom|].
  by destruct (cancel_user_downloads_index st uid) as (_ & _ & Hud & _).
Qed.

Lemma registry_index_consistency_witness :
  let ops := [OpAdd (new_task "a" 1 10 100 "https://x/a");
              OpAdd (new_task "b" 2 20 200 "https://x/b");
              OpCancel 1; OpRemove "a";
              OpAdd (new_task "a" 2 20 201 "https://x/a2")] in
  adds_without_collision (@BotState_init unit) ops
  ∧ registry_consistent (run_registry_ops (@BotState_init unit) ops).
Proof.
  intros ops.
  assert (adds_without_collision (@BotState_init unit) ops) as Hops.
  { repeat split; intros old Hold; vm_compute in Hold; by simplify_eq. }
  split; [done|]. exact (proj1 (registry_index_consistency ops Hops)).
Defined.

(** ** The TTL cache *)

Section Cache.
Context {Any : Type}.
Implicit Types (st : BotState Any).

Lemma get_cached_hit st key value stamp ttl now :
  _cache st !! key = Some (value, stamp) → now - stamp < ttl →
  get_cached st key ttl now = (st, Some value).
Proof.
  intros Hk Hlt. unfold get_cached. rewrite Hk. by rewrite decide_True.
Qed.

Lemma get_cached_expired st key value stamp ttl now :
  _cache st !! key = Some (value, stamp) → ttl ≤ now - stamp →
  get_cached st key ttl now
    = (with_cache st (delete key (_cache st)), None).
Proof.
  intros Hk Hge. unfold get_cached. rewrite Hk.
  by rewrite decide_False by lia.
Qed.

Lemma get_cached_other st key key' ttl now :
  key' ≠ key →
  _cache (get_cached st key' ttl now).1 !! key = _cache st !! key.
Proof.
  intros Hne. unfold get_cached.
  destruct (_cache st !! key') as [[value stamp]|]; [|done].
  destruct (decide _); simpl; [done|]. by rewrite lookup_delete_ne.
Qed.

Lemma run_cache_op_keeps_entry st key value stamp op :
  _cache st !! key = Some (value, stamp) → leaves_entry key stamp op →
  _cache (run_cache_op st op) !! key = Some (value, stamp).
Proof.
  intros Hk Hop. destruct op as [key' value' now|key' ttl now]; simpl in *.
  - by rewrite lookup_insert_ne.
  - destruct (decide (key' = key)) as [->|Hne].
    + destruct Hop as [?|Hlt]; [done|].
      by rewrite (get_cached_hit _ _ value stamp).
    + by rewrite get_cached_other.
Qed.

Lemma run_cache_ops_keep_entry ops : ∀ st key value stamp,
  _cache st !! key = Some (value, stamp) →
  Forall (leaves_entry key stamp) ops →
  _cache (foldl run_cache_op st ops) !! key = Some (value, stamp).
Proof.
  induction ops as [|op ops IH]; intros st key value stamp Hk Hops; [done|].
  apply Forall_cons in Hops as [Hop Hops]. simpl.
  apply IH; [|done]. by apply run_cache_op_keeps_entry.
Qed.

End Cache.

(** C5, amended.  After [set_cached key value] at reading [s], and any
    later cache calls that neither set [key] nor read it once it has
    expired (a read of [key] whose own TTL has run out deletes the entry),
    a [get_cached key ttl] at reading [r] returns the value and leaves the
    cache alone when [r - s < ttl]; when [r - s >= ttl] it returns [None]
    and deletes the entry of [key], and no other entry. *)
Theorem get_cached_after_set {Any : Type} (st : BotState Any) (key : string)
    (value : Any) (s ttl r : Z) (ops : list (CacheOp Any)) :
  Forall (leaves_entry key s) ops →
  let st1 := foldl run_cache_op (set_cached st key value s) ops in
  let res := get_cached st1 key ttl r in
  (r - s < ttl → res.2 = Some value ∧ res.1 = st1)
  ∧ (ttl ≤ r - s →
       res.2 = None
       ∧ _cache res.1 !! key = None
       ∧ ∀ key', key' ≠ key → _cache res.1 !! key' = _cache st1 !! key').
Proof.
  intros Hops st1 res.
  assert (_cache st1 !! key = Some (value, s)) as Hk.
  { apply run_cache_ops_keep_entry; [|done].
    unfold set_cached; simpl. by rewrite lookup_insert_eq. }
  split.
  - intros Hlt. subst res. by rewrite (get_cached_hit _ _ value s).
  - intros Hge. subst res. rewrite (get_cached_expired _ _ value s) by done.
    simpl. split; [done|]. split; [by rewrite lookup_delete_eq|].
    intros key' Hne. by rewrite lookup_delete_ne.
Qed.

Lemma get_cached_after_set_witness :
  let ops : list (CacheOp string) :=
    [OpSet "broadcast:7" "hello" 1010; OpGet "video:abc" 300 1100;
     OpGet "broadcast:7" 5 2000] in
  let st1 := foldl run_cache_op
               (set_cached BotState_init "video:abc" "info" 1000) ops in
  Forall (leaves_entry "video:abc" 1000) ops
  ∧ (get_cached st1 "video:abc" 300 1299).2 = Some "info"
  ∧ (get_cached st1 "video:abc" 300 1300).2 = None
  ∧ _cache (get_cached st1 "video:abc" 300 1300).1 !! "video:abc" = None.
Proof.
  intros ops st1.
  assert (Forall (leaves_entry "video:abc" 1000) ops) as Hops.
  { repeat (apply Forall_cons; split); [| | |by apply Forall_nil]; simpl.
    - done.
    - right. lia.
    - by left. }
  split; [done|].
  destruct (get_cached_after_set BotState_init "video:abc" "info" 1000 300
              1299 ops Hops) as [Hhit _].
  destruct (get_cached_after_set BotState_init "video:abc" "info" 1000 300
              1300 ops Hops) as [_ Hmiss].
  split; [apply Hhit; lia|].
  destruct Hmiss as (Hnone & Hgone & _); [lia|]. by split.
Defined.

(** C5 as stated fails: "no later write to k" is not enough.  After
    [set_cached "k" "v"] at reading 0 and no further write, a read of "k"
    with a TTL of 1 at reading 5 finds the entry expired and deletes it,
    so the read with a TTL of 300 at reading 6 returns [None] although
    [6 - 0 < 300]; without the read in between it returns the value. *)
Remark get_cached_evicted_by_short_ttl :
  let st : BotState string := set_cached BotState_init "k" "v" 0 in
  let st' := (get_cached st "k" 1 5).1 in
  (get_cached st "k" 300 6).2 = Some "v"
  ∧ (get_cached st' "k" 300 6).2 = None.
Proof. by vm_compute. Qed.

(** ** The progress tracker *)

Module TrackerFacts.
Import Tracker.

Section WithLocalization.
Context `{Localization}.
Implicit Types (tr : ProgressTracker) (a : UpdateArgs).

Lemma format_display tr tr' :
  display tr = display tr' →
  _format_progress_message tr = _format_progress_message tr'.
Proof.
  destruct tr, tr'. unfold display, snapshot; simpl.
  intros [= -> -> -> -> -> -> -> ->]. done.
Qed.

Lemma merge_fields_display tr tr' a :
  display tr = display tr' →
  display (merge_fields tr a) = display (merge_fields tr' a).
Proof.
  destruct tr, tr'. unfold display, snapshot; simpl.
  intros [= -> -> -> -> -> -> -> ->]. done.
Qed.

(** The tracker after [update] is the merged tracker, with the two markers
    rewritten when the edit went through. *)
Lemma update_result tr a now answer :
  (update tr a now answer).1 = merge_fields tr a
  ∨ (update tr a now answer).1
    = mark_sent (merge_fields tr a)
        (_format_progress_message (merge_fields tr a)) now.
Proof.
  unfold update. destruct (negb _ && _); [by left|].
  destruct (decide _); [by left|]. destruct answer; auto.
Qed.

Lemma update_display tr a now answer :
  display (update tr a now answer).1 = display (merge_fields tr a).
Proof. by destruct (update_result tr a now answer) as [-> | ->]. Qed.

Lemma update_edits tr a now answer :
  edits (update tr a now answer).2 = []
  ∨ edits (update tr a now answer).2
    = [_format_progress_message (merge_fields tr a)].
Proof.
  unfold update. destruct (negb _ && _); [by left|].
  destruct (decide _); [by left|]. destruct answer; auto.
Qed.

Lemma run_updates_snoc calls : ∀ tr c,
  run_updates tr (calls ++ [c])
    = let rs := run_updates tr calls in
      let r := update rs.1 (uc_args c) (uc_time c) (uc_answer c) in
      (r.1, rs.2 ++ [r.2]).
Proof.
  induction calls as [|c0 calls IH]; intros tr c; simpl; [done|].
  by rewrite IH.
Qed.

Lemma run_updates_display calls : ∀ tr tr',
  display tr = display tr' →
  display (run_updates tr calls).1
    = display (foldl merge_fields tr' (uc_args <$> calls)).
Proof.
  induction calls as [|c calls IH]; intros tr tr' Hd; simpl; [done|].
  apply IH. rewrite update_display. by apply merge_fields_display.
Qed.

Lemma update_same_as_last tr a now answer :
  _format_progress_message (merge_fields tr a) = _last_text tr →
  (update tr a now answer).2 = []
  ∧ (update tr a now answer).1 = merge_fields tr a.
Proof.
  intros Hsame. unfold update.
  destruct (negb _ && _); [done|]. by rewrite decide_True.
Qed.

Lemma update_delivered tr a now answer :
  delivered (update tr a now answer).2 answer ≠ [] →
  (update tr a now answer).1
    = mark_sent (merge_fields tr a)
        (_format_progress_message (merge_fields tr a)) now.
Proof.
  unfold update. destruct (negb _ && _); [by destruct answer|].
  destruct (decide _); by destruct answer.
Qed.

(** The markers [_last_text] and [_last_update] move exactly when an edit
    is delivered, to the delivered text and the reading of that call. *)
Lemma update_markers tr a now answer :
  (delivered (update tr a now answer).2 answer = []
   ∧ _last_text (update tr a now answer).1 = _last_text tr
   ∧ _last_update (update tr a now answer).1 = _last_update tr)
  ∨ (delivered (update tr a now answer).2 answer
       = [_format_progress_message (merge_fields tr a)]
     ∧ _last_text (update tr a now answer).1
       = _format_progress_message (merge_fields tr a)
     ∧ _last_update (update tr a now answer).1 = now).
Proof.
  unfold update. destruct (negb _ && _); [left; by destruct answer|].
  destruct (decide _); [left; by destruct answer|].
  destruct answer; simpl; auto.
Qed.

(** C6.  Take any tracker, any earlier [update] calls, and one more call
    [c].  (1) Each field given in [c] replaces the stored one and each
    field left out stays as it was, whatever the clock, [force] and the
    client's answer are; so the snapshot is the merge of all arguments
    seen so far.  (2) When [force] is false and less than
    [_update_interval] has passed since [_last_update] (the reading of the
    last edit that went through), the call issues nothing and leaves both
    markers alone.  (3) Whatever edit the call does issue carries the text
    rendered from that fully merged snapshot.  (4) A forced call whose
    rendering differs from [_last_text] issues exactly that edit.  (5) The
    markers move only when the edit of the call is delivered, to its text
    and to the reading of the call. *)
Theorem update_merges_then_debounces tr (earlier : list UpdateCall)
    (c : UpdateCall) :
  let before := (run_updates tr earlier).1 in
  let r := update before (uc_args c) (uc_time c) (uc_answer c) in
  let merged := foldl merge_fields tr (uc_args <$> earlier ++ [c]) in
  (run_updates tr (earlier ++ [c])).1 = r.1
  ∧ (status r.1 = default (status before) (kw_status (uc_args c))
     ∧ progress r.1 = default (progress before) (kw_progress (uc_args c))
     ∧ downloaded_bytes r.1
       = default (downloaded_bytes before) (kw_downloaded_bytes (uc_args c))
     ∧ total_bytes r.1
       = default (total_bytes before) (kw_total_bytes (uc_args c))
     ∧ speed r.1 = default (speed before) (kw_speed (uc_args c))
     ∧ eta r.1 = default (eta before) (kw_eta (uc_args c)))
  ∧ snapshot r.1 = snapshot merged
  ∧ (kw_force (uc_args c) = false →
     uc_time c - _last_update before < _update_interval before →
     r.2 = [] ∧ _last_text r.1 = _last_text before
     ∧ _last_update r.1 = _last_update before)
  ∧ (∀ text, text ∈ edits r.2 →
       text = _format_progress_message r.1
       ∧ text = _format_progress_message merged)
  ∧ (kw_force (uc_args c) = true →
     _format_progress_message merged ≠ _last_text before →
     edits r.2 = [_format_progress_message merged])
  ∧ ((delivered r.2 (uc_answer c) = []
      ∧ _last_text r.1 = _last_text before
      ∧ _last_update r.1 = _last_update before)
     ∨ (delivered r.2 (uc_answer c) = [_format_progress_message merged]
        ∧ _last_text r.1 = _format_progress_message merged
        ∧ _last_update r.1 = uc_time c)).
Proof.
  intros before r merged.
  assert (display r.1 = display merged) as Hd.
  { subst r merged. rewrite update_display, fmap_app, foldl_app. simpl.
    apply merge_fields_display. subst before. by apply run_updates_display. }
  assert (display r.1 = display (merge_fields before (uc_args c))) as Hm
    by apply update_display.
  assert (_format_progress_message (merge_fields before (uc_args c))
          = _format_progress_message merged) as Hfmt.
  { apply format_display. by rewrite <- Hm. }
  split; [by rewrite run_updates_snoc|].
  split.
  { subst r. destruct (update_result before (uc_args c) (uc_time c)
                         (uc_answer c)) as [-> | ->];
      destruct (uc_args c) as [[?|] [?|] [?|] [?|] [?|] [?|] ?]; done. }
  split; [unfold display in Hd; injection Hd; intros; unfold snapshot;
          congruence|].
  split.
  { intros Hforce Hsoon. subst r. unfold update.
    rewrite Hforce. simpl. by rewrite bool_decide_eq_true_2. }
  split.
  { intros text Hin. rewrite <- (format_display _ _ Hd), (format_display _ _ Hm).
    destruct (update_edits before (uc_args c) (uc_time c) (uc_answer c))
      as [He|He]; fold r in He; rewrite He in Hin; set_solver. }
  split.
  { intros Hforce Hnew. subst r. unfold update. rewrite Hforce. simpl.
    rewrite Hfmt. rewrite decide_False by done.
    by destruct (uc_answer c). }
  rewrite <- Hfmt. apply update_markers.
Qed.

(** C7.  (1) An [update] whose rendering equals [_last_text] issues no
    edit, forced or not.  (2) Of two consecutive calls that render the same
    text, at most one edit is delivered: once the first one's edit went
    through, the second call issues none.  (3) A call issues at most one
    edit.  (4) [_last_text] is the text of the last delivered edit: a call
    changes it only when its edit is delivered, to that edit's text. *)
Theorem update_skips_unchanged_text tr (a1 a2 : UpdateArgs) (now1 now2 : Z)
    (answer1 answer2 : EditResult) :
  let r1 := update tr a1 now1 answer1 in
  let r2 := update r1.1 a2 now2 answer2 in
  (_format_progress_message (merge_fields tr a1) = _last_text tr →
     edits r1.2 = [] ∧ r1.2 = [] ∧ r1.1 = merge_fields tr a1)
  ∧ (_format_progress_message (merge_fields r1.1 a2)
       = _format_progress_message (merge_fields tr a1) →
     (length (delivered r1.2 answer1) + length (delivered r2.2 answer2)
      ≤ 1)%nat
     ∧ (delivered r1.2 answer1 ≠ [] → r2.2 = []))
  ∧ (length (edits r1.2) ≤ 1)%nat
  ∧ ((delivered r1.2 answer1 = [] ∧ _last_text r1.1 = _last_text tr)
     ∨ (delivered r1.2 answer1 = [_last_text r1.1]
        ∧ _last_text r1.1 = _format_progress_message (merge_fields tr a1))).
Proof.
  intros r1 r2. split; [|split; [|split]].
  - intros Hsame. subst r1.
    destruct (update_same_as_last tr a1 now1 answer1 Hsame) as [-> ->].
    done.
  - intros Hsame.
    assert (delivered r1.2 answer1 ≠ [] → r2.2 = []) as Hsecond.
    { intros Hd. apply update_delivered in Hd. fold r1 in Hd.
      subst r2. rewrite Hd in Hsame |- *.
      by apply update_same_as_last. }
    split; [|done].
    destruct (delivered r1.2 answer1) as [|x l] eqn:Hd1.
    + simpl. unfold delivered.
      destruct (update_edits r1.1 a2 now2 answer2) as [He|He];
        fold r2 in He; destruct answer2; rewrite ?He; simpl; lia.
    + rewrite Hsecond by done. unfold delivered in *.
      destruct (update_edits tr a1 now1 answer1) as [He|He];
        fold r1 in He; destruct answer1, answer2; rewrite ?He in *;
        simplify_eq; simpl; lia.
  - destruct (update_edits tr a1 now1 answer1) as [He|He];
      fold r1 in He; rewrite He; simpl; lia.
  - destruct (update_markers tr a1 now1 answer1) as [(Hd & Ht & _)|(Hd & Ht & _)];
      fold r1 in Hd, Ht; [by left|right]. by rewrite Ht.
Qed.

(** C9.  [complete text] issues one edit carrying exactly [text], for every
    tracker state and every answer of the client; it reads neither the
    clock, nor [_last_update], nor [_last_text], and changes no field.
    Called twice, it issues the edit twice. *)
Theorem complete_is_unconditional tr (text : string)
    (answer answer' : EditResult) :
  let r := complete tr text answer in
  let r' := complete r.1 text answer' in
  r.1 = tr
  ∧ (∃ log, r.2 = EditMessageText (chat_id tr) (message_id tr) text :: log
            ∧ edits log = [])
  ∧ edits r.2 = [text]
  ∧ edits (r.2 ++ r'.2) = [text; text].
Proof.
  intros r r'. subst r r'. unfold complete. simpl.
  split; [done|]. split; [|by destruct answer, answer'].
  eexists. split; [done|]. by destruct answer.
Qed.

End WithLocalization.

(** A burst: the first call edits, the next two fall inside the interval
    and only merge, and the forced last call edits with the text of the
    last merged progress. *)
Example burst_then_forced :
  let calls :=
    [mkUpdateCall (progress_only 10 false) 5000 EditOk;
     mkUpdateCall (progress_only 20 false) 5100 EditOk;
     mkUpdateCall (progress_only 30 false) 5200 EditOk;
     mkUpdateCall (progress_only 40 true) 5300 EditOk] in
  let r := run_updates (H := plain_localization) downloading_tracker calls in
  edits <$> r.2
  = [[_format_progress_message (H := plain_localization)
        (merge_fields downloading_tracker (progress_only 10 false))];
     []; [];
     [_format_progress_message (H := plain_localization)
        (merge_fields downloading_tracker (progress_only 40 false))]]
  ∧ progress r.1 = 40%Q ∧ _last_update r.1 = 5300.
Proof. by vm_compute. Qed.

Lemma update_merges_then_debounces_witness :
  let earlier := [mkUpdateCall (progress_only 10 false) 5000 EditOk;
                  mkUpdateCall (progress_only 20 false) 5100 EditOk] in
  let before :=
    (run_updates (H := plain_localization) downloading_tracker earlier).1 in
  let quiet :=
    update (H := plain_localization) before (progress_only 30 false) 5200
      EditOk in
  let forced :=
    update (H := plain_localization) before (progress_only 30 true) 5200
      EditOk in
  quiet.2 = [] ∧ progress quiet.1 = 30%Q
  ∧ edits forced.2
    = [_format_progress_message (H := plain_localization)
         (merge_fields downloading_tracker (progress_only 30 true))].
Proof.
  intros earlier before quiet forced.
  destruct (update_merges_then_debounces (H := plain_localization)
              downloading_tracker earlier
              (mkUpdateCall (progress_only 30 false) 5200 EditOk))
    as (_ & (_ & Hp & _) & _ & Hquiet & _).
  destruct (update_merges_then_debounces (H := plain_localization)
              downloading_tracker earlier
              (mkUpdateCall (progress_only 30 true) 5200 EditOk))
    as (_ & _ & _ & _ & _ & Hforced & _).
  split; [apply Hquiet; [done|by vm_compute]|].
  split; [exact Hp|].
  etrans; [apply Hforced; [done|by vm_compute]|]. by vm_compute.
Defined.

Lemma update_skips_unchanged_text_witness :
  let r1 := update (H := plain_localization) downloading_tracker
              (progress_only 10 true) 5000 EditOk in
  let r2 := update (H := plain_localization) r1.1 (progress_only 10 true)
              5001 EditOk in
  length (edits r1.2) = 1%nat ∧ r2.2 = []
  ∧ (length (delivered r1.2 EditOk) + length (delivered r2.2 EditOk)
     ≤ 1)%nat.
Proof.
  intros r1 r2.
  destruct (update_skips_unchanged_text (H := plain_localization)
              downloading_tracker (progress_only 10 true)
              (progress_only 10 true) 5000 5001 EditOk EditOk)
    as (_ & Hpair & _).
  destruct Hpair as [Hone Hsecond]; [by vm_compute|].
  split; [by vm_compute|]. split; [|exact Hone].
  apply Hsecond. by vm_compute.
Defined.

(** Without a delivered first edit the text is not remembered: when the
    client turns the first edit down, the second call issues it again. *)
Remark update_retries_after_failed_edit :
  let r1 := update (H := plain_localization) downloading_tracker
              (progress_only 10 true) 5000 OtherException in
  let r2 := update (H := plain_localization) r1.1 (progress_only 10 true)
              5001 EditOk in
  edits r1.2 = edits r2.2 ∧ length (edits r2.2) = 1%nat
  ∧ delivered r1.2 OtherException = [].
Proof. by vm_compute. Qed.

End TrackerFacts.

(** ** The progress hook *)

Module HookFacts.
Import Hook.

Lemma is_str_true v s : is_str v s = true ↔ v = PyStr s.
Proof.
  destruct v as [|q|s']; simpl; try (split; [discriminate|congruence]).
  rewrite String.eqb_eq. split; congruence.
Qed.

Lemma is_str_other s s' : s ≠ s' → is_str (PyStr s) s' = false.
Proof. intros Hne. simpl. by apply String.eqb_neq. Qed.

(** A key that holds a true value is passed on as it is; a key that is
    missing or holds [None] or zero gives the number zero. *)
Lemma py_or_zero_through d key :
  (∀ v, d !! key = Some v → truthy v = true →
        py_or (py_get d key (PyNum 0)) (PyNum 0) = v)
  ∧ (d !! key = None → py_or (py_get d key (PyNum 0)) (PyNum 0) = PyNum 0)
  ∧ (d !! key = Some PyNone →
     py_or (py_get d key (PyNum 0)) (PyNum 0) = PyNum 0).
Proof.
  unfold py_or, py_get. repeat split.
  - intros v -> Hv. simpl. by rewrite Hv.
  - by intros ->.
  - by intros ->.
Qed.

Section WithFloats.
Context `{FloatArith}.

(** X16.  The dispatch of the hook on [d.get('status')], for events whose
    [total] is a number (what C8 describes).
    - "downloading", with [total] a number: one [tracker.update] is
      scheduled with [status = DOWNLOADING], [force] left at [False],
      [progress] the float product of the float quotient
      [downloaded / total] and 100 when [total > 0] (which needs
      [downloaded] to be a number) and [progress = 0] otherwise, and with
      [downloaded], [total], [speed] and [eta] as read from the event.
    - "finished": one [tracker.update(status=MERGING, progress=100,
      force=True)] is scheduled.
    - "error": the error is logged and nothing is scheduled.
    - any other status: nothing is done. *)
Theorem hook_dispatch (d : gmap string PyVal) :
  let speed_v := py_or (py_get d "speed" (PyNum 0)) (PyNum 0) in
  let eta_v := py_or (py_get d "eta" (PyNum 0)) (PyNum 0) in
  let downloaded := py_get d "downloaded_bytes" (PyNum 0) in
  (py_get d "status" PyNone = PyStr "downloading" →
   ∀ tot, event_total d = PyNum tot →
     ((0 < tot)%Q → ∀ dl, downloaded = PyNum dl →
        __call__ d
        = Returns [RunCoroutineThreadsafe
                     {| status := DOWNLOADING;
                        progress := PyNum (float_mul (float_div dl tot) 100);
                        downloaded_bytes := PyNum dl;
                        total_bytes := PyNum tot;
                        speed := speed_v; eta := eta_v; force := false |}])
     ∧ ((tot <= 0)%Q →
        __call__ d
        = Returns [RunCoroutineThreadsafe
                     {| status := DOWNLOADING; progress := PyNum 0;
                        downloaded_bytes := downloaded;
                        total_bytes := PyNum tot;
                        speed := speed_v; eta := eta_v; force := false |}]))
  ∧ (py_get d "status" PyNone = PyStr "finished" →
     __call__ d
     = Returns [RunCoroutineThreadsafe
                  {| status := MERGING; progress := PyNum 100;
                     downloaded_bytes := PyNone; total_bytes := PyNone;
                     speed := PyNone; eta := PyNone; force := true |}])
  ∧ (py_get d "status" PyNone = PyStr "error" →
     __call__ d = Returns [LoggerError (py_get d "error" (PyStr "Unknown error"))]
     ∧ ∀ effects, __call__ d = Returns effects → scheduled effects = [])
  ∧ (is_str (py_get d "status" PyNone) "downloading" = false →
     is_str (py_get d "status" PyNone) "finished" = false →
     is_str (py_get d "status" PyNone) "error" = false →
     __call__ d = Returns []).
Proof.
  intros speed_v eta_v downloaded. unfold __call__.
  fold downloaded. fold speed_v. fold eta_v.
  split; [|split; [|split]].
  - intros Hst tot Htot. rewrite Hst, Htot. simpl. split.
    + intros Hpos dl Hdl. rewrite Hdl.
      destruct (Qlt_le_dec 0 tot) as [_|Hle]; [done|].
      by apply Qle_not_lt in Hle.
    + intros Hle. destruct (Qlt_le_dec 0 tot) as [Hpos|_]; [|done].
      by apply Qle_not_lt in Hle.
  - intros Hst. by rewrite Hst.
  - intros Hst. rewrite Hst. simpl. split; [done|].
    by intros effects [= <-].
  - by intros -> -> ->.
Qed.

(** The number that reaches [update] in the "finished" case. *)
Example finished_update_args :
  ∀ c, __call__ {[ "status" := PyStr "finished" ]}
       = Returns [RunCoroutineThreadsafe c] →
       to_update_args c
       = Some {| Tracker.kw_status := Some MERGING;
                 Tracker.kw_progress := Some 100%Q;
                 Tracker.kw_downloaded_bytes := None;
                 Tracker.kw_total_bytes := None;
                 Tracker.kw_speed := None; Tracker.kw_eta := None;
                 Tracker.kw_force := true |}.
Proof. intros c. vm_compute. by intros [= <-]. Qed.

(** X17.  An event of status "downloading" whose [total] is not a
    number: [total > 0] raises and nothing is scheduled, whatever the
    other keys hold. *)
Lemma downloading_total_not_a_number (d : gmap string PyVal) :
  py_get d "status" PyNone = PyStr "downloading" →
  (∀ tot, event_total d ≠ PyNum tot) →
  __call__ d = Raises TypeError.
Proof.
  intros Hst Htot. unfold __call__. rewrite Hst. simpl.
  destruct (event_total d) as [|tot|s]; [done| |done].
  by destruct (Htot tot).
Qed.

(** C8 at an event of status "downloading" whose two size keys both hold
    [None] (the size is unknown): [total] is [None], since the default
    [0] of [d.get('total_bytes_estimate', 0)] only stands in for a missing
    key; [total > 0] raises [TypeError] and no [tracker.update] is
    scheduled, where C8 has the update scheduled with [progress = 0].  The
    same event without the key "total_bytes_estimate" is handled as C8
    says. *)
Theorem downloading_without_total_raises :
  let d : gmap string PyVal :=
    {[ "status" := PyStr "downloading"; "downloaded_bytes" := PyNum 10;
       "total_bytes" := PyNone; "total_bytes_estimate" := PyNone;
       "speed" := PyNone; "eta" := PyNone ]} in
  event_total d = PyNone
  ∧ __call__ d = Raises TypeError
  ∧ __call__ (delete "total_bytes_estimate" d)
    = Returns [RunCoroutineThreadsafe
                 {| status := DOWNLOADING; progress := PyNum 0;
                    downloaded_bytes := PyNum 10; total_bytes := PyNum 0;
                    speed := PyNum 0; eta := PyNum 0; force := false |}].
Proof. by vm_compute. Qed.

End WithFloats.

(** Half-way through a download of 2000 bytes: a half and fifty are
    doubles. *)
Example downloading_half_way :
  let d : gmap string PyVal :=
    {[ "status" := PyStr "downloading"; "downloaded_bytes" := PyNum 1000;
       "total_bytes" := PyNone; "total_bytes_estimate" := PyNum 2000;
       "speed" := PyNone; "eta" := PyNum 7 ]} in
  ∃ p, __call__ (H := exact_arith) d
       = Returns [RunCoroutineThreadsafe
                    {| status := DOWNLOADING; progress := PyNum p;
                       downloaded_bytes := PyNum 1000;
                       total_bytes := PyNum 2000; speed := PyNum 0;
                       eta := PyNum 7; force := false |}]
       ∧ (p == 50)%Q.
Proof. eexists. split; [by vm_compute|]. by vm_compute. Qed.

Lemma hook_dispatch_witness :
  let d : gmap string PyVal :=
    {[ "status" := PyStr "downloading"; "downloaded_bytes" := PyNum 1000;
       "total_bytes" := PyNum 4000; "speed" := PyNum 250;
       "eta" := PyNone ]} in
  py_get d "status" PyNone = PyStr "downloading"
  ∧ event_total d = PyNum 4000
  ∧ __call__ (H := exact_arith) d
    = Returns [RunCoroutineThreadsafe
                 {| status := DOWNLOADING;
                    progress := PyNum ((1000 / 4000) * 100)%Q;
                    downloaded_bytes := PyNum 1000;
                    total_bytes := PyNum 4000;
                    speed := PyNum 250; eta := PyNum 0; force := false |}].
Proof.
  intros d.
  assert (py_get d "status" PyNone = PyStr "downloading") as Hst
    by (by vm_compute).
  assert (event_total d = PyNum 4000) as Htot by (by vm_compute).
  split; [done|]. split; [done|].
  destruct (hook_dispatch (H := exact_arith) d) as (Hdl & _).
  destruct (Hdl Hst 4000%Q Htot) as [Hpos _].
  etrans; [apply (Hpos eq_refl 1000%Q); by vm_compute|]. by vm_compute.
Defined.

End HookFacts.

(** ** The state as a whole *)

Section Frame.
Context {Any : Type}.
Implicit Types (st : BotState Any).

(** What each kind of call leaves alone. *)
Lemma run_registry_op_frame st op :
  _cache (run_registry_op st op) = _cache st
  ∧ _rate_limits (run_registry_op st op) = _rate_limits st
  ∧ _total_downloads (run_registry_op st op) = _total_downloads st
  ∧ _successful_downloads (run_registry_op st op) = _successful_downloads st
  ∧ _failed_downloads (run_registry_op st op) = _failed_downloads st.
Proof.
  destruct op as [task|tid|uid]; simpl.
  - done.
  - unfold remove_download. by destruct (_downloads st !! tid).
  - unfold cancel_user_downloads. by destruct (cancel_loop _ _ _).
Qed.

Lemma run_cache_op_frame st op :
  _downloads (run_cache_op st op) = _downloads st
  ∧ _user_downloads (run_cache_op st op) = _user_downloads st
  ∧ _rate_limits (run_cache_op st op) = _rate_limits st
  ∧ _total_downloads (run_cache_op st op) = _total_downloads st
  ∧ _successful_downloads (run_cache_op st op) = _successful_downloads st
  ∧ _failed_downloads (run_cache_op st op) = _failed_downloads st.
Proof.
  destruct op as [key value now|key ttl now]; simpl; [done|].
  unfold get_cached. destruct (_cache st !! key) as [[v ts]|]; [|done].
  by destruct (decide _).
Qed.

Lemma check_rate_limit_stats st uid limit window now :
  let r := check_rate_limit st uid limit window now in
  _total_downloads r.1 = _total_downloads st
  ∧ _successful_downloads r.1 = _successful_downloads st
  ∧ _failed_downloads r.1 = _failed_downloads st.
Proof. unfold check_rate_limit; simpl. by destruct (decide _). Qed.

(** Each kind of call reads its own component only. *)
Lemma run_registry_op_same st1 st2 op :
  same_registry st1 st2 →
  same_registry (run_registry_op st1 op) (run_registry_op st2 op).
Proof.
  destruct st1, st2. unfold same_registry; simpl. intros [-> ->].
  destruct op as [task|tid|uid]; simpl.
  - done.
  - unfold remove_download; simpl. by destruct (_ !! tid).
  - unfold cancel_user_downloads, user_task_ids; simpl.
    by destruct (cancel_loop _ _ _).
Qed.

Lemma run_cache_op_same st1 st2 op :
  _cache st1 = _cache st2 →
  _cache (run_cache_op st1 op) = _cache (run_cache_op st2 op).
Proof.
  destruct st1, st2; simpl. intros ->.
  destruct op as [key value now|key ttl now]; simpl; [done|].
  unfold get_cached; simpl. destruct (_ !! key) as [[v ts]|]; [|done].
  by destruct (decide _).
Qed.

Lemma check_rate_limit_same st1 st2 uid limit window now :
  _rate_limits st1 = _rate_limits st2 →
  _rate_limits (check_rate_limit st1 uid limit window now).1
    = _rate_limits (check_rate_limit st2 uid limit window now).1
  ∧ (check_rate_limit st1 uid limit window now).2
    = (check_rate_limit st2 uid limit window now).2.
Proof.
  destruct st1, st2; simpl. intros ->.
  unfold check_rate_limit; simpl. by destruct (decide _).
Qed.

Lemma increment_stats_same st1 st2 b :
  same_stats st1 st2 →
  same_stats (increment_stats st1 b) (increment_stats st2 b).
Proof.
  destruct st1, st2. unfold same_stats; simpl. by intros (-> & -> & ->).
Qed.

(** A sequence of calls acts on each component as the calls of its kind
    do, started from any state that agrees on that component. *)
Lemma run_bot_ops_project ops : ∀ st sr sc sl ss : BotState Any,
  same_registry st sr → _cache st = _cache sc →
  _rate_limits st = _rate_limits sl → same_stats st ss →
  let st' := foldl run_bot_op st ops in
  same_registry st' (run_registry_ops sr (registry_ops ops))
  ∧ _cache st' = _cache (foldl run_cache_op sc (cache_ops ops))
  ∧ _rate_limits st' = _rate_limits (foldl run_rate_call sl (rate_calls ops))
  ∧ same_stats st' (foldl increment_stats ss (stats_outcomes ops)).
Proof.
  induction ops as [|op ops IH]; intros st sr sc sl ss Hr Hc Hl Hs; [done|].
  destruct op as [o|o|c|b]; cbn [foldl run_bot_op];
    unfold registry_ops, cache_ops, rate_calls, stats_outcomes;
    rewrite !omap_cons_case; cbn [foldl]; apply IH.
  - by apply run_registry_op_same.
  - by destruct (run_registry_op_frame st o) as (-> & _).
  - by destruct (run_registry_op_frame st o) as (_ & -> & _).
  - destruct (run_registry_op_frame st o) as (_ & _ & H1 & H2 & H3).
    unfold same_stats. by rewrite H1, H2, H3.
  - destruct (run_cache_op_frame st o) as (H1 & H2 & _).
    unfold same_registry. by rewrite H1, H2.
  - by apply run_cache_op_same.
  - by destruct (run_cache_op_frame st o) as (_ & _ & -> & _).
  - destruct (run_cache_op_frame st o) as (_ & _ & _ & H1 & H2 & H3).
    unfold same_stats. by rewrite H1, H2, H3.
  - destruct (check_rate_limit_frame st (rc_user c) (rc_limit c) (rc_window c)
                (rc_time c)) as (H1 & H2 & _).
    unfold same_registry, run_rate_call. by rewrite H1, H2.
  - unfold run_rate_call.
    by destruct (check_rate_limit_frame st (rc_user c) (rc_limit c)
                   (rc_window c) (rc_time c)) as (_ & _ & ->).
  - by apply check_rate_limit_same.
  - destruct (check_rate_limit_stats st (rc_user c) (rc_limit c) (rc_window c)
                (rc_time c)) as (H1 & H2 & H3).
    unfold same_stats, run_rate_call. by rewrite H1, H2, H3.
  - done.
  - done.
  - done.
  - by apply increment_stats_same.
Qed.

End Frame.

(** X1.  The four parts of [BotState] do not interfere.  After any sequence
    of registry calls, cache calls, [check_rate_limit] calls and
    [increment_stats] calls, in any interleaving, the registry (primary map
    and index) is what the registry calls alone make of the starting state,
    the cache is what the cache calls alone make of it, the rate lists are
    what the [check_rate_limit] calls alone make of them, and the three
    counters are what the [increment_stats] calls alone make of them. *)
Theorem bot_state_components_independent {Any : Type} (st : BotState Any)
    (ops : list (BotOp Any)) :
  let st' := foldl run_bot_op st ops in
  _downloads st' = _downloads (run_registry_ops st (registry_ops ops))
  ∧ _user_downloads st'
    = _user_downloads (run_registry_ops st (registry_ops ops))
  ∧ _cache st' = _cache (foldl run_cache_op st (cache_ops ops))
  ∧ _rate_limits st' = _rate_limits (foldl run_rate_call st (rate_calls ops))
  ∧ _total_downloads st'
    = _total_downloads (foldl increment_stats st (stats_outcomes ops))
  ∧ _successful_downloads st'
    = _successful_downloads (foldl increment_stats st (stats_outcomes ops))
  ∧ _failed_downloads st'
    = _failed_downloads (foldl increment_stats st (stats_outcomes ops)).
Proof.
  intros st'.
  destruct (run_bot_ops_project ops st st st st st)
    as ([H1 H2] & H3 & H4 & H5 & H6 & H7); try done.
Qed.

(** ** Statistics *)

Lemma increment_stats_count (outcomes : list bool) :
  ∀ {Any : Type} (st : BotState Any),
  let st' := foldl increment_stats st outcomes in
  _total_downloads st' = _total_downloads st + Z.of_nat (length outcomes)
  ∧ _successful_downloads st'
    = _successful_downloads st
      + Z.of_nat (length (filter (λ b, b = true) outcomes))
  ∧ _failed_downloads st'
    = _failed_downloads st
      + Z.of_nat (length (filter (λ b, b = false) outcomes)).
Proof.
  induction outcomes as [|b outcomes IH]; intros Any st; simpl; [lia|].
  destruct (IH Any (increment_stats st b)) as (H1 & H2 & H3).
  rewrite H1, H2, H3. rewrite !filter_cons.
  destruct b; simpl; lia.
Qed.

Lemma filter_true_false_length (l : list bool) :
  (length (filter (λ b, b = true) l) + length (filter (λ b, b = false) l)
   = length l)%nat.
Proof.
  induction l as [|[] l IH]; [done| |]; rewrite !filter_cons; simpl; lia.
Qed.

(** X2.  [get_stats] counts the [increment_stats] calls.  In the state
    reached from the initial one by any sequence of calls, the total is the
    number of [increment_stats] calls, the successes are those called with
    [True] and the failures those called with [False], so the total is
    their sum.  The success rate is "N/A" exactly when no download was
    counted; otherwise it is a number between 0 and 100, printed with one
    decimal place and a percent sign. *)
Theorem stats_count_outcomes {Any : Type} (format_f : nat → Q → string)
    (ops : list (BotOp Any)) (uptime : timedelta) :
  let st := foldl run_bot_op (@BotState_init Any) ops in
  let outcomes := stats_outcomes ops in
  let stats := get_stats format_f st uptime in
  stats_total_downloads stats = Z.of_nat (length outcomes)
  ∧ stats_successful_downloads stats
    = Z.of_nat (length (filter (λ b, b = true) outcomes))
  ∧ stats_failed_downloads stats
    = Z.of_nat (length (filter (λ b, b = false) outcomes))
  ∧ stats_total_downloads stats
    = stats_successful_downloads stats + stats_failed_downloads stats
  ∧ (outcomes = [] → stats_success_rate stats = "N/A")
  ∧ (success_rate_number st = None ↔ outcomes = [])
  ∧ (∀ q, success_rate_number st = Some q →
          stats_success_rate stats = format_f 1%nat q +:+ "%"
          ∧ (0 <= q)%Q ∧ (q <= 100)%Q).
Proof.
  intros st outcomes stats.
  destruct (run_bot_ops_project ops BotState_init BotState_init BotState_init
              BotState_init BotState_init) as (_ & _ & _ & Ht & Hs & Hf);
    try done.
  fold st in Ht, Hs, Hf.
  destruct (increment_stats_count (stats_outcomes ops) (@BotState_init Any))
    as (Ht' & Hs' & Hf').
  fold outcomes in Ht, Hs, Hf, Ht', Hs', Hf'.
  rewrite <- Ht in Ht'. rewrite <- Hs in Hs'. rewrite <- Hf in Hf'.
  simpl in Ht', Hs', Hf'.
  pose proof (filter_true_false_length outcomes) as Hsum.
  assert (success_rate_number st = None ↔ outcomes = []) as Hnone.
  { unfold success_rate_number. rewrite Ht'.
    destruct outcomes; cbn [length]; case_decide; split; try done; lia. }
  subst stats; unfold get_stats; simpl.
  split; [done|]. split; [done|]. split; [done|]. split; [lia|].
  split. { intros Ho. apply Hnone in Ho. by rewrite Ho. }
  split; [done|].
  intros q Hq. rewrite Hq. split; [done|].
  unfold success_rate_number in Hq. destruct (decide _) as [Hpos|]; [|done].
  injection Hq as <-. rewrite Ht', Hs' in *.
  set (s := length (filter (λ b, b = true) outcomes)) in *.
  set (t := length outcomes) in *.
  assert (s ≤ t)%nat as Hle by lia.
  unfold Qle, Qdiv, Qmult, Qinv, inject_Z; simpl.
  destruct (Z.of_nat t) as [|p|p] eqn:Hp; [lia| |lia]. simpl. nia.
Qed.

(** X3.  The parts of [uptime_formatted] add up to the uptime: the numbers,
    each times the length of its unit, sum to [days * 86400 + seconds].
    There is always at least one part; no part is zero, except that a zero
    uptime is the single part "0s"; the units come in the order d, h, m, s,
    each at most once; and with [seconds] inside a day (as [timedelta]
    keeps it) hours are below 24 and minutes and seconds below 60. *)
Theorem uptime_parts_exact (uptime : timedelta) :
  let parts := uptime_parts uptime in
  parts_seconds parts = td_days uptime * 86400 + td_seconds uptime
  ∧ parts ≠ []
  ∧ (Forall (λ p, p.1 ≠ 0) parts ∨ parts = [(0, "s")])
  ∧ parts.*2 `sublist_of` ["d"; "h"; "m"; "s"]
  ∧ (0 ≤ td_seconds uptime < 86400 →
     Forall (λ p, (p.2 = "h" → 0 < p.1 < 24) ∧ (p.2 = "m" → 0 < p.1 < 60)
                  ∧ (p.2 = "s" → 0 ≤ p.1 < 60)) parts).
Proof.
  intros parts. subst parts. unfold uptime_parts, divmod.
  set (days := td_days uptime). set (secs := td_seconds uptime).
  pose proof (Z.div_mod secs 3600 ltac:(lia)) as H1.
  pose proof (Z.mod_pos_bound secs 3600 ltac:(lia)) as B1.
  set (hours := secs `div` 3600) in *. set (rem := secs `mod` 3600) in *.
  pose proof (Z.div_mod rem 60 ltac:(lia)) as H2.
  pose proof (Z.mod_pos_bound rem 60 ltac:(lia)) as B2.
  assert (0 ≤ rem `div` 60 < 60) as B3.
  { split; [apply Z.div_pos; lia|apply Z.div_lt_upper_bound; lia]. }
  set (minutes := rem `div` 60) in *. set (s := rem `mod` 60) in *.
  assert (0 ≤ secs < 86400 → 0 ≤ hours < 24) as B4.
  { intros Hs. subst hours. split; [apply Z.div_pos; lia|].
    apply Z.div_lt_upper_bound; lia. }
  clearbody days secs hours rem minutes s.
  assert (∀ P : Prop, ¬ (s ≠ 0 ∨ P) → s = 0 ∧ ¬ P) as Hneg.
  { intros P HP. split; [|tauto]. destruct (decide (s = 0)); tauto. }
  destruct (decide (days ≠ 0)), (decide (hours ≠ 0)), (decide (minutes ≠ 0));
    cbn [app]; case_decide as Hlast;
    try (apply Hneg in Hlast as [-> Hlast]);
    try (destruct Hlast as [Hlast|Hlast]; [|discriminate Hlast]);
    try done.
  all: split; [unfold parts_seconds, unit_seconds; simpl; lia|].
  all: split; [done|].
  all: split;
    [first [ left; repeat constructor; simpl; lia
           | by right
           | destruct (decide (s = 0)) as [->|];
             [by right|left; repeat constructor; simpl; lia] ]|].
  all: split;
    [simpl; repeat first [ apply sublist_nil | apply sublist_skip
                         | apply sublist_cons ]|].
  all: intros Hs; specialize (B4 Hs); repeat constructor; simpl;
    intros; try done; lia.
Qed.


(** ** The task registry, continued *)

Section RegistryRoundTrips.
Context {Any : Type}.
Implicit Types (st : BotState Any).

Lemma get_user_downloads_ext st st' uid :
  _downloads st' = _downloads st →
  user_task_ids st' uid = user_task_ids st uid →
  get_user_downloads st' uid = get_user_downloads st uid.
Proof. unfold get_user_downloads. by intros -> ->. Qed.

Lemma length_omap_le {A B} (f : A → option B) (l : list A) :
  (length (omap f l) ≤ length l)%nat.
Proof.
  induction l as [|x l IH]; [done|]. rewrite omap_cons_case.
  destruct (f x); cbn [length]; lia.
Qed.

End RegistryRoundTrips.

(** X4.  Adding a task under a fresh ID and removing it again is a round
    trip.  When the ID is neither live nor listed under the owner,
    [add_download] makes [get_download] return the task and raises the
    owner's count and the number of live tasks by one; a following
    [remove_download] of that ID gives back the primary map, every user's
    index and every count as they were, [get_user_downloads] returns the
    same tasks as before for every user (in some order: the set has been
    changed in between), and neither the cache nor the rate lists are
    touched. *)
Theorem add_then_remove_restores {Any : Type} (st : BotState Any)
    (task : DownloadTask) :
  get_download st (task_id task) = None →
  task_id task ∉ user_task_ids st (user_id task) →
  let st1 := add_download st task in
  let st2 := remove_download st1 (task_id task) in
  (get_download st1 (task_id task) = Some task
   ∧ get_user_download_count st1 (user_id task)
     = S (get_user_download_count st (user_id task))
   ∧ get_global_download_count st1 = S (get_global_download_count st))
  ∧ _downloads st2 = _downloads st
  ∧ (∀ tid, get_download st2 tid = get_download st tid)
  ∧ (∀ uid, user_task_ids st2 uid = user_task_ids st uid)
  ∧ (∀ uid, get_user_download_count st2 uid = get_user_download_count st uid)
  ∧ (∀ uid, get_user_downloads st2 uid ≡ₚ get_user_downloads st uid)
  ∧ get_global_download_count st2 = get_global_download_count st
  ∧ _cache st2 = _cache st ∧ _rate_limits st2 = _rate_limits st.
Proof.
  intros Hfresh Hunlisted st1 st2. unfold get_download in *.
  assert (_downloads st1 !! task_id task = Some task) as Hlive.
  { subst st1. by rewrite add_download_downloads, lookup_insert_eq. }
  assert (_downloads st2 = _downloads st) as Hd.
  { subst st2 st1. rewrite remove_download_downloads, add_download_downloads.
    by rewrite delete_insert_id. }
  assert (∀ uid, user_task_ids st2 uid = user_task_ids st uid) as Hi.
  { intros uid. subst st2. rewrite (remove_download_index _ _ task) by done.
    subst st1. rewrite !add_download_index.
    destruct (decide (uid = user_id task)) as [->|]; [|done].
    rewrite decide_True by done. set_solver. }
  split; [split; [done|split]|].
  - unfold get_user_download_count. subst st1. rewrite add_download_index.
    rewrite decide_True by done. rewrite size_union by set_solver.
    rewrite size_singleton. lia.
  - unfold get_global_download_count. subst st1.
    rewrite add_download_downloads. by rewrite map_size_insert_None.
  - split; [done|]. split; [intros tid; by rewrite Hd|]. split; [done|].
    split; [intros uid; unfold get_user_download_count; by rewrite Hi|].
    split; [intros uid; by rewrite (get_user_downloads_ext st st2)|].
    split; [unfold get_global_download_count; by rewrite Hd|].
    subst st2 st1. unfold remove_download. rewrite add_download_downloads.
    by rewrite lookup_insert_eq.
Qed.

Lemma add_then_remove_restores_witness :
  let t1 := new_task "a" 1 10 100 "https://x/1" in
  let t2 := new_task "b" 1 10 101 "https://x/2" in
  let st : BotState unit := add_download BotState_init t1 in
  let st2 := remove_download (add_download st t2) "b" in
  get_download st "b" = None
  ∧ get_download (add_download st t2) "b" = Some t2
  ∧ get_user_download_count (add_download st t2) 1 = 2%nat
  ∧ get_user_downloads st2 1 = [t1]
  ∧ get_user_download_count st2 1 = 1%nat.
Proof.
  intros t1 t2 st st2.
  assert (get_download st (task_id t2) = None) as Hfresh by (by vm_compute).
  assert (task_id t2 ∉ user_task_ids st (user_id t2)) as Hun.
  { apply (bool_decide_unpack _). by vm_compute. }
  destruct (add_then_remove_restores st t2 Hfresh Hun)
    as ((Hget & Hcount & _) & _ & _ & _ & Hc2 & Hlist & _).
  split; [done|]. split; [exact Hget|].
  split; [etrans; [exact Hcount|by vm_compute]|].
  split.
  { assert (get_user_downloads st 1 = [t1]) as Hst by (by vm_compute).
    apply Permutation_singleton_r. rewrite <- Hst. exact (Hlist 1). }
  etrans; [exact (Hc2 1)|by vm_compute].
Defined.

(** X5.  [remove_download tid], in any state: afterwards [get_download tid]
    is [None]; every other ID is live or listed exactly as before; no index
    grows; removing an ID that is not live changes nothing; removing a live
    one takes it out of its owner's index, lowers the number of live tasks
    by one and, when it was listed, the owner's count by one.  Removing
    twice is the same as removing once. *)
Theorem remove_download_effect {Any : Type} (st : BotState Any) (tid : string) :
  let st' := remove_download st tid in
  get_download st' tid = None
  ∧ (∀ tid', tid' ≠ tid → get_download st' tid' = get_download st tid')
  ∧ (∀ uid tid', tid' ≠ tid →
       (tid' ∈ user_task_ids st' uid ↔ tid' ∈ user_task_ids st uid))
  ∧ (∀ uid, user_task_ids st' uid ⊆ user_task_ids st uid)
  ∧ (get_download st tid = None → st' = st)
  ∧ (∀ task, get_download st tid = Some task →
       (tid ∉ user_task_ids st' (user_id task))
       ∧ get_global_download_count st = S (get_global_download_count st')
       ∧ (tid ∈ user_task_ids st (user_id task) →
          get_user_download_count st (user_id task)
          = S (get_user_download_count st' (user_id task))))
  ∧ remove_download st' tid = st'.
Proof.
  intros st'. unfold get_download in *.
  assert (_downloads st' !! tid = None) as Hgone.
  { subst st'. by rewrite remove_download_downloads, lookup_delete_eq. }
  split; [done|]. split.
  { intros tid' Hne. subst st'.
    by rewrite remove_download_downloads, lookup_delete_ne. }
  destruct (_downloads st !! tid) as [task|] eqn:Hd.
  - assert (∀ uid, user_task_ids st' uid
              = if decide (uid = user_id task)
                then user_task_ids st (user_id task) ∖ {[tid]}
                else user_task_ids st uid) as Hi.
    { intros uid. subst st'. by apply remove_download_index. }
    split; [intros uid tid' Hne; rewrite Hi; case_decide; set_solver|].
    split; [intros uid; rewrite Hi; case_decide; set_solver|].
    split; [done|]. split; [|by apply remove_download_absent].
    intros ? [= <-]. split; [rewrite Hi, decide_True by done; set_solver|].
    split.
    + unfold get_global_download_count. subst st'.
      rewrite remove_download_downloads.
      rewrite <- (insert_delete_id (_downloads st) tid task) at 1 by done.
      rewrite map_size_insert_None by apply lookup_delete_eq. done.
    + intros Hin. unfold get_user_download_count.
      rewrite Hi, decide_True by done.
      rewrite size_difference by set_solver. rewrite size_singleton.
      assert (size (user_task_ids st (user_id task)) ≠ 0)%nat; [|lia].
      intros Hz. apply size_empty_inv in Hz. set_solver.
  - assert (st' = st) as -> by (by apply remove_download_absent).
    repeat split; try done. by apply remove_download_absent.
Qed.

(** X6.  In every state reached from the initial one by [add_download],
    [remove_download] and [cancel_user_downloads], [get_user_download_count]
    (which the concurrency limit compares against) is never below the
    number of live tasks the user owns, nor below the length of
    [get_user_downloads]; and every live task is listed in its owner's
    index and returned by [get_user_downloads] for its owner. *)
Theorem index_count_covers_owned_tasks {Any : Type} (ops : list RegistryOp)
    (uid : Z) :
  let st := run_registry_ops (@BotState_init Any) ops in
  (size (owned_tasks st uid) ≤ get_user_download_count st uid)%nat
  ∧ (length (get_user_downloads st uid) ≤ get_user_download_count st uid)%nat
  ∧ (∀ tid task, get_download st tid = Some task → user_id task = uid →
       tid ∈ user_task_ids st uid ∧ task ∈ get_user_downloads st uid).
Proof.
  intros st.
  assert (owner_listed st) as Hol.
  { apply run_registry_ops_owner_listed. intros tid task. simpl.
    by rewrite lookup_empty. }
  assert (∀ tid task, get_download st tid = Some task → user_id task = uid →
            tid ∈ user_task_ids st uid) as Hin.
  { intros tid task Hd <-. by apply Hol. }
  split; [|split].
  - unfold get_user_download_count. rewrite <- size_dom.
    apply subseteq_size. intros tid Htid. apply elem_of_dom in Htid as [t Ht].
    unfold owned_tasks in Ht. apply map_lookup_filter_Some in Ht as [Ht Hu].
    by apply (Hin tid t).
  - unfold get_user_downloads, get_user_download_count.
    apply length_omap_le.
  - intros tid task Hd Hu. split; [by apply (Hin tid task)|].
    unfold get_user_downloads. apply list_elem_of_omap. exists tid.
    split; [|done]. apply elem_of_elements. by apply (Hin tid task).
Qed.

(** ** The TTL cache, continued *)

Section CacheTrace.
Context {Any : Type}.
Implicit Types (st : BotState Any).

Lemma get_cached_lookup_sub st key key' ttl now e :
  _cache (get_cached st key' ttl now).1 !! key = Some e →
  _cache st !! key = Some e.
Proof.
  unfold get_cached. destruct (_cache st !! key') as [[v ts]|] eqn:Hk; [|done].
  destruct (decide _); simpl; [done|].
  intros He. by apply lookup_delete_Some in He as [_ He].
Qed.

(** Every entry of the cache was written by a [set_cached] of the run that
    no later call has overwritten or evicted. *)
Lemma cache_entry_origin (ops : list (CacheOp Any)) :
  ∀ key value stamp,
    _cache (foldl run_cache_op BotState_init ops) !! key = Some (value, stamp) →
    ∃ before after,
      ops = before ++ OpSet key value stamp :: after
      ∧ Forall (leaves_entry key stamp) after.
Proof.
  induction ops as [|op ops IH] using rev_ind; intros key value stamp.
  { simpl. by rewrite lookup_empty. }
  rewrite foldl_app. simpl.
  set (st := foldl run_cache_op BotState_init ops) in *.
  destruct op as [key' value' now'|key' ttl' now']; simpl.
  - destruct (decide (key' = key)) as [->|Hne].
    + rewrite lookup_insert_eq. intros [= <- <-].
      exists ops, []. split; [done|]. by apply Forall_nil.
    + rewrite lookup_insert_ne by done. intros Hk.
      destruct (IH _ _ _ Hk) as (before & after & -> & Hafter).
      exists before, (after ++ [OpSet key' value' now']).
      split; [by rewrite <- app_assoc|].
      apply Forall_app. split; [done|].
      apply Forall_cons. split; [done|]. by apply Forall_nil.
  - intros Hk. pose proof (get_cached_lookup_sub _ _ _ _ _ _ Hk) as Hold.
    destruct (IH _ _ _ Hold) as (before & after & -> & Hafter).
    exists before, (after ++ [OpGet key' ttl' now']).
    split; [by rewrite <- app_assoc|].
    apply Forall_app. split; [done|].
    apply Forall_cons. split; [|by apply Forall_nil]. simpl.
    destruct (decide (key' = key)) as [->|Hne]; [right|by left].
    fold st in Hk, Hold. unfold get_cached in Hk. rewrite Hold in Hk.
    destruct (decide (now' - stamp < ttl')); [done|].
    simpl in Hk. by rewrite lookup_delete_eq in Hk.
Qed.

End CacheTrace.

(** X7.  [get_cached] never returns a value nobody stored, nor an
    overwritten or evicted one.  In the state reached from the initial one
    by any sequence of cache calls, a [get_cached key] that returns a value
    returns the value of a [set_cached key] of the sequence, written less
    than [ttl] before the reading, after which the sequence has no
    [set_cached] of that key and no read of it that found it expired. *)
Theorem get_cached_returns_last_set {Any : Type} (ops : list (CacheOp Any))
    (key : string) (ttl now : Z) (value : Any) :
  (get_cached (foldl run_cache_op BotState_init ops) key ttl now).2
    = Some value →
  ∃ before after stamp,
    ops = before ++ OpSet key value stamp :: after
    ∧ Forall (leaves_entry key stamp) after
    ∧ now - stamp < ttl.
Proof.
  set (st := foldl run_cache_op BotState_init ops).
  unfold get_cached. destruct (_cache st !! key) as [[v ts]|] eqn:Hk; [|done].
  destruct (decide (now - ts < ttl)) as [Hlt|]; [|done].
  simpl. intros [= ->].
  destruct (cache_entry_origin ops key value ts Hk) as (before & after & ? & ?).
  by exists before, after, ts.
Qed.

Lemma get_cached_returns_last_set_witness :
  let ops : list (CacheOp string) :=
    [OpSet "k" "old" 10; OpSet "j" "other" 20; OpSet "k" "new" 30;
     OpGet "k" 300 100; OpGet "j" 5 100] in
  (get_cached (foldl run_cache_op BotState_init ops) "k" 300 200).2
    = Some "new"
  ∧ ∃ before after stamp,
      ops = before ++ OpSet "k" "new" stamp :: after
      ∧ Forall (leaves_entry "k" stamp) after
      ∧ 200 - stamp < 300.
Proof.
  intros ops.
  assert ((get_cached (foldl run_cache_op BotState_init ops) "k" 300 200).2
          = Some "new") as Hget by (by vm_compute).
  split; [done|].
  exact (get_cached_returns_last_set ops "k" 300 200 "new" Hget).
Defined.

(** X8.  A [get_cached] that returns a value changes nothing.  One that
    returns [None] leaves no entry under the key, so every later read of
    the key, with whatever lifetime and at whatever time, returns [None]
    too and changes nothing, until the key is set again.  Either way the
    entries of other keys, the registry and the rate lists are
    untouched. *)
Theorem get_cached_miss_is_final {Any : Type} (st : BotState Any)
    (key : string) (ttl now : Z) :
  let r := get_cached st key ttl now in
  (∀ value, r.2 = Some value → r.1 = st)
  ∧ (r.2 = None →
     _cache r.1 !! key = None
     ∧ ∀ ttl' now', get_cached r.1 key ttl' now' = (r.1, None))
  ∧ (∀ key', key' ≠ key → _cache r.1 !! key' = _cache st !! key')
  ∧ _downloads r.1 = _downloads st
  ∧ _user_downloads r.1 = _user_downloads st
  ∧ _rate_limits r.1 = _rate_limits st.
Proof.
  intros r. subst r. unfold get_cached.
  destruct (_cache st !! key) as [[v ts]|] eqn:Hk.
  - destruct (decide (now - ts < ttl)); simpl.
    + repeat split; try done.
    + split; [done|]. split.
      * intros _. split; [by rewrite lookup_delete_eq|].
        intros ttl' now'. simpl. by rewrite lookup_delete_eq.
      * split; [|done]. intros key' Hne. by rewrite lookup_delete_ne.
  - simpl. split; [done|]. split; [|done].
    intros _. split; [done|]. intros ttl' now'. by rewrite Hk.
Qed.

(** ** The sliding rate window, continued *)

Section RateTrace.
Context {Any : Type}.
Implicit Types (st : BotState Any).

Lemma count_above_sublist c l1 l2 :
  l1 `sublist_of` l2 → (count_above c l1 ≤ count_above c l2)%nat.
Proof.
  unfold count_above. induction 1 as [|x l1 l2 _ IH|x l1 l2 _ IH]; [done| |];
    rewrite !filter_cons; destruct (decide (c < x)); simpl; lia.
Qed.

Lemma run_rate_calls_snoc calls : ∀ st c,
  run_rate_calls st (calls ++ [c])
    = run_rate_calls st calls
      ++ [(c, (check_rate_limit (foldl run_rate_call st calls) (rc_user c)
                 (rc_limit c) (rc_window c) (rc_time c)).2.1)].
Proof.
  induction calls as [|c0 calls IH]; intros st c; simpl; [done|].
  by rewrite IH.
Qed.

(** The list kept for a user holds readings of allowed calls only, in call
    order. *)
Lemma stored_from_allowed uid calls : ∀ st acc,
  (_rate_limits st !!! uid) `sublist_of` acc →
  (_rate_limits (foldl run_rate_call st calls) !!! uid)
    `sublist_of` (acc ++ allowed_times uid (run_rate_calls st calls)).
Proof.
  induction calls as [|c calls IH]; intros st acc Hsub.
  { simpl. unfold allowed_times. simpl. by rewrite app_nil_r. }
  cbn [foldl run_rate_calls]. unfold run_rate_call at 2.
  pose proof (check_rate_limit_window st (rc_user c) (rc_limit c)
                (rc_window c) (rc_time c)) as [Hl Hok].
  set (r := check_rate_limit st (rc_user c) (rc_limit c) (rc_window c)
              (rc_time c)) in *.
  unfold allowed_times. rewrite filter_cons. simpl.
  destruct (decide (rc_user c = uid)) as [Hu|Hu].
  - rewrite Hu in Hl, Hok. destruct (r.2.1) eqn:Hallowed.
    + rewrite decide_True by done. rewrite fmap_cons. simpl.
      rewrite (cons_middle (rc_time c)), app_assoc. apply IH.
      symmetry in Hok. apply window_step_allowed in Hok as [_ Hnew].
      rewrite Hl, Hnew. apply sublist_app; [|done].
      etrans; [apply sublist_filter|done].
    + rewrite decide_False by (intros [? _]; congruence). apply IH.
      symmetry in Hok. apply window_step_denied in Hok.
      rewrite Hl, Hok. etrans; [apply sublist_filter|done].
  - rewrite decide_False by (intros [_ ?]; congruence). apply IH.
    assert (_rate_limits r.1 !!! uid = _rate_limits st !!! uid) as ->; [|done].
    rewrite !lookup_total_alt. unfold r. by rewrite check_rate_limit_other.
Qed.

Lemma stored_from_allowed_init uid calls :
  (_rate_limits (foldl run_rate_call (@BotState_init Any) calls) !!! uid)
    `sublist_of` allowed_times uid (run_rate_calls (@BotState_init Any) calls).
Proof.
  apply (stored_from_allowed uid calls BotState_init []).
  simpl. by rewrite lookup_total_empty.
Qed.

Lemma allowed_times_call_times uid calls : ∀ st t,
  t ∈ allowed_times uid (run_rate_calls st calls) → t ∈ call_times uid calls.
Proof.
  induction calls as [|c calls IH]; intros st t; [done|].
  cbn [run_rate_calls]. unfold allowed_times, call_times.
  rewrite !filter_cons. simpl.
  destruct (decide (_ ∧ rc_user c = uid)) as [[_ Hu]|Hn].
  - rewrite decide_True by done. rewrite !fmap_cons. simpl.
    intros [->|Ht]%elem_of_cons; [by left|]. right. by apply (IH _ _ Ht).
  - intros Ht. apply IH in Ht. unfold call_times in Ht.
    destruct (decide (rc_user c = uid)); [by right|done].
Qed.

Lemma filter_none {A} (P : A → Prop) `{∀ x, Decision (P x)} (l : list A) :
  (∀ x, x ∈ l → ¬ P x) → filter P l = [].
Proof.
  induction l as [|x l IH]; intros Hl; [done|].
  rewrite filter_cons, decide_False by (apply Hl; by left).
  apply IH. intros y Hy. apply Hl. by right.
Qed.

End RateTrace.

(** X9.  [check_rate_limit] turns a call down only when the window is
    full.  After any sequence of calls from the initial state, a call that
    returns [allowed = False] has at least [limit] earlier calls of the same
    user that were allowed and whose readings are newer than
    [now - window]. *)
Theorem rate_limit_denial_justified {Any : Type} (before : list RateCall)
    (c : RateCall) :
  let log := run_rate_calls (@BotState_init Any) before in
  let r := check_rate_limit (foldl run_rate_call (@BotState_init Any) before)
             (rc_user c) (rc_limit c) (rc_window c) (rc_time c) in
  run_rate_calls (@BotState_init Any) (before ++ [c]) = log ++ [(c, r.2.1)]
  ∧ (r.2.1 = false →
     rc_limit c
     ≤ Z.of_nat (count_above (rc_time c - rc_window c)
                   (allowed_times (rc_user c) log))).
Proof.
  intros log r. split; [apply run_rate_calls_snoc|].
  set (st := foldl run_rate_call (@BotState_init Any) before) in *.
  pose proof (check_rate_limit_window st (rc_user c) (rc_limit c)
                (rc_window c) (rc_time c)) as [_ Hok].
  fold r in Hok. unfold window_step in Hok.
  pose proof (stored_from_allowed_init (Any := Any) (rc_user c) before) as Hsub.
  fold st in Hsub. fold log in Hsub.
  apply (count_above_sublist (rc_time c - rc_window c)) in Hsub.
  unfold count_above in *.
  destruct (decide _) as [Hlt|Hge]; simpl in Hok; rewrite Hok;
    [done|]. intros _. lia.
Qed.

(** X10.  A user who has been quiet for a window is let through again.
    When the limit is positive and every earlier call of the user has a
    reading of at most [now - window], the call returns
    [(True, limit - 1)], whatever those earlier calls returned, and the
    user's list afterwards holds the new reading alone. *)
Theorem rate_limit_recovers {Any : Type} (before : list RateCall)
    (c : RateCall) :
  0 < rc_limit c →
  Forall (λ c', rc_user c' = rc_user c →
                rc_time c' ≤ rc_time c - rc_window c) before →
  let r := check_rate_limit (foldl run_rate_call (@BotState_init Any) before)
             (rc_user c) (rc_limit c) (rc_window c) (rc_time c) in
  r.2 = (true, rc_limit c - 1)
  ∧ _rate_limits r.1 !!! rc_user c = [rc_time c]
  ∧ last (run_rate_calls (@BotState_init Any) (before ++ [c])) = Some (c, true).
Proof.
  intros Hlimit Hquiet r.
  set (st := foldl run_rate_call (@BotState_init Any) before) in *.
  assert (filter (λ ts, rc_time c - rc_window c < ts)
            (_rate_limits st !!! rc_user c) = []) as Hkept.
  { apply filter_none. intros ts Hts.
    pose proof (stored_from_allowed_init (Any := Any) (rc_user c) before)
      as Hsub. fold st in Hsub.
    apply (elem_of_sublist _ _ _ Hts) in Hsub.
    apply allowed_times_call_times in Hsub. unfold call_times in Hsub.
    apply list_elem_of_fmap in Hsub as (c' & -> & Hc').
    apply list_elem_of_filter in Hc' as [Hu Hc'].
    rewrite Forall_forall in Hquiet. specialize (Hquiet c' Hc' Hu). lia. }
  assert (r.2 = (true, rc_limit c - 1)
          ∧ _rate_limits r.1 !!! rc_user c = [rc_time c]) as [Hr Hl].
  { subst r. unfold check_rate_limit. simpl.
    rewrite !lookup_total_insert_eq, Hkept. simpl.
    rewrite decide_True by lia. simpl.
    rewrite lookup_total_insert_eq. split; [f_equal; lia|done]. }
  split; [done|]. split; [done|].
  rewrite run_rate_calls_snoc, last_snoc. fold st. fold r. by rewrite Hr.
Qed.

Lemma rate_limit_recovers_witness :
  let before := [mkRateCall 7 2 10 100; mkRateCall 7 2 10 101;
                 mkRateCall 7 2 10 102; mkRateCall 8 5 10 111] in
  run_rate_calls (@BotState_init unit) before
    = zip before [true; true; false; true]
  ∧ last (run_rate_calls (@BotState_init unit)
            (before ++ [mkRateCall 7 2 10 112]))
    = Some (mkRateCall 7 2 10 112, true).
Proof.
  intros before. split; [by vm_compute|].
  apply (rate_limit_recovers (Any := unit) before (mkRateCall 7 2 10 112)).
  - simpl. lia.
  - repeat (apply Forall_cons; split); try (by apply Forall_nil); simpl; lia.
Defined.

(** ** The decorators of the message handlers *)

Lemma filter_all {A} (P : A → Prop) `{∀ x, Decision (P x)} (l : list A) :
  (∀ x, x ∈ l → P x) → filter P l = l.
Proof.
  induction l as [|x l IH]; intros Hl; [done|].
  rewrite filter_cons, decide_True by (apply Hl; by left).
  f_equal. apply IH. intros y Hy. apply Hl. by right.
Qed.

Module GateFacts.
Import Gate.

Section WithEnvironment.
Context {Any R : Type}.
Context (config : BotConfig) (get_user : Z → option UserData) (day : Z).
Implicit Types (st : BotState Any) (func : Handler (Any := Any) (R := R)).

(** [rate_limit_check] in terms of the state before the call: the count of
    active downloads is not changed by [check_rate_limit]. *)
Lemma rate_limit_check_cases func uid now st :
  let daily := (limits_of config get_user uid).1 in
  let concurrent := (limits_of config get_user uid).2 in
  let r := check_rate_limit st uid daily day now in
  let active := get_user_download_count st uid in
  rate_limit_check config get_user day func uid now st
  = if negb r.2.1 then (r.1, Replied (rate_limit_reply daily))
    else if decide (concurrent ≤ Z.of_nat active)
         then (r.1, Replied (concurrent_limit_reply active concurrent))
         else func uid now r.1.
Proof.
  cbv zeta. unfold rate_limit_check.
  destruct (limits_of config get_user uid) as [daily concurrent].
  cbn [fst snd].
  assert (get_user_download_count
            (check_rate_limit st uid daily day now).1 uid
          = get_user_download_count st uid) as Hact.
  { unfold get_user_download_count, user_task_ids.
    by destruct (check_rate_limit_frame st uid daily day now)
      as (_ & -> & _). }
  destruct (check_rate_limit st uid daily day now)
    as [st1 [allowed remaining]].
  simpl in *. destruct allowed; simpl; [|done]. by rewrite Hact.
Qed.

(** A run of messages inside one window, all sent while the sender is at
    the concurrency limit. *)
Lemma run_blocked_messages func uid (t0 : Z) (active : nat) times : ∀ st,
  let daily := (limits_of config get_user uid).1 in
  let concurrent := (limits_of config get_user uid).2 in
  get_user_download_count st uid = active →
  concurrent ≤ Z.of_nat active →
  Forall (λ ts, t0 ≤ ts) (_rate_limits st !!! uid) →
  Forall (λ t, t0 ≤ t < t0 + day) times →
  let left_over :=
    Z.to_nat (daily - Z.of_nat (length (_rate_limits st !!! uid))) in
  (run_messages (rate_limit_check config get_user day func) uid times st).2
  = replicate (length times `min` left_over)
      (Replied (concurrent_limit_reply active concurrent))
    ++ replicate (length times - left_over)
         (Replied (rate_limit_reply daily)).
Proof.
  induction times as [|t times IH];
    intros st daily concurrent Hact Hcap Hl Ht left_over; [done|].
  apply Forall_cons in Ht as [Ht Htimes].
  cbn [run_messages]. rewrite rate_limit_check_cases.
  fold daily. fold concurrent. rewrite Hact.
  set (l := _rate_limits st !!! uid) in *.
  assert (filter (λ ts, t - day < ts) l = l) as Hkept.
  { apply filter_all. intros ts Hts. rewrite Forall_forall in Hl.
    specialize (Hl ts Hts). lia. }
  destruct (check_rate_limit_window st uid daily day t) as [Hl' Hr].
  destruct (check_rate_limit_frame st uid daily day t) as (_ & Hud & _).
  unfold window_step in Hl', Hr. fold l in Hl', Hr.
  rewrite Hkept in Hl', Hr.
  set (r := check_rate_limit st uid daily day t) in *.
  assert (get_user_download_count r.1 uid = active) as Hact'.
  { unfold get_user_download_count, user_task_ids. by rewrite Hud. }
  destruct (decide (Z.of_nat (length l) < daily)) as [Hlt|Hge];
    cbn [fst snd] in Hl', Hr; rewrite Hr; simpl.
  - rewrite decide_True by done. simpl.
    assert (Forall (λ ts, t0 ≤ ts) (_rate_limits r.1 !!! uid)) as HF.
    { rewrite Hl'. apply Forall_app. split; [done|].
      apply Forall_cons. split; [lia|by apply Forall_nil]. }
    pose proof (IH r.1 Hact' Hcap HF Htimes) as Hrec. cbv zeta in Hrec.
    rewrite Hrec, Hl'.
    assert (left_over
            = S (Z.to_nat (daily - Z.of_nat (length (l ++ [t]))))) as ->.
    { subst left_over. rewrite length_app. simpl. lia. }
    done.
  - assert (Forall (λ ts, t0 ≤ ts) (_rate_limits r.1 !!! uid)) as HF
      by (by rewrite Hl').
    pose proof (IH r.1 Hact' Hcap HF Htimes) as Hrec. cbv zeta in Hrec.
    rewrite Hrec, Hl'. fold daily. fold left_over.
    assert (left_over = 0)%nat as -> by (subst left_over; lia).
    by rewrite !Nat.min_0_r, !Nat.sub_0_r.
Qed.

(** X11.  A message that [rate_limit_check] turns down for the concurrency
    limit has used up one of the sender's daily calls.  Take a sender with
    no recorded calls who stays at the concurrency limit, and any number
    of messages inside one window.  The first [daily_limit] of them are
    answered with "errors.concurrent_limit", all later ones with
    "errors.rate_limit", and the handler never runs. *)
Theorem blocked_messages_use_up_daily_limit func uid (t0 : Z)
    (times : list Z) st :
  let daily := (limits_of config get_user uid).1 in
  let concurrent := (limits_of config get_user uid).2 in
  let active := get_user_download_count st uid in
  concurrent ≤ Z.of_nat active →
  _rate_limits st !!! uid = [] →
  Forall (λ t, t0 ≤ t < t0 + day) times →
  (run_messages (rate_limit_check config get_user day func) uid times st).2
  = replicate (length times `min` Z.to_nat daily)
      (Replied (concurrent_limit_reply active concurrent))
    ++ replicate (length times - Z.to_nat daily)
         (Replied (rate_limit_reply daily)).
Proof.
  intros daily concurrent active Hcap Hempty Htimes.
  pose proof (run_blocked_messages func uid t0 active times st eq_refl Hcap)
    as Hrun.
  rewrite Hempty in Hrun. simpl in Hrun.
  rewrite Z.sub_0_r in Hrun. apply Hrun; [by apply Forall_nil|done].
Qed.

(** X12.  The order of the checks in front of [url_handler].  During
    maintenance everyone but the owner gets "errors.maintenance"; then a
    banned sender gets "errors.banned"; in both cases the state, the rate
    lists included, is untouched.  Only then is the call counted by
    [check_rate_limit]: a sender over the daily limit gets
    "errors.rate_limit", one at the concurrency limit gets
    "errors.concurrent_limit" with the call already recorded, and
    otherwise the handler runs on the state with the call recorded.  The
    handler runs in no other case. *)
Theorem url_handler_gate_order
    (url_handler : Handler (Any := Any) (R := R)) uid now st :
  let res := url_handler_gate config get_user day url_handler uid now st in
  let daily := (limits_of config get_user uid).1 in
  let concurrent := (limits_of config get_user uid).2 in
  let r := check_rate_limit st uid daily day now in
  let active := get_user_download_count st uid in
  let closed := maintenance_mode config && negb (is_owner uid config) in
  let banned :=
    match get_user uid with Some u => is_banned u | None => false end in
  (closed = true →
   res.1 = st
   ∧ res.2 = Replied (mkReply "errors.maintenance"
                        [("message",
                          Hook.PyStr (maintenance_message config))]))
  ∧ (closed = false → banned = true →
     res.1 = st ∧ ∃ kwargs, res.2 = Replied (mkReply "errors.banned" kwargs))
  ∧ (closed = false → banned = false → r.2.1 = false →
     res = (r.1, Replied (rate_limit_reply daily)))
  ∧ (closed = false → banned = false → r.2.1 = true →
     concurrent ≤ Z.of_nat active →
     res = (r.1, Replied (concurrent_limit_reply active concurrent))
     ∧ now ∈ _rate_limits res.1 !!! uid)
  ∧ (closed = false → banned = false → r.2.1 = true →
     Z.of_nat active < concurrent →
     res = url_handler uid now r.1)
  ∧ (∀ x, res.2 = Ran x →
     closed = false ∧ banned = false ∧ r.2.1 = true
     ∧ Z.of_nat active < concurrent ∧ res = url_handler uid now r.1).
Proof.
  intros res daily concurrent r active closed banned.
  pose proof (rate_limit_check_cases url_handler uid now st) as Hrl.
  cbv zeta in Hrl. fold daily concurrent r active in Hrl.
  assert (r.2.1 = true → now ∈ _rate_limits r.1 !!! uid) as Hslot.
  { intros Hallowed.
    destruct (check_rate_limit_window st uid daily day now) as [Hl Hok].
    fold r in Hl, Hok. rewrite Hallowed in Hok. symmetry in Hok.
    apply window_step_allowed in Hok as [_ Hnew]. rewrite Hl, Hnew.
    set_solver. }
  subst res. unfold url_handler_gate, maintenance_check, check_banned.
  subst closed banned. unfold is_owner in *.
  destruct (maintenance_mode config), (bool_decide _); simpl;
    destruct (get_user uid) as [[vip [] reason]|]; simpl;
    rewrite ?Hrl; destruct (r.2.1); simpl;
    try destruct (decide (concurrent ≤ Z.of_nat active));
    repeat split; try done; try lia; try (intros; lia);
    try (intros; by eexists); try (intros; by apply Hslot);
    try (intros x Hx; by rewrite ?Hrl in Hx).
Qed.

End WithEnvironment.

Lemma blocked_messages_use_up_daily_limit_witness :
  let st : BotState unit :=
    add_download BotState_init (new_task "a" 7 70 700 "https://x/1") in
  let handler : Handler (Any := unit) (R := unit) :=
    λ _ _ st, (st, Ran ()) in
  let gate := rate_limit_check example_config (λ _, None) 86400 handler in
  (run_messages gate 7 [100; 200; 300; 400; 500] st).2
  = [Replied (concurrent_limit_reply 1 1);
     Replied (concurrent_limit_reply 1 1);
     Replied (concurrent_limit_reply 1 1);
     Replied (rate_limit_reply 3); Replied (rate_limit_reply 3)].
Proof.
  intros st handler gate.
  etrans.
  - apply (blocked_messages_use_up_daily_limit example_config (λ _, None)
             86400 handler 7 100 [100; 200; 300; 400; 500] st).
    + by vm_compute.
    + by vm_compute.
    + repeat (apply Forall_cons; split); try (by apply Forall_nil); lia.
  - by vm_compute.
Defined.

End GateFacts.

(** ** The cancel button *)

Module CallbacksFacts.
Import Callbacks.



End CallbacksFacts.

(** ** Runs of the progress tracker *)

Module TrackerRunFacts.
Import Tracker TrackerRuns TrackerFacts.

Section WithLocalization.
Context `{Localization}.
Implicit Types (tr : ProgressTracker) (a : UpdateArgs).

(** [update] never changes the interval, and a call without [force] gets
    an edit through only when the interval has passed. *)

Lemma update_interval_kept tr a now answer :
  _update_interval (update tr a now answer).1 = _update_interval tr.
Proof. by destruct (update_result tr a now answer) as [-> | ->]. Qed.

Lemma update_delivered_after_interval tr a now answer :
  kw_force a = false →
  delivered (update tr a now answer).2 answer ≠ [] →
  _update_interval tr ≤ now - _last_update tr.
Proof.
  intros Hforce. unfold update. rewrite Hforce. simpl.
  destruct (bool_decide _) eqn:Hb; [by destruct answer|].
  apply bool_decide_eq_false in Hb. simpl in Hb. lia.
Qed.

Lemma debounce_spacing_from (calls : list UpdateCall) : ∀ tr,
  Forall (λ c, kw_force (uc_args c) = false) calls →
  spaced (_update_interval tr) (_last_update tr :: delivery_times tr calls).
Proof.
  induction calls as [|c calls IH]; intros tr Hcalls; [done|].
  apply Forall_cons in Hcalls as [Hc Hcalls]. cbn [delivery_times].
  pose proof (update_markers tr (uc_args c) (uc_time c) (uc_answer c)) as Hm.
  pose proof (update_interval_kept tr (uc_args c) (uc_time c) (uc_answer c))
    as Hi.
  pose proof (update_delivered_after_interval tr (uc_args c) (uc_time c)
                (uc_answer c) Hc) as Hd.
  set (r := update tr (uc_args c) (uc_time c) (uc_answer c)) in *.
  specialize (IH r.1 Hcalls). rewrite Hi in IH.
  destruct Hm as [(Hnone & _ & Hlast)|(Hsome & _ & Hlast)].
  - rewrite decide_True by done. simpl. by rewrite Hlast in IH.
  - rewrite decide_False by (by rewrite Hsome). simpl.
    rewrite Hlast in IH. split; [|done]. apply Hd. by rewrite Hsome.
Qed.

(** X14.  Edits that reach the chat are at least [_update_interval] apart.
    In any run of [update] calls without [force], on any tracker and with
    any clock readings and client answers, the readings of the calls whose
    edit was delivered, with [_last_update] of the starting tracker in
    front, are pairwise at least the interval apart.  The interval never
    changes, and [_last_update] ends as the reading of the last delivered
    edit (or as it started when none was). *)
Theorem debounce_spacing tr (calls : list UpdateCall) :
  Forall (λ c, kw_force (uc_args c) = false) calls →
  spaced (_update_interval tr) (_last_update tr :: delivery_times tr calls)
  ∧ _update_interval (run_updates tr calls).1 = _update_interval tr
  ∧ _last_update (run_updates tr calls).1
    = default (_last_update tr) (last (delivery_times tr calls)).
Proof.
  intros Hcalls. split; [by apply debounce_spacing_from|]. clear Hcalls.
  revert tr. induction calls as [|c calls IH]; intros tr; [done|].
  cbn [run_updates delivery_times]. simpl.
  pose proof (update_markers tr (uc_args c) (uc_time c) (uc_answer c)) as Hm.
  pose proof (update_interval_kept tr (uc_args c) (uc_time c) (uc_answer c))
    as Hi.
  set (r := update tr (uc_args c) (uc_time c) (uc_answer c)) in *.
  destruct (IH r.1) as [IH1 IH2]. rewrite IH1, IH2, Hi. split; [done|].
  destruct Hm as [(Hnone & _ & Hlast)|(Hsome & _ & Hlast)].
  - rewrite decide_True by done. simpl. by rewrite Hlast.
  - rewrite decide_False by (by rewrite Hsome). rewrite Hlast.
    rewrite last_app. simpl. by destruct (last (delivery_times r.1 calls)).
Qed.

(** Outside a transfer the message depends on the status alone: all
    statuses but MERGING share one text. *)
Lemma format_status_only tr tr' :
  shows_numbers (status tr) = false →
  shows_numbers (status tr') = false →
  lang_code tr = lang_code tr' →
  (status tr = MERGING ↔ status tr' = MERGING) →
  _format_progress_message tr = _format_progress_message tr'.
Proof.
  intros H1 H2 Hl Hm. unfold _format_progress_message. rewrite Hl.
  destruct (decide (lang_code tr' = "fa"));
    destruct (status tr), (status tr'); try done;
    destruct Hm as [Hm1 Hm2]; try (by specialize (Hm1 eq_refl));
    by specialize (Hm2 eq_refl).
Qed.

(** X15.  Outside a transfer the numbers are not shown, so a change of
    the numbers alone sends nothing.  After an [update] whose edit was
    delivered and that left a status other than DOWNLOADING and UPLOADING,
    a following [update] that leaves such a status again (and stays on the
    same side of MERGING) issues no edit, forced or not, whatever numbers
    it brings, and leaves [_last_text] and [_last_update] as they were. *)
Theorem update_silent_outside_transfer tr (a1 a2 : UpdateArgs)
    (now1 now2 : Z) (answer1 answer2 : EditResult) :
  let r1 := update tr a1 now1 answer1 in
  let r2 := update r1.1 a2 now2 answer2 in
  delivered r1.2 answer1 ≠ [] →
  shows_numbers (status r1.1) = false →
  shows_numbers (status r2.1) = false →
  (status r1.1 = MERGING ↔ status r2.1 = MERGING) →
  r2.2 = [] ∧ _last_text r2.1 = _last_text r1.1
  ∧ _last_update r2.1 = _last_update r1.1.
Proof.
  intros r1 r2 Hd Hs1 Hs2 Hm.
  pose proof (update_markers tr a1 now1 answer1) as Hmark.
  fold r1 in Hmark. destruct Hmark as [(Hnone & _)|(_ & Htext & _)]; [done|].
  assert (_format_progress_message (merge_fields r1.1 a2) = _last_text r1.1)
    as Hsame.
  { rewrite Htext.
    pose proof (update_display tr a1 now1 answer1) as Hd1. fold r1 in Hd1.
    rewrite <- (format_display _ _ Hd1).
    pose proof (update_display r1.1 a2 now2 answer2) as Hd2. fold r2 in Hd2.
    rewrite <- (format_display _ _ Hd2).
    apply format_status_only; try done. subst r2.
    by destruct (update_result r1.1 a2 now2 answer2) as [-> | ->]. }
  destruct (update_same_as_last r1.1 a2 now2 answer2 Hsame) as [He Hr].
  fold r2 in He, Hr. by rewrite He, Hr.
Qed.

End WithLocalization.

Lemma debounce_spacing_witness :
  let calls :=
    [mkUpdateCall (progress_only 10 false) 5000 EditOk;
     mkUpdateCall (progress_only 20 false) 5100 EditOk;
     mkUpdateCall (progress_only 30 false) 7000 OtherException;
     mkUpdateCall (progress_only 40 false) 7100 EditOk;
     mkUpdateCall (progress_only 50 false) 9000 EditOk] in
  delivery_times (H := plain_localization) downloading_tracker calls
    = [5000; 7100]
  ∧ spaced 2000 (0 :: delivery_times (H := plain_localization)
                        downloading_tracker calls).
Proof.
  intros calls. split; [by vm_compute|].
  apply (debounce_spacing (H := plain_localization) downloading_tracker calls).
  repeat (apply Forall_cons; split); try done; by apply Forall_nil.
Defined.

Lemma update_silent_outside_transfer_witness :
  let merging (p : Q) (force : bool) :=
    {| kw_status := Some MERGING; kw_progress := Some p;
       kw_downloaded_bytes := None; kw_total_bytes := None;
       kw_speed := None; kw_eta := None; kw_force := force |} in
  let r1 := update (H := plain_localization) downloading_tracker
              (merging 100%Q true) 5000 EditOk in
  let r2 := update (H := plain_localization) r1.1 (progress_only 55 true)
              9000 EditOk in
  length (edits r1.2) = 1%nat ∧ r2.2 = [] ∧ progress r2.1 = 55%Q.
Proof.
  intros merging r1 r2. split; [by vm_compute|]. split; [|by vm_compute].
  apply (update_silent_outside_transfer (H := plain_localization)
           downloading_tracker (merging 100%Q true) (progress_only 55 true)
           5000 9000 EditOk EditOk); by vm_compute.
Defined.

End TrackerRunFacts.

(** ** The hook and the tracker together *)

Module HookTrackerFacts.
Import Hook.

(** [x or 0] of a value that is no string is a number. *)
Lemma py_or_number (v : PyVal) :
  (∀ s, v ≠ PyStr s) → ∃ q, py_or v (PyNum 0) = PyNum q.
Proof.
  intros Hv. destruct v as [|q|s]; [by exists 0%Q| |by destruct (Hv s)].
  unfold py_or. simpl. destruct (truthy_num q); by eexists.
Qed.

Section WithLocalization.
Context {loc : Localization} {fl : FloatArith}.

Lemma format_merging (tr : Tracker.ProgressTracker) :
  Tracker.status tr = MERGING →
  Tracker._format_progress_message tr
  = get_text "download.merging" (Tracker.lang_code tr) [].
Proof.
  intros Hs. unfold Tracker._format_progress_message. rewrite Hs.
  by destruct (decide (Tracker.lang_code tr = "fa")).
Qed.

(** X18.  What an event of the download engine makes of the tracker, hook
    and [update] together.  A "finished" event sets the status to MERGING
    and the progress to 100, keeps the other numbers, and (being forced)
    issues the text "download.merging" unless it is the text already
    shown.  A "downloading" event whose numbers are numbers sets the status
    to DOWNLOADING, the progress to the float product of the float
    quotient [downloaded / total] and 100 (to 0 when [total] is not
    positive) and the four numbers to those of the event, with a missing,
    [None] or zero speed or ETA read as 0; it is never forced. *)
Theorem hook_event_reaches_tracker (d : gmap string PyVal)
    (tr : Tracker.ProgressTracker) (now : Z) (answer : Tracker.EditResult) :
  (py_get d "status" PyNone = PyStr "finished" →
   ∃ c args,
     __call__ d = Returns [RunCoroutineThreadsafe c]
     ∧ to_update_args c = Some args
     ∧ let r := Tracker.update tr args now answer in
       let text := get_text "download.merging" (Tracker.lang_code tr) [] in
       Tracker.snapshot r.1
       = (MERGING, 100%Q, Tracker.downloaded_bytes tr, Tracker.total_bytes tr,
          Tracker.speed tr, Tracker.eta tr)
       ∧ Tracker.edits r.2
         = if decide (text = Tracker._last_text tr) then [] else [text])
  ∧ (py_get d "status" PyNone = PyStr "downloading" →
     ∀ dl tot,
       py_get d "downloaded_bytes" (PyNum 0) = PyNum dl →
       event_total d = PyNum tot →
       (∀ s, py_get d "speed" (PyNum 0) ≠ PyStr s) →
       (∀ s, py_get d "eta" (PyNum 0) ≠ PyStr s) →
       ∃ c args sp et,
         __call__ d = Returns [RunCoroutineThreadsafe c]
         ∧ to_update_args c = Some args
         ∧ py_or (py_get d "speed" (PyNum 0)) (PyNum 0) = PyNum sp
         ∧ py_or (py_get d "eta" (PyNum 0)) (PyNum 0) = PyNum et
         ∧ Tracker.kw_force args = false
         ∧ Tracker.snapshot (Tracker.update tr args now answer).1
           = (DOWNLOADING,
              if Qlt_le_dec 0 tot then float_mul (float_div dl tot) 100
              else 0%Q,
              dl, tot, sp, et)).
Proof.
  split.
  - intros Hst. eexists _, _. split; [|split].
    + unfold __call__. rewrite Hst. simpl. reflexivity.
    + reflexivity.
    + simpl. split.
      * by destruct (TrackerFacts.update_result tr
             {| Tracker.kw_status := Some MERGING;
                Tracker.kw_progress := Some 100%Q;
                Tracker.kw_downloaded_bytes := None;
                Tracker.kw_total_bytes := None;
                Tracker.kw_speed := None; Tracker.kw_eta := None;
                Tracker.kw_force := true |} now answer) as [-> | ->].
      * unfold Tracker.update. cbv zeta. cbn [Tracker.kw_force negb andb].
        rewrite format_merging by done.
        cbn [Tracker.merge_fields Tracker.lang_code Tracker._last_text].
        destruct (decide _); [done|]. by destruct answer.
  - intros Hst dl tot Hdl Htot Hsp Het.
    destruct (py_or_number _ Hsp) as [sp Hsp'].
    destruct (py_or_number _ Het) as [et Het'].
    unfold __call__. rewrite Hst, Htot, Hdl, Hsp', Het'. simpl.
    destruct (Qlt_le_dec 0 tot); eexists _, _, sp, et;
      (split; [reflexivity|]); (split; [reflexivity|]);
      (split; [done|]); (split; [done|]); (split; [done|]);
      match goal with
      | |- context [Tracker.update tr ?a now answer] =>
          by destruct (TrackerFacts.update_result tr a now answer)
               as [-> | ->]
      end.
Qed.

End WithLocalization.

Lemma hook_event_reaches_tracker_witness :
  let d : gmap string PyVal :=
    {[ "status" := PyStr "downloading"; "downloaded_bytes" := PyNum 1000;
       "total_bytes" := PyNum 4000; "speed" := PyNum 250;
       "eta" := PyNone ]} in
  ∃ c args,
    __call__ (H := exact_arith) d = Returns [RunCoroutineThreadsafe c]
    ∧ to_update_args c = Some args
    ∧ Tracker.snapshot
        (Tracker.update (H := Tracker.plain_localization)
           Tracker.downloading_tracker args 5000 Tracker.EditOk).1
      = (DOWNLOADING, (1000 / 4000 * 100)%Q, 1000%Q, 4000%Q, 250%Q, 0%Q).
Proof.
  intros d.
  destruct (hook_event_reaches_tracker (loc := Tracker.plain_localization)
              (fl := exact_arith) d Tracker.downloading_tracker 5000
              Tracker.EditOk) as [_ Hdl].
  destruct (Hdl eq_refl 1000%Q 4000%Q eq_refl eq_refl)
    as (c & args & sp & et & Hc & Ha & Hsp & Het & _ & Hsnap).
  - intros s. by vm_compute.
  - intros s. by vm_compute.
  - exists c, args. split; [done|]. split; [done|].
    rewrite Hsnap. injection Hsp as <-. injection Het as <-. done.
Defined.

Lemma downloading_total_not_a_number_witness :
  let d : gmap string PyVal :=
    {[ "status" := PyStr "downloading"; "downloaded_bytes" := PyNum 2048;
       "total_bytes" := PyNone; "total_bytes_estimate" := PyNone;
       "speed" := PyNum 100; "eta" := PyNone ]} in
  py_get d "status" PyNone = PyStr "downloading"
  ∧ event_total d = PyNone
  ∧ __call__ (H := exact_arith) d = Raises TypeError.
Proof.
  intros d. split; [by vm_compute|]. split; [by vm_compute|].
  apply (HookFacts.downloading_total_not_a_number (H := exact_arith) d);
    [by vm_compute|].
  intros tot. by vm_compute.
Defined.

End HookTrackerFacts.

(** ** Text helpers *)

Module UtilsFacts.
Import Utils.

(** *** Digits *)

Lemma replace_app s1 s2 old new :
  replace (s1 ++ s2) old new = replace s1 old new ++ replace s2 old new.
Proof. unfold replace. by rewrite bind_app. Qed.

Lemma replace_nil old new : replace [] old new = [].
Proof. done. Qed.

(** A run of replacements works on each character separately. *)
Lemma foldl_replace_app {A} (f : A → N * str) (reps : list A) : ∀ s1 s2,
  foldl (λ r x, replace r (f x).1 (f x).2) (s1 ++ s2) reps
  = foldl (λ r x, replace r (f x).1 (f x).2) s1 reps
    ++ foldl (λ r x, replace r (f x).1 (f x).2) s2 reps.
Proof.
  induction reps as [|x reps IH]; intros s1 s2; simpl; [done|].
  by rewrite replace_app, IH.
Qed.

Lemma foldl_replace_nil {A} (f : A → N * str) (reps : list A) :
  foldl (λ r x, replace r (f x).1 (f x).2) [] reps = [].
Proof.
  induction reps as [|x reps IH]; cbn [foldl]; [done|].
  by rewrite replace_nil.
Qed.

Lemma foldl_replace_bind {A} (f : A → N * str) (reps : list A) (s : str) :
  foldl (λ r x, replace r (f x).1 (f x).2) s reps
  = s ≫= λ c, foldl (λ r x, replace r (f x).1 (f x).2) [c] reps.
Proof.
  induction s as [|c s IH]; [by rewrite foldl_replace_nil|].
  change (c :: s) with ([c] ++ s) at 1.
  rewrite foldl_replace_app, IH. done.
Qed.

Lemma foldl_replace_other {A} (f : A → N * str) (reps : list A) (c : N) :
  Forall (λ x, (f x).1 ≠ c) reps →
  foldl (λ r x, replace r (f x).1 (f x).2) [c] reps = [c].
Proof.
  induction reps as [|x reps IH]; intros Hreps; [done|].
  apply Forall_cons in Hreps as [Hx Hreps]. cbn [foldl].
  assert (replace [c] (f x).1 (f x).2 = [c]) as ->; [|by apply IH].
  unfold replace. cbn [mbind list_bind]. rewrite decide_False by done. done.
Qed.

(** Both conversions are runs of twenty replacements. *)
Lemma to_persian_digits_unfold s :
  to_persian_digits s
  = foldl (λ r x, replace r x.1 x.2) s
      ((λ '(i, digit), (digit, [PERSIAN_DIGITS !!! i]))
         <$> (enumerate ENGLISH_DIGITS ++ enumerate ARABIC_DIGITS)).
Proof. reflexivity. Qed.

Lemma to_english_digits_unfold s :
  to_english_digits s
  = foldl (λ r x, replace r x.1 x.2) s
      ((λ '(i, digit), (digit, [ENGLISH_DIGITS !!! i]))
         <$> (enumerate PERSIAN_DIGITS ++ enumerate ARABIC_DIGITS)).
Proof. reflexivity. Qed.

Lemma to_persian_digits_char (c : N) :
  to_persian_digits [c] = [persian_digit_of c].
Proof.
  unfold persian_digit_of.
  destruct (decide (48 ≤ c ≤ 57)%N) as [Hw|Hw].
  { assert (c = 48 ∨ c = 49 ∨ c = 50 ∨ c = 51 ∨ c = 52 ∨ c = 53 ∨ c = 54
            ∨ c = 55 ∨ c = 56 ∨ c = 57)%N as Hc by lia.
    repeat (destruct Hc as [->|Hc]; [by vm_compute|]). by subst. }
  destruct (decide (1632 ≤ c ≤ 1641)%N) as [Ha|Ha].
  { assert (c = 1632 ∨ c = 1633 ∨ c = 1634 ∨ c = 1635 ∨ c = 1636 ∨ c = 1637
            ∨ c = 1638 ∨ c = 1639 ∨ c = 1640 ∨ c = 1641)%N as Hc by lia.
    repeat (destruct Hc as [->|Hc]; [by vm_compute|]). by subst. }
  rewrite to_persian_digits_unfold.
  apply (foldl_replace_other (λ x, x)).
  repeat (apply Forall_cons; split; [simpl; lia|]). by apply Forall_nil.
Qed.

Lemma to_english_digits_char (c : N) :
  to_english_digits [c] = [english_digit_of c].
Proof.
  unfold english_digit_of.
  destruct (decide (1776 ≤ c ≤ 1785)%N) as [Hw|Hw].
  { assert (c = 1776 ∨ c = 1777 ∨ c = 1778 ∨ c = 1779 ∨ c = 1780 ∨ c = 1781
            ∨ c = 1782 ∨ c = 1783 ∨ c = 1784 ∨ c = 1785)%N as Hc by lia.
    repeat (destruct Hc as [->|Hc]; [by vm_compute|]). by subst. }
  destruct (decide (1632 ≤ c ≤ 1641)%N) as [Ha|Ha].
  { assert (c = 1632 ∨ c = 1633 ∨ c = 1634 ∨ c = 1635 ∨ c = 1636 ∨ c = 1637
            ∨ c = 1638 ∨ c = 1639 ∨ c = 1640 ∨ c = 1641)%N as Hc by lia.
    repeat (destruct Hc as [->|Hc]; [by vm_compute|]). by subst. }
  rewrite to_english_digits_unfold.
  apply (foldl_replace_other (λ x, x)).
  repeat (apply Forall_cons; split; [simpl; lia|]). by apply Forall_nil.
Qed.

Lemma to_persian_digits_map s :
  to_persian_digits s = persian_digit_of <$> s.
Proof.
  rewrite to_persian_digits_unfold, (foldl_replace_bind (λ x, x)).
  induction s as [|c s IH]; [done|].
  rewrite bind_cons, <- to_persian_digits_unfold, to_persian_digits_char.
  rewrite fmap_cons. cbn [app]. f_equal. exact IH.
Qed.

Lemma to_english_digits_map s :
  to_english_digits s = english_digit_of <$> s.
Proof.
  rewrite to_english_digits_unfold, (foldl_replace_bind (λ x, x)).
  induction s as [|c s IH]; [done|].
  rewrite bind_cons, <- to_english_digits_unfold, to_english_digits_char.
  rewrite fmap_cons. cbn [app]. f_equal. exact IH.
Qed.

Lemma elem_of_ENGLISH_DIGITS c : c ∈ ENGLISH_DIGITS ↔ (48 ≤ c ≤ 57)%N.
Proof.
  unfold ENGLISH_DIGITS. rewrite !elem_of_cons, elem_of_nil. lia.
Qed.

Lemma elem_of_PERSIAN_DIGITS c : c ∈ PERSIAN_DIGITS ↔ (1776 ≤ c ≤ 1785)%N.
Proof.
  unfold PERSIAN_DIGITS. rewrite !elem_of_cons, elem_of_nil. lia.
Qed.

Lemma elem_of_ARABIC_DIGITS c : c ∈ ARABIC_DIGITS ↔ (1632 ≤ c ≤ 1641)%N.
Proof.
  unfold ARABIC_DIGITS. rewrite !elem_of_cons, elem_of_nil. lia.
Qed.

Local Ltac digit_cases :=
  unfold persian_digit_of, english_digit_of;
  rewrite ?elem_of_ENGLISH_DIGITS, ?elem_of_PERSIAN_DIGITS,
    ?elem_of_ARABIC_DIGITS;
  repeat case_decide; lia.

(** X19.  Digit conversion works character by character.
    [to_persian_digits] replaces each Western digit (0-9) and each
    Arabic-Indic digit by the Persian digit of the same value and leaves
    every other character alone; [to_english_digits] does the same towards
    Western digits.  So the length is kept, the result of
    [to_persian_digits] holds no Western or Arabic-Indic digit, that of
    [to_english_digits] no Persian or Arabic-Indic one, and converting
    twice is converting once. *)
Theorem digit_conversion_is_charwise (s : str) :
  to_persian_digits s = persian_digit_of <$> s
  ∧ to_english_digits s = english_digit_of <$> s
  ∧ length (to_persian_digits s) = length s
  ∧ length (to_english_digits s) = length s
  ∧ Forall (λ c, (c ∉ ENGLISH_DIGITS) ∧ (c ∉ ARABIC_DIGITS)) (to_persian_digits s)
  ∧ Forall (λ c, (c ∉ PERSIAN_DIGITS) ∧ (c ∉ ARABIC_DIGITS)) (to_english_digits s)
  ∧ to_persian_digits (to_persian_digits s) = to_persian_digits s
  ∧ to_english_digits (to_english_digits s) = to_english_digits s.
Proof.
  rewrite !to_persian_digits_map, !to_english_digits_map, !length_fmap.
  repeat split.
  - apply Forall_fmap, Forall_forall. intros c _. simpl. digit_cases.
  - apply Forall_fmap, Forall_forall. intros c _. simpl. digit_cases.
  - rewrite <- list_fmap_compose. apply list_fmap_ext. intros _ c _. simpl.
    digit_cases.
  - rewrite <- list_fmap_compose. apply list_fmap_ext. intros _ c _. simpl.
    digit_cases.
Qed.

Lemma fmap_id_iff {A} (f : A → A) (l : list A) :
  f <$> l = l ↔ Forall (λ x, f x = x) l.
Proof.
  induction l as [|x l IH]; [by split; [intros; apply Forall_nil|]|].
  rewrite fmap_cons, Forall_cons, <- IH. split.
  - by intros [= -> ->].
  - intros [-> ->]. done.
Qed.

(** X20.  Round trips of the digit conversions.
    [to_english_digits (to_persian_digits s)] gives [s] back exactly when
    [s] holds no Persian and no Arabic-Indic digit, and
    [to_persian_digits (to_english_digits s)] exactly when [s] holds no
    Western and no Arabic-Indic digit: digits of the target script and
    Arabic-Indic digits do not come back.  In every case the second
    conversion wins: the composite is the conversion applied last. *)
Theorem digits_round_trip (s : str) :
  (to_english_digits (to_persian_digits s) = s
   ↔ Forall (λ c, (c ∉ PERSIAN_DIGITS) ∧ (c ∉ ARABIC_DIGITS)) s)
  ∧ (to_persian_digits (to_english_digits s) = s
     ↔ Forall (λ c, (c ∉ ENGLISH_DIGITS) ∧ (c ∉ ARABIC_DIGITS)) s)
  ∧ to_english_digits (to_persian_digits s) = to_english_digits s
  ∧ to_persian_digits (to_english_digits s) = to_persian_digits s.
Proof.
  rewrite !to_persian_digits_map, !to_english_digits_map.
  rewrite <- !list_fmap_compose.
  repeat split.
  - intros Hid. apply fmap_id_iff in Hid.
    eapply Forall_impl; [exact Hid|]. intros c. simpl. digit_cases.
  - intros Hs. apply fmap_id_iff.
    eapply Forall_impl; [exact Hs|]. intros c. simpl. digit_cases.
  - intros Hid. apply fmap_id_iff in Hid.
    eapply Forall_impl; [exact Hid|]. intros c. simpl. digit_cases.
  - intros Hs. apply fmap_id_iff.
    eapply Forall_impl; [exact Hs|]. intros c. simpl. digit_cases.
  - apply list_fmap_ext. intros _ c _. simpl. digit_cases.
  - apply list_fmap_ext. intros _ c _. simpl. digit_cases.
Qed.

(** *** [escape_markdown] and [truncate_text] *)

Lemma elem_of_special_chars c :
  c ∈ special_chars
  ↔ (c = 95 ∨ c = 42 ∨ c = 91 ∨ c = 93 ∨ c = 40 ∨ c = 41 ∨ c = 126 ∨ c = 96
     ∨ c = 62 ∨ c = 35 ∨ c = 43 ∨ c = 45 ∨ c = 61 ∨ c = 124 ∨ c = 123
     ∨ c = 125 ∨ c = 46 ∨ c = 33)%N.
Proof.
  unfold special_chars. rewrite !elem_of_cons, elem_of_nil. tauto.
Qed.

(** What [escape_markdown] makes of one character, and of a text. *)
Lemma escape_markdown_char (c : N) : escape_markdown [c] = escaped c.
Proof.
  unfold escaped. destruct (decide (c ∈ special_chars)) as [Hc|Hc].
  - apply elem_of_special_chars in Hc.
    repeat (destruct Hc as [->|Hc]; [by vm_compute|]). by subst.
  - unfold escape_markdown.
    apply (foldl_replace_other (λ char, (char, [92%N; char]))).
    rewrite elem_of_special_chars in Hc.
    repeat (apply Forall_cons; split; [simpl; lia|]). by apply Forall_nil.
Qed.

Lemma escape_markdown_bind s : escape_markdown s = s ≫= escaped.
Proof.
  unfold escape_markdown.
  rewrite (foldl_replace_bind (λ char, (char, [92%N; char]))).
  induction s as [|c s IH]; [done|].
  rewrite !bind_cons. f_equal; [apply escape_markdown_char|exact IH].
Qed.

Lemma escaped_preceded (c : N) (rest : str) (i : nat) (x : N) :
  (∀ j y, rest !! j = Some y → y ∈ special_chars →
          ∃ k, j = S k ∧ rest !! k = Some 92%N) →
  (escaped c ++ rest) !! i = Some x → x ∈ special_chars →
  ∃ k, i = S k ∧ (escaped c ++ rest) !! k = Some 92%N.
Proof.
  intros Hrest Hi Hx. unfold escaped in *.
  destruct (decide (c ∈ special_chars)) as [Hc|Hc].
  - destruct i as [|[|i]]; simpl in *.
    + injection Hi as <-. apply elem_of_special_chars in Hx. lia.
    + by exists 0%nat.
    + destruct (Hrest i x Hi Hx) as (k & -> & Hk). by exists (S (S k)).
  - destruct i as [|i]; simpl in *.
    + injection Hi as <-. done.
    + destruct (Hrest i x Hi Hx) as (k & -> & Hk). by exists (S k).
Qed.

(** X23.  [escape_markdown] escapes every special character exactly once.
    Although it makes eighteen passes over the text, none of them touches
    what an earlier one inserted (the backslash is not in the list): the
    result is the text with one backslash in front of each special
    character, so it is longer by the number of special characters, every
    special character of the result has a backslash right before it, and a
    text without special characters is returned as it is. *)
Theorem escape_markdown_single_pass (s : str) :
  escape_markdown s = s ≫= escaped
  ∧ length (escape_markdown s)
    = (length s + length (filter (λ c, c ∈ special_chars) s))%nat
  ∧ (∀ i c, escape_markdown s !! i = Some c → c ∈ special_chars →
            ∃ k, i = S k ∧ escape_markdown s !! k = Some 92%N)
  ∧ (Forall (λ c, c ∉ special_chars) s → escape_markdown s = s).
Proof.
  rewrite escape_markdown_bind. unfold str in *.
  split; [done|]. split; [|split].
  - induction s as [|c s IH]; [done|].
    rewrite bind_cons, length_app, IH, filter_cons. unfold escaped.
    destruct (decide (c ∈ special_chars)); simpl; lia.
  - induction s as [|c s IH]; [done|].
    rewrite bind_cons. intros i x. by apply escaped_preceded.
  - induction 1 as [|c s Hc _ IH]; [done|].
    rewrite bind_cons, IH. unfold escaped. by rewrite decide_False.
Qed.

(** X22.  [truncate_text]: a text of at most [max_length] characters is
    returned as it is; a longer one is cut and ends with the suffix.  When
    the suffix fits into [max_length] the result never exceeds
    [max_length], and a cut text has exactly [max_length] characters and
    starts with the first [max_length - len(suffix)] characters of the
    text.  When the suffix is longer than [max_length] the slice bound is
    negative and counts from the end, and the result of a cut is longer
    than [max_length]. *)
Theorem truncate_text_length (text suffix : str) (max_length : Z) :
  let result := truncate_text text max_length suffix in
  (Z.of_nat (length text) ≤ max_length → result = text)
  ∧ (max_length < Z.of_nat (length text) →
     result
     = slice_to text (max_length - Z.of_nat (length suffix)) ++ suffix
     ∧ suffix `suffix_of` result)
  ∧ (Z.of_nat (length suffix) ≤ max_length →
     Z.of_nat (length result) ≤ max_length
     ∧ (max_length < Z.of_nat (length text) →
        Z.of_nat (length result) = max_length
        ∧ take (Z.to_nat (max_length - Z.of_nat (length suffix))) text
          `prefix_of` result))
  ∧ (max_length < Z.of_nat (length suffix) →
     max_length < Z.of_nat (length text) →
     max_length < Z.of_nat (length result)
     ∧ Z.of_nat (length result)
       = Z.max 0 (Z.of_nat (length text) + max_length
                  - Z.of_nat (length suffix))
         + Z.of_nat (length suffix)).
Proof.
  intros result. subst result. unfold truncate_text, slice_to.
  destruct (decide (Z.of_nat (length text) ≤ max_length)) as [Hshort|Hlong].
  - split; [done|]. split; [lia|]. split; [|lia]. intros _. split; [done|lia].
  - split; [lia|]. split.
    { intros _. split; [done|]. by eexists. }
    split.
    + intros Hs. rewrite decide_False by lia.
      rewrite length_app, length_take. split; [lia|]. intros _.
      split; [lia|]. by eexists.
    + intros Hs _. rewrite decide_True by lia.
      rewrite length_app, length_take. lia.
Qed.

(** *** [generate_progress_bar] *)







Section ProgressBar.
Context (format_f : nat → Q → str).
Context `{FloatArith}.



End ProgressBar.


(** *** [format_file_size] *)

Lemma Qabs_nonneg_eq (x : Q) : (0 <= x)%Q → Qabs x = x.
Proof.
  destruct x as [a b]. unfold Qle, Qabs. simpl. intros Ha.
  f_equal. lia.
Qed.

Lemma Qdiv_1024_nonneg (x : Q) : (0 <= x)%Q → (0 <= x / 1024)%Q.
Proof. intros Hx. apply Qle_shift_div_l; [done|]. lra. Qed.

Lemma Qdiv_1024_le (x y : Q) : (1024 * y <= x)%Q ↔ (y <= x / 1024)%Q.
Proof.
  split; intros Hx.
  - apply Qle_shift_div_l; [done|]. lra.
  - assert (x == x / 1024 * 1024)%Q as -> by (field; done). lra.
Qed.

Lemma Qdiv_1024_lt (x y : Q) : (x < 1024 * y)%Q ↔ (x / 1024 < y)%Q.
Proof.
  split; intros Hx.
  - apply Qlt_shift_div_r; [done|]. lra.
  - assert (x == x / 1024 * 1024)%Q as -> by (field; done). lra.
Qed.

Section FileSize.
Context (format_f : nat → Q → str).

(** The unit at which the loop of [languages/utils.py] stops. *)
Lemma scale_loop_en (size : Q) :
  scale_loop 5 5 size 0
  = (if Qlt_le_dec size 1024 then (size, 0%nat)
     else if Qlt_le_dec (size / 1024) 1024 then (size / 1024, 1%nat)
     else if Qlt_le_dec (size / 1024 / 1024) 1024
          then (size / 1024 / 1024, 2%nat)
     else if Qlt_le_dec (size / 1024 / 1024 / 1024) 1024
          then (size / 1024 / 1024 / 1024, 3%nat)
     else (size / 1024 / 1024 / 1024 / 1024, 4%nat))%Q.
Proof.
  cbn [scale_loop].
  repeat (destruct (Qlt_le_dec _ 1024); [done|]; simpl). done.
Qed.

(** X24.  The two [format_file_size] functions, the one of [config.py]
    and the one of [languages/utils.py] called for English with one
    decimal place, agree on every size below 1024^5 bytes, and both answer
    "Unknown" for a negative size (the second one [unknown_fa] for
    Persian).
    From 1024^5 bytes on they differ: [config.py] goes on to "PB" while
    [languages/utils.py] stops at "TB". *)
Theorem file_size_formats_agree (size_bytes : Q) :
  ((size_bytes < 0)%Q →
   Config.format_file_size format_f size_bytes = lit "Unknown"
   ∧ format_file_size format_f size_bytes "en" 1 = lit "Unknown"
   ∧ format_file_size format_f size_bytes "fa" 1 = unknown_fa)
  ∧ ((0 <= size_bytes)%Q → (size_bytes < 1024 ^ 5)%Q →
     Config.format_file_size format_f size_bytes
     = format_file_size format_f size_bytes "en" 1)
  ∧ ((1024 ^ 5 <= size_bytes)%Q →
     Config.format_file_size format_f size_bytes
     = format_f 1 (size_bytes / 1024 / 1024 / 1024 / 1024 / 1024)%Q
       ++ lit " PB"
     ∧ format_file_size format_f size_bytes "en" 1
       = format_f 1 (size_bytes / 1024 / 1024 / 1024 / 1024)%Q ++ lit " TB").
Proof.
  unfold Config.format_file_size, format_file_size.
  assert (1024 ^ 5 == 1125899906842624)%Q as Hpow by reflexivity.
  rewrite Hpow. clear Hpow.
  split; [|split].
  - intros Hneg. destruct (Qlt_le_dec size_bytes 0) as [_|Hge]; [done|lra].
  - intros Hnn Hlt. destruct (Qlt_le_dec size_bytes 0) as [Hneg|_]; [lra|].
    rewrite decide_False by done.
    change (length units_en) with 5%nat. rewrite scale_loop_en.
    unfold units_en. cbn [Config.format_file_size_loop].
    pose proof (Qdiv_1024_nonneg size_bytes Hnn) as H1.
    pose proof (Qdiv_1024_nonneg _ H1) as H2.
    pose proof (Qdiv_1024_nonneg _ H2) as H3.
    pose proof (Qdiv_1024_nonneg _ H3) as H4.
    rewrite !Qabs_nonneg_eq by done.
    repeat (destruct (Qlt_le_dec _ 1024) as [?|?]; [done|]).
    exfalso.
    repeat match goal with
           | H : (_ <= _ / 1024)%Q |- _ => apply Qdiv_1024_le in H
           end.
    lra.
  - intros Hbig. destruct (Qlt_le_dec size_bytes 0) as [Hneg|_]; [lra|].
    assert (0 <= size_bytes)%Q as Hnn by lra.
    rewrite decide_False by done.
    change (length units_en) with 5%nat. rewrite scale_loop_en.
    unfold units_en. cbn [Config.format_file_size_loop].
    pose proof (Qdiv_1024_nonneg size_bytes Hnn) as H1.
    pose proof (Qdiv_1024_nonneg _ H1) as H2.
    pose proof (Qdiv_1024_nonneg _ H2) as H3.
    pose proof (Qdiv_1024_nonneg _ H3) as H4.
    rewrite !Qabs_nonneg_eq by done.
    repeat (destruct (Qlt_le_dec _ 1024) as [Hlt|?];
            [exfalso;
             repeat match goal with
                    | H : (_ / 1024 < _)%Q |- _ => apply Qdiv_1024_lt in H
                    end; lra|]).
    done.
Qed.

End FileSize.

End UtilsFacts.

(** ** Splitting a string *)

Lemma str_split_nonempty sep s : str_split sep s ≠ [].
Proof.
  induction s as [|c s IH]; simpl; [done|].
  destruct (decide (c = sep)); [done|]. by destruct (str_split sep s).
Qed.

Lemma str_split_no_sep sep s :
  sep ∉ String.list_ascii_of_string s → str_split sep s = [s].
Proof.
  induction s as [|c s IH]; simpl; [done|]. intros Hs.
  rewrite decide_False by set_solver. rewrite IH by set_solver. done.
Qed.

Lemma str_split_at_sep sep s1 s2 :
  sep ∉ String.list_ascii_of_string s1 →
  str_split sep (s1 +:+ String sep s2) = s1 :: str_split sep s2.
Proof.
  induction s1 as [|c s1 IH]; simpl; intros Hs.
  - by rewrite decide_True.
  - rewrite decide_False by set_solver. rewrite IH by set_solver. done.
Qed.

(** ** The language tables *)

Module LanguagesFacts.
Import Languages.

(** X27.  [_get_nested_value] follows dotted keys one level at a time.  A
    key without a dot is found exactly when the dictionary holds a text
    under it (a nested dictionary under the key is not a text and gives
    [None]).  A key [k.rest] is looked up as [rest] inside the dictionary
    stored under [k], and gives [None] when [k] is missing or holds a
    text. *)
Theorem get_nested_value_path (dictionary : gmap string Node)
    (k rest : string) :
  "."%char ∉ String.list_ascii_of_string k →
  _get_nested_value dictionary k
  = match dictionary !! k with
    | Some (NStr s) => Some s
    | _ => None
    end
  ∧ _get_nested_value dictionary (k +:+ "." +:+ rest)
    = match dictionary !! k with
      | Some (NDict d) => _get_nested_value d rest
      | _ => None
      end.
Proof.
  intros Hk. unfold _get_nested_value. split.
  - rewrite str_split_no_sep by done. simpl.
    by destruct (dictionary !! k) as [[]|].
  - change ("." +:+ rest) with (String "." rest).
    rewrite str_split_at_sep by done. cbn [walk].
    destruct (dictionary !! k) as [[s|d|]|]; try done.
    + pose proof (str_split_nonempty "." rest).
      by destruct (str_split "." rest).
    + pose proof (str_split_nonempty "." rest).
      by destruct (str_split "." rest).
Qed.

Lemma get_nested_value_path_witness :
  let errors : gmap string Node :=
    {[ "not_found" := NStr "Not found"; "net" := NDict {[ "down" := NStr "Offline" ]} ]} in
  let d : gmap string Node := {[ "errors" := NDict errors; "hello" := NStr "Hi" ]} in
  _get_nested_value d "hello" = Some "Hi"
  ∧ _get_nested_value d "errors.not_found" = Some "Not found"
  ∧ _get_nested_value d "errors.net.down" = Some "Offline"
  ∧ _get_nested_value d "errors" = None
  ∧ _get_nested_value d "hello.x" = None.
Proof.
  intros errors d.
  assert ("."%char ∉ String.list_ascii_of_string "hello") as Hh.
  { apply (bool_decide_unpack _). by vm_compute. }
  assert ("."%char ∉ String.list_ascii_of_string "errors") as He.
  { apply (bool_decide_unpack _). by vm_compute. }
  destruct (get_nested_value_path d "hello" "x" Hh) as [H1 H2].
  destruct (get_nested_value_path d "errors" "not_found" He) as [H3 H4].
  split; [etrans; [exact H1|by vm_compute]|].
  split; [etrans; [exact H4|by vm_compute]|].
  split; [by vm_compute|].
  split; [etrans; [exact H3|by vm_compute]|].
  etrans; [exact H2|by vm_compute].
Defined.

Section WithFiles.
Context (files : list (string * option (gmap string Node))).
Context (str_format : string → list (string * string) → option string).
Implicit Types (st : LangState).

(** Loading happens once and never touches the users' choices. *)
Lemma ensure_loaded_users st :
  _user_languages (ensure_loaded files st) = _user_languages st.
Proof.
  unfold ensure_loaded, load_all_languages.
  destruct (decide (_loaded_languages st = ∅)); [|done].
  by destruct (decide (_loaded_languages st ≠ ∅)).
Qed.

Lemma ensure_loaded_empty (users : gmap Z string) :
  ensure_loaded files (mkLangState ∅ users)
  = mkLangState (load_all_languages files (mkLangState ∅ users)).2 users.
Proof.
  unfold ensure_loaded, load_all_languages. simpl.
  rewrite decide_True by done. by rewrite decide_False by naive_solver.
Qed.

Lemma ensure_loaded_nonempty st :
  _loaded_languages st ≠ ∅ → ensure_loaded files st = st.
Proof. intros Hne. unfold ensure_loaded. by rewrite decide_False. Qed.

Lemma ensure_loaded_idem st :
  ensure_loaded files (ensure_loaded files st) = ensure_loaded files st.
Proof.
  destruct st as [loaded users].
  destruct (decide (loaded = ∅)) as [->|Hne].
  2: { by rewrite !(ensure_loaded_nonempty (mkLangState loaded users)). }
  rewrite ensure_loaded_empty.
  set (l := (load_all_languages files _).2).
  destruct (decide (l = ∅)) as [He|Hne].
  - rewrite He, ensure_loaded_empty. fold l. by rewrite He.
  - by rewrite ensure_loaded_nonempty.
Qed.

Lemma get_language_chosen st lang :
  get_language files st lang
  = (ensure_loaded files st,
     chosen (_loaded_languages (ensure_loaded files st)) lang).
Proof.
  unfold get_language, chosen.
  destruct (_ !! lang); [done|]. by destruct (_ !! FALLBACK_LANGUAGE).
Qed.

Lemma get_nested_value_empty key : _get_nested_value ∅ key = None.
Proof.
  unfold _get_nested_value. pose proof (str_split_nonempty "." key) as Hs.
  destruct (str_split "." key) as [|k ks]; [done|]. simpl.
  by rewrite lookup_empty.
Qed.

(** [get_text] with a language code, in terms of [found] and [render]. *)
Lemma get_text_found st key lang kwargs :
  get_text files str_format st key (Some lang) None kwargs
  = (ensure_loaded files st,
     match found (_loaded_languages (ensure_loaded files st)) lang key with
     | Some text => render str_format kwargs text
     | None => "[" +:+ key +:+ "]"
     end).
Proof.
  unfold get_text, found, render. rewrite get_language_chosen.
  set (st1 := ensure_loaded files st).
  set (L := _loaded_languages st1).
  destruct (decide (lang ≠ FALLBACK_LANGUAGE)) as [Hne|He].
  - rewrite get_language_chosen. unfold st1. rewrite ensure_loaded_idem.
    fold st1. fold L.
    destruct (_get_nested_value (chosen L lang) key) as [text|].
    + destruct (decide (kwargs ≠ [])); [|done].
      by destruct (str_format text kwargs).
    + destruct (decide (chosen L FALLBACK_LANGUAGE ≠ ∅)) as [Hd|Hd].
      * destruct (_get_nested_value _ key) as [text|]; [|done].
        destruct (decide (kwargs ≠ [])); [|done].
        by destruct (str_format text kwargs).
      * assert (chosen L FALLBACK_LANGUAGE = ∅) as ->
          by (by destruct (decide (chosen L FALLBACK_LANGUAGE = ∅))).
        by rewrite get_nested_value_empty.
  - destruct (_get_nested_value (chosen L lang) key) as [text|]; [|done].
    destruct (decide (kwargs ≠ [])); [|done].
    by destruct (str_format text kwargs).
Qed.

(** X26.  The fallback chain of [get_text].  A language that is not
    loaded is treated as the fallback language "en".  For a loaded
    language the text of that language is used when its dictionary has the
    key; when it does not, the text of "en" is used; when "en" lacks the
    key too, the result is the key in square brackets.  The text found is
    formatted with the keyword arguments, and returned as it is when there
    are none or when formatting fails.  Without a language code the
    language is the user's own ([get_user_language]), or "fa" when no user
    is given.  The only change to the state is the loading of the
    languages. *)
Theorem get_text_fallback st (key lang : string)
    (kwargs : list (string * string)) :
  let st1 := ensure_loaded files st in
  let loaded := _loaded_languages st1 in
  let r := get_text files str_format st key (Some lang) None kwargs in
  r.1 = st1
  ∧ (lang ∉ dom loaded →
     r = get_text files str_format st key (Some FALLBACK_LANGUAGE) None kwargs)
  ∧ (∀ d text, loaded !! lang = Some d →
       _get_nested_value d key = Some text → r.2 = render str_format kwargs text)
  ∧ (∀ d en text, loaded !! lang = Some d →
       _get_nested_value d key = None →
       loaded !! FALLBACK_LANGUAGE = Some en →
       _get_nested_value en key = Some text → r.2 = render str_format kwargs text)
  ∧ (∀ d en, loaded !! lang = Some d →
       _get_nested_value d key = None →
       loaded !! FALLBACK_LANGUAGE = Some en →
       _get_nested_value en key = None → r.2 = "[" +:+ key +:+ "]")
  ∧ (∀ text, render str_format [] text = text)
  ∧ (∀ uid,
       get_text files str_format st key None (Some uid) kwargs
       = get_text files str_format st key (Some (get_user_language st uid))
           None kwargs)
  ∧ get_text files str_format st key None None kwargs
    = get_text files str_format st key (Some DEFAULT_LANGUAGE) None kwargs.
Proof.
  intros st1 loaded r.
  repeat (match goal with
          | |- _ ∧ _ => idtac
          end; split); [| | | | | |done|done].
  all: subst r; rewrite ?get_text_found; fold st1; fold loaded; simpl.
  - done.
  - intros Hun. apply not_elem_of_dom in Hun. f_equal.
    unfold found, chosen. rewrite Hun.
    destruct (decide (lang ≠ FALLBACK_LANGUAGE)) as [Hne|He];
      rewrite decide_False by naive_solver;
      destruct (loaded !! FALLBACK_LANGUAGE) as [en|];
      by destruct (_get_nested_value _ key).
  - intros d text Hd Ht. unfold found, chosen. by rewrite Hd, Ht.
  - intros d en text Hd Hnone Hen Ht. unfold found, chosen.
    rewrite Hd, Hnone, Hen, Ht.
    destruct (decide (lang ≠ FALLBACK_LANGUAGE)) as [|He]; [done|].
    assert (lang = FALLBACK_LANGUAGE) as ->
      by (by destruct (decide (lang = FALLBACK_LANGUAGE))).
    congruence.
  - intros d en Hd Hnone Hen Ht. unfold found, chosen.
    rewrite Hd, Hnone, Hen, Ht. by destruct (decide _).
  - done.
Qed.

(** X25.  [set_user_language] succeeds exactly for a loaded language, and
    then [get_user_language] returns that language for the user; when it
    fails the user's language stays what it was.  Other users are never
    affected.  After [remove_user_language] the user is back at the
    default "fa", again with no effect on other users.  The only change to
    the loaded languages is their loading on first use. *)
Theorem user_language_round_trip st (uid : Z) (lang : string) :
  let r := set_user_language files st uid lang in
  let st1 := ensure_loaded files st in
  (r.2 = true ↔ lang ∈ dom (_loaded_languages st1))
  ∧ (r.2 = true → get_user_language r.1 uid = lang)
  ∧ (r.2 = false → get_user_language r.1 uid = get_user_language st uid)
  ∧ (∀ uid', uid' ≠ uid →
       get_user_language r.1 uid' = get_user_language st uid')
  ∧ get_user_language (remove_user_language r.1 uid) uid = DEFAULT_LANGUAGE
  ∧ (∀ uid', uid' ≠ uid →
       get_user_language (remove_user_language r.1 uid) uid'
       = get_user_language st uid')
  ∧ _loaded_languages r.1 = _loaded_languages st1.
Proof.
  intros r st1. subst r.
  unfold set_user_language, is_language_available. fold st1.
  pose proof (ensure_loaded_users st) as Hu. fold st1 in Hu.
  unfold get_user_language, remove_user_language.
  destruct (bool_decide (lang ∈ dom (_loaded_languages st1))) eqn:Hav; simpl.
  - apply bool_decide_eq_true in Hav.
    split; [naive_solver|]. split; [by rewrite lookup_insert_eq|].
    split; [done|].
    split; [intros uid' Hne; by rewrite lookup_insert_ne, Hu|].
    split; [by rewrite lookup_delete_eq|]. split; [|done].
    intros uid' Hne. by rewrite lookup_delete_ne, lookup_insert_ne, Hu.
  - apply bool_decide_eq_false in Hav.
    split; [naive_solver|]. split; [done|]. split; [by rewrite Hu|].
    split; [intros uid' Hne; by rewrite Hu|].
    split; [by rewrite lookup_delete_eq|]. split; [|done].
    intros uid' Hne. by rewrite lookup_delete_ne, Hu.
Qed.

End WithFiles.
End LanguagesFacts.
